(** * Co-Bot: the per-channel message pipeline of the Discord relay

    A shallow embedding of [src/bot.js] (class [DiscordBot]) and
    [src/copilot.js] (class [CopilotManager]).

    JavaScript strings are sequences of UTF-16 code units; they are modelled
    as lists of [N].  Numbers that the code uses as indices or sizes are
    integers there and are modelled in [Z]. *)

From stdpp Require Import gmap strings list pretty sorting.
From Stdlib Require Import ZArith Lia.

Open Scope Z_scope.

(** ** JavaScript strings *)

Module JS.

Abbreviation jsstring := (list N).

(** An ASCII literal as a JavaScript string. *)
Definition lit (s : string) : jsstring :=
  Ascii.N_of_ascii <$> String.list_ascii_of_string s.

Definition LF : N := 10%N.
Definition SP : N := 32%N.

Definition len (s : jsstring) : Z := Z.of_nat (length s).

(** [WhiteSpace] and [LineTerminator] of ECMAScript: what [trimStart],
    [trim] and the regular expression class [\s] all match. *)
Definition isWhiteSpace (c : N) : bool :=
  ((9 <=? c) && (c <=? 13) || (c =? 32) || (c =? 160) || (c =? 5760)
   || (8192 <=? c) && (c <=? 8202) || (c =? 8232) || (c =? 8233)
   || (c =? 8239) || (c =? 8287) || (c =? 12288) || (c =? 65279))%N.

(** Relative index resolution of [String.prototype.slice]. *)
Definition relIndex (n i : Z) : Z :=
  if i <? 0 then Z.max (n + i) 0 else Z.min i n.

(** [s.slice(start, end)] *)
Definition slice (s : jsstring) (start end_ : Z) : jsstring :=
  let from := relIndex (len s) start in
  let to := relIndex (len s) end_ in
  take (Z.to_nat (Z.max (to - from) 0)) (drop (Z.to_nat from) s).

(** [s.slice(start)] *)
Definition sliceFrom (s : jsstring) (start : Z) : jsstring :=
  slice s start (len s).

(** [s.lastIndexOf(c)] for a one-unit search string; [-1] when absent. *)
Fixpoint lastIndexFrom (c : N) (i found : Z) (s : jsstring) : Z :=
  match s with
  | [] => found
  | x :: s' => lastIndexFrom c (i + 1) (if (x =? c)%N then i else found) s'
  end.

Definition lastIndexOf (s : jsstring) (c : N) : Z :=
  lastIndexFrom c 0 (-1) s.

(** [s.trimStart()] *)
Fixpoint trimStart (s : jsstring) : jsstring :=
  match s with
  | [] => []
  | c :: s' => if isWhiteSpace c then trimStart s' else s
  end.

(** The whitespace prefix that [trimStart] removes. *)
Fixpoint leadingWs (s : jsstring) : jsstring :=
  match s with
  | [] => []
  | c :: s' => if isWhiteSpace c then c :: leadingWs s' else []
  end.

(** [s.trimEnd()] and [s.trim()] *)
Definition trimEnd (s : jsstring) : jsstring :=
  reverse (trimStart (reverse s)).

Definition trim (s : jsstring) : jsstring := trimEnd (trimStart s).

(** [s.replace(/\s+/g, ' ')]: every maximal whitespace run becomes one
    space.  [inRun] records that the previous unit was whitespace. *)
Fixpoint collapseFrom (inRun : bool) (s : jsstring) : jsstring :=
  match s with
  | [] => []
  | c :: s' =>
      if isWhiteSpace c
      then (if inRun then collapseFrom true s' else SP :: collapseFrom true s')
      else c :: collapseFrom false s'
  end.

Definition collapseWs (s : jsstring) : jsstring := collapseFrom false s.

(** [parts.join(sep)] *)
Fixpoint join (sep : jsstring) (parts : list jsstring) : jsstring :=
  match parts with
  | [] => []
  | [p] => p
  | p :: ps => p ++ sep ++ join sep ps
  end.

End JS.

Import JS.

(** ** Reply chunking: [DiscordBot.splitMessage] *)

Definition DISCORD_MSG_LIMIT : Z := 2000.

Module Chunker.

(** One iteration of the [while] loop of [splitMessage]: the chunk that is
    pushed and the new value of [remaining]. *)
Definition splitStep (limit : Z) (remaining : jsstring) : jsstring * jsstring :=
  let chunk := slice remaining 0 limit in
  let split := Z.max (lastIndexOf chunk LF) (lastIndexOf chunk SP) in
  let chunk := if limit - 500 <? split then slice chunk 0 split else chunk in
  (chunk, trimStart (sliceFrom remaining (len chunk))).

#[global] Arguments splitStep : simpl never.

(** The [while (remaining.length > 0)] loop.  The source loop has no bound;
    [fuel] bounds the number of iterations and [None] means that the bound
    was reached with [remaining] still non-empty. *)
Fixpoint splitLoop (limit : Z) (fuel : nat) (chunks : list jsstring)
    (remaining : jsstring) : option (list jsstring) :=
  if 0 <? len remaining then
    match fuel with
    | O => None
    | S fuel' =>
        let '(chunk, rest) := splitStep limit remaining in
        splitLoop limit fuel' (chunks ++ [chunk]) rest
    end
  else Some chunks.

(** [splitMessage(content, limit)] as in [test/test.js], which repeats the
    body of the method with the limit as a parameter. *)
Definition splitMessageAt (limit : Z) (fuel : nat) (content : jsstring)
    : option (list jsstring) :=
  if len content <=? limit then Some [content]
  else splitLoop limit fuel [] content.

(** [DiscordBot.splitMessage(content)] with [fuel] loop iterations allowed. *)
Definition splitMessageFuel (fuel : nat) (content : jsstring)
    : option (list jsstring) :=
  splitMessageAt DISCORD_MSG_LIMIT fuel content.

(** [DiscordBot.splitMessage(content)]: one iteration per code unit is
    always enough ([splitMessage_enough_fuel] below), so the default is
    never taken. *)
Definition splitMessage (content : jsstring) : list jsstring :=
  default [] (splitMessageFuel (length content) content).

End Chunker.

(** Predicates on strings used in the statements below. *)

Definition noWhiteSpace (s : jsstring) : Prop :=
  Forall (λ c, isWhiteSpace c = false) s.

Definition allWhiteSpace (s : jsstring) : Prop :=
  Forall (λ c, isWhiteSpace c = true) s.

(** Every word is non-empty and free of whitespace. *)
Definition isWord (w : jsstring) : Prop :=
  w ≠ [] /\ Forall (λ c, isWhiteSpace c = false) w.

(** ** The reconstruction check of the splitting test *)

Module Rejoin.

(** [s.replace(/\s+/g, ' ').trim()], the whitespace normalization that the
    splitting test of [test/test.js] applies. *)
Definition normalize (s : jsstring) : jsstring := trim (collapseWs s).

(** [chunks.join(' ').replace(/\s+/g, ' ').trim()] *)
Definition rejoin (chunks : list jsstring) : jsstring :=
  normalize (join [SP] chunks).

(** The non-whitespace units of a string, in order. *)
Definition inkOf (s : jsstring) : jsstring :=
  filter (λ c, isWhiteSpace c = false) s.

(** The words of a string: its maximal runs of non-whitespace units.
    [cur] is the part of the current word that has been read. *)
Definition flush (cur : jsstring) : list jsstring :=
  match cur with [] => [] | _ => [cur] end.

Fixpoint wordsFrom (cur : jsstring) (s : jsstring) : list jsstring :=
  match s with
  | [] => flush cur
  | c :: s' =>
      if isWhiteSpace c then flush cur ++ wordsFrom [] s'
      else wordsFrom (cur ++ [c]) s'
  end.

Definition words (s : jsstring) : list jsstring := wordsFrom [] s.

(** A cut after [chunk], a prefix of [remaining], falls inside a word when
    the units on both sides of it are not whitespace. *)
Definition cutInsideWord (remaining chunk : jsstring) : bool :=
  match last chunk, remaining !! length chunk with
  | Some a, Some b => negb (isWhiteSpace a) && negb (isWhiteSpace b)
  | _, _ => false
  end.

(** The number of cuts inside a word that the loop of [splitMessage]
    makes. *)
Fixpoint cutsInsideWords (limit : Z) (fuel : nat) (remaining : jsstring) : nat :=
  if 0 <? len remaining then
    match fuel with
    | O => O
    | S fuel' =>
        let '(chunk, rest) := Chunker.splitStep limit remaining in
        ((if cutInsideWord remaining chunk then 1 else 0)
         + cutsInsideWords limit fuel' rest)%nat
    end
  else O.

Definition midWordCuts (content : jsstring) : nat :=
  if len content <=? DISCORD_MSG_LIMIT then O
  else cutsInsideWords DISCORD_MSG_LIMIT (length content) content.

End Rejoin.

(** ** Data model of the bot *)

(** A thrown JavaScript [Error] with its [message]. *)
Inductive Error := JsError (message : jsstring).

(** A Discord attachment; [contentType] is [null] when Discord reports none. *)
Record Attachment := {
  attName : jsstring;
  attUrl : jsstring;
  contentType : option jsstring;
  attSize : Z
}.

(** A Discord message, with the fields of [author] flattened;
    [attachments] is the collection in iteration order. *)
Record Message := {
  messageId : jsstring;
  guildId : option jsstring;
  channelId : jsstring;
  authorUsername : jsstring;
  authorBot : bool;
  content : jsstring;
  attachments : list Attachment;
  createdTimestamp : Z
}.

(** The object returned by [loadConfig] in [src/index.js], without the
    Discord token. *)
Record Config := {
  DISCORD_GUILD_ID : jsstring;
  DISCORD_CHANNEL_ID : option jsstring;
  BLACKLISTED_CHANNELS : list jsstring;
  REPLY_TO_BOT : bool;
  CONTEXT_MESSAGE_COUNT : Z;
  IMAGE_SUPPORT : bool;
  MAX_IMAGE_SIZE_MB : Z
}.

(** An entry of [results] in [downloadAttachments]:
    [{ type: 'file', path, displayName }]. *)
Record FileAttachment := {
  path : jsstring;
  displayName : jsstring
}.

(** The options of [message.channel.messages.fetch]. *)
Record FetchOpts := {
  limit : Z;
  before : option jsstring
}.

(** ** Effects

    Every call that leaves the process is recorded in a log, in the order of
    the calls.  Replies carry the place in [processMessage] or
    [downloadAttachments] that sent them. *)

Inductive ReplyKind := Chunk | EmptyNotice | ErrorNotice | TooLargeNotice.

Inductive Event :=
| EvTyping (channel : jsstring)
| EvFetch (channel : jsstring) (opts : FetchOpts)
| EvReply (kind : ReplyKind) (to : jsstring) (text : jsstring)
| EvDownload (url dest : jsstring)
| EvSend (prompt : jsstring) (sent : list FileAttachment).

(** What the pipeline can change: the log and the files that exist in the
    temporary directory. *)
Record World := {
  events : list Event;
  files : gset jsstring
}.

(** The behaviour of the collaborators.  Each answer may depend on the
    number of calls logged so far and on the arguments of the call. *)
Record Env := {
  fetchResult : nat -> jsstring -> FetchOpts -> Error + list Message;
  replyResult : nat -> option Error;
  downloadResult : nat -> option Error;
  sendResult : nat -> jsstring -> list FileAttachment -> Error + option jsstring;
  now : nat -> Z;
  tmpdir : jsstring
}.

(** The result of running asynchronous code to its end: a value, a thrown
    error (a rejected promise), or a loop of the model that ran out of
    iterations.  No handler catches the last one. *)
Inductive Outcome (A : Type) :=
| Ok (a : A)
| Throw (e : Error)
| OutOfFuel.

Arguments Ok {A} a.
Arguments Throw {A} e.
Arguments OutOfFuel {A}.

Definition M (A : Type) : Type := World -> Outcome A * World.

Module Async.

Definition ret {A} (a : A) : M A := λ w, (Ok a, w).

Definition throw {A} (e : Error) : M A := λ w, (Throw e, w).

Definition diverge {A} : M A := λ w, (OutOfFuel, w).

(** [await m] followed by [k]. *)
Definition bind {A B} (m : M A) (k : A -> M B) : M B := λ w,
  match m w with
  | (Ok a, w') => k a w'
  | (Throw e, w') => (Throw e, w')
  | (OutOfFuel, w') => (OutOfFuel, w')
  end.

(** [try { m } catch (err) { h err }] *)
Definition tryCatch {A} (m : M A) (h : Error -> M A) : M A := λ w,
  match m w with
  | (Throw e, w') => h e w'
  | r => r
  end.

(** [m.catch(() => {})] *)
Definition swallow (m : M unit) : M unit := tryCatch m (λ _, ret tt).

(** A promise run until it settles, fulfilled or rejected. *)
Definition settled {A} (m : M A) : M (Error + A) := λ w,
  match m w with
  | (Ok a, w') => (Ok (inr a), w')
  | (Throw e, w') => (Ok (inl e), w')
  | (OutOfFuel, w') => (OutOfFuel, w')
  end.

(** [Promise.all([p, q])] on two settled promises. *)
Definition all2 {A B} (p : Error + A) (q : Error + B) : M (A * B) :=
  match p, q with
  | inr a, inr b => ret (a, b)
  | inl e, _ => throw e
  | _, inl e => throw e
  end.

Definition tick : M nat := λ w, (Ok (length (events w)), w).

Definition emit (e : Event) : M unit := λ w,
  (Ok tt, {| events := events w ++ [e]; files := files w |}).

(** [fs.createWriteStream(dest)] creates the file. *)
Definition createFile (dest : jsstring) : M unit := λ w,
  (Ok tt, {| events := events w; files := {[dest]} ∪ files w |}).

Definition ofResult {A} (r : Error + A) : M A :=
  match r with inl e => throw e | inr a => ret a end.

Definition ofStatus (r : option Error) : M unit :=
  match r with Some e => throw e | None => ret tt end.

End Async.

Import Async.

#[global] Instance M_ret : MRet M := @ret.
#[global] Instance M_bind : MBind M := λ A B k m, bind m k.

(** [String(n)] for an integer. *)
Definition numberToString (n : Z) : jsstring := lit (pretty n).

(** [s.startsWith(p)] *)
Fixpoint startsWith (s p : jsstring) : bool :=
  match p, s with
  | [], _ => true
  | c :: p', x :: s' => (x =? c)%N && startsWith s' p'
  | _ :: _, [] => false
  end.

(** [path.join(dir, file)], for a [file] without separators. *)
Definition pathJoin (dir file : jsstring) : jsstring := dir ++ lit "/" ++ file.

Definition QUOTE : N := 34%N.

(** ** The message pipeline of [DiscordBot] *)

Module Pipeline.
Section Pipeline.

Context (config : Config) (env : Env).

(** *** Calls to the collaborators *)

(** [message.channel.sendTyping().catch(() => {})]: the result is ignored. *)
Definition sendTyping (message : Message) : M unit :=
  emit (EvTyping (channelId message)).

(** [message.channel.messages.fetch(opts)] *)
Definition fetch (message : Message) (opts : FetchOpts) : M (list Message) :=
  t ← tick ;
  emit (EvFetch (channelId message) opts) ;;
  ofResult (fetchResult env t (channelId message) opts).

(** [message.reply(text)] *)
Definition reply (kind : ReplyKind) (message : Message) (text : jsstring) : M unit :=
  t ← tick ;
  emit (EvReply kind (messageId message) text) ;;
  ofStatus (replyResult env t).

(** [this.copilot.send(prompt, attachments)]; the value is
    [response?.data?.content]. *)
Definition copilotSend (prompt : jsstring) (sent : list FileAttachment)
    : M (option jsstring) :=
  t ← tick ;
  emit (EvSend prompt sent) ;;
  ofResult (sendResult env t prompt sent).

(** [Date.now()] *)
Definition dateNow : M Z :=
  t ← tick ; ret (now env t).

(** [downloadFile(url, dest)]: the write stream is opened, then the
    request succeeds or fails. *)
Definition downloadFile (url dest : jsstring) : M unit :=
  t ← tick ;
  emit (EvDownload url dest) ;;
  createFile dest ;;
  ofStatus (downloadResult env t).

(** *** [buildPrompt] *)

Definition PAGE_SIZE : Z := 100.
Definition HISTORY_CAP : Z := 1000.

(** [if (lastId) opts.before = lastId] *)
Definition cursor (lastId : option jsstring) : option jsstring :=
  match lastId with
  | Some (c :: s) => Some (c :: s)
  | _ => None
  end.

(** The [while (history.length < 1000)] loop, with [fuel] iterations
    allowed. *)
Fixpoint fetchAll (fuel : nat) (message : Message) (history : list Message)
    (lastId : option jsstring) : M (list Message) :=
  if Z.of_nat (length history) <? HISTORY_CAP then
    match fuel with
    | O => diverge
    | S fuel' =>
        batch ← fetch message {| limit := PAGE_SIZE; before := cursor lastId |} ;
        let history := history ++ batch in
        if Z.of_nat (length batch) <? PAGE_SIZE then ret history
        else fetchAll fuel' message history (messageId <$> last batch)
    end
  else ret history.

(** [history.sort((a, b) => a.createdTimestamp - b.createdTimestamp)]:
    a stable sort. *)
Fixpoint insertByTime (m : Message) (sorted : list Message) : list Message :=
  match sorted with
  | [] => [m]
  | x :: sorted' =>
      if createdTimestamp m <? createdTimestamp x then m :: sorted
      else x :: insertByTime m sorted'
  end.

Definition sortByTime (history : list Message) : list Message :=
  foldl (λ sorted m, insertByTime m sorted) [] history.

Definition render (m : Message) : jsstring :=
  authorUsername m ++ lit ": " ++ content m.

(** The prompt built from the fetched [history]. *)
Definition formatPrompt (message : Message) (history : list Message) : jsstring :=
  let context :=
    join [LF]
      (render <$> sortByTime
         (filter (λ m, messageId m ≠ messageId message) history)) in
  match context with
  | [] => content message
  | _ => context ++ [LF] ++ render message
  end.

(** [buildPrompt].  The paging loop gets ten iterations: they always cover
    the distance to the cap ([fetchAll_paging] below), and more would not
    change the result. *)
Definition buildPrompt (message : Message) : M jsstring :=
  let count := CONTEXT_MESSAGE_COUNT config in
  if count =? 1 then ret (content message)
  else
    history ←
      (if count =? 0 then fetchAll 10 message [] None
       else fetch message {| limit := count; before := None |}) ;
    ret (formatPrompt message history).

(** *** [downloadAttachments] *)

(** [attachment.contentType?.startsWith('image/')] *)
Definition isImage (attachment : Attachment) : bool :=
  match contentType attachment with
  | Some ct => startsWith ct (lit "image/")
  | None => false
  end.

Definition maxBytes : Z := MAX_IMAGE_SIZE_MB config * 1024 * 1024.

Definition tooLarge (attachment : Attachment) : bool :=
  maxBytes <? attSize attachment.

Definition tooLargeNotice (attachment : Attachment) : jsstring :=
  [QUOTE] ++ attName attachment ++ [QUOTE] ++ lit " is too large (max "
    ++ numberToString (MAX_IMAGE_SIZE_MB config) ++ lit " MB).".

Definition tmpPath (time : Z) (attachment : Attachment) : jsstring :=
  pathJoin (tmpdir env)
    (lit "cobot_" ++ numberToString time ++ lit "_" ++ attName attachment).

(** The body of the [for] loop over [message.attachments]. *)
Fixpoint downloadEach (message : Message) (pending : list Attachment)
    (results : list FileAttachment) : M (list FileAttachment) :=
  match pending with
  | [] => ret results
  | attachment :: pending' =>
      if negb (isImage attachment) then downloadEach message pending' results
      else if tooLarge attachment then
        swallow (reply TooLargeNotice message (tooLargeNotice attachment)) ;;
        downloadEach message pending' results
      else
        results' ←
          tryCatch
            (time ← dateNow ;
             let dest := tmpPath time attachment in
             downloadFile (attUrl attachment) dest ;;
             ret (results ++ [{| path := dest; displayName := attName attachment |}]))
            (λ _, ret results) ;
        downloadEach message pending' results'
  end.

Definition downloadAttachments (message : Message) : M (list FileAttachment) :=
  if negb (IMAGE_SUPPORT config) || (length (attachments message) =? 0)%nat
  then ret []
  else downloadEach message (attachments message) [].

(** *** [sendReply] and [processMessage] *)

Fixpoint replyEach (message : Message) (chunks : list jsstring) : M unit :=
  match chunks with
  | [] => ret tt
  | chunk :: chunks' => reply Chunk message chunk ;; replyEach message chunks'
  end.

Definition sendReply (message : Message) (text : jsstring) : M unit :=
  match Chunker.splitMessageFuel (length text) text with
  | Some chunks => replyEach message chunks
  | None => diverge
  end.

Definition EMPTY_RESPONSE : jsstring :=
  lit "Copilot returned an empty response.".

Definition WENT_WRONG : jsstring :=
  lit "Something went wrong communicating with Copilot. Please try again.".

(** [processMessage].  The typing timer is not modelled.  Both arguments
    of [Promise.all] are started before the [await], so each runs to its
    end whatever the other does; the order in which their calls reach the
    log is fixed here to the order in which they are started. *)
Definition processMessage (message : Message) : M unit :=
  sendTyping message ;;
  tryCatch
    (p ← settled (buildPrompt message) ;
     a ← settled (downloadAttachments message) ;
     pa ← all2 p a ;
     response ← copilotSend pa.1 pa.2 ;
     match trim <$> response with
     | Some (c :: text) => sendReply message (c :: text)
     | _ => swallow (reply EmptyNotice message EMPTY_RESPONSE)
     end)
    (λ _, swallow (reply ErrorNotice message WENT_WRONG)).

End Pipeline.
End Pipeline.

(** ** Reading the log *)

Module Log.

(** The events that a run from [w] to [w'] has added. *)
Definition newEvents (w w' : World) : list Event :=
  drop (length (events w)) (events w').

(** The messages that were sent the apology of [processMessage]. *)
Definition errorReplies (log : list Event) : list jsstring :=
  omap (λ ev, match ev with
              | EvReply ErrorNotice to _ => Some to
              | _ => None
              end) log.

(** The texts of the notices about attachments that are too large. *)
Definition tooLargeTexts (log : list Event) : list jsstring :=
  omap (λ ev, match ev with
              | EvReply TooLargeNotice _ text => Some text
              | _ => None
              end) log.

Definition downloadUrls (log : list Event) : list jsstring :=
  omap (λ ev, match ev with EvDownload url _ => Some url | _ => None end) log.

Definition downloadDests (log : list Event) : list jsstring :=
  omap (λ ev, match ev with EvDownload _ dest => Some dest | _ => None end) log.

(** The calls of [copilot.send]. *)
Definition completions (log : list Event) : list (jsstring * list FileAttachment) :=
  omap (λ ev, match ev with EvSend prompt sent => Some (prompt, sent) | _ => None end) log.

(** The image attachments above the ceiling, and those within it. *)
Definition oversized (config : Config) (pending : list Attachment) : list Attachment :=
  filter (λ a, Pipeline.isImage a && Pipeline.tooLarge config a = true) pending.

Definition admitted (config : Config) (pending : list Attachment) : list Attachment :=
  filter (λ a, Pipeline.isImage a && negb (Pipeline.tooLarge config a) = true) pending.

(** The three stages of [processMessage] by the calls they log: the
    history fetches of [buildPrompt], the notices and downloads of
    [downloadAttachments], and the replies that carry the answer. *)
Definition isFetch (ev : Event) : Prop :=
  match ev with EvFetch _ _ => True | _ => False end.

Definition isAttachmentStage (ev : Event) : Prop :=
  match ev with
  | EvReply TooLargeNotice _ _ | EvDownload _ _ => True
  | _ => False
  end.

Definition isAnswer (ev : Event) : Prop :=
  match ev with EvReply Chunk _ _ => True | _ => False end.

(** The apology that the [catch] block of [processMessage] sends. *)
Definition apology (message : Message) : Event :=
  EvReply ErrorNotice (messageId message) Pipeline.WENT_WRONG.

(** The notice that [processMessage] sends for an empty response. *)
Definition emptyNotice (message : Message) : Event :=
  EvReply EmptyNotice (messageId message) Pipeline.EMPTY_RESPONSE.

(** The messages that were told of a failure: by the apology or by the
    notice of an empty response. *)
Definition failureNotices (log : list Event) : list jsstring :=
  omap (λ ev, match ev with
              | EvReply ErrorNotice to _ | EvReply EmptyNotice to _ => Some to
              | _ => None
              end) log.

(** The last stage of [processMessage] in the log.  Without a prompt there
    is the apology alone.  With one there is the call of the completion
    service, then the chunks of the answer that were sent, and then nothing
    more (all chunks were sent), or the apology (the service or a reply
    failed), or, instead of chunks, the notice of an empty response. *)
Definition lastStage (message : Message) (outb : Outcome jsstring)
    (results : list FileAttachment) (tail : list Event) : Prop :=
  match outb with
  | Ok prompt =>
      exists chunks notices,
        tail = EvSend prompt results
                 :: (EvReply Chunk (messageId message) <$> chunks) ++ notices /\
        (notices = [] \/ notices = [apology message] \/
         (chunks = [] /\ notices = [emptyNotice message]))
  | _ => tail = [apology message]
  end.

(** A run from [w] to [w'] has added [delta] to the log and has created
    the files that [delta] downloads to, and nothing else. *)
Definition logged (w : World) (delta : list Event) (w' : World) : Prop :=
  events w' = events w ++ delta /\
  files w' = files w ∪ list_to_set (downloadDests delta).

End Log.

(** ** Unlimited context as the specification words it

    History is fetched in pages of 100, each page before the oldest message
    of the page before it, until 1000 messages have been collected or a page
    returns fewer than 100.  [SpecPaging env channel t history lastId
    requests out] holds when, with [history] collected so far, the requests
    from the [t]-th logged call on are [requests] and the fetching ends with
    [out]. *)

Inductive SpecPaging (env : Env) (channel : jsstring)
  : nat -> list Message -> option jsstring -> list FetchOpts
    -> Outcome (list Message) -> Prop :=
| paging_cap t history lastId :
    1000 <= Z.of_nat (length history) ->
    SpecPaging env channel t history lastId [] (Ok history)
| paging_error t history lastId e :
    Z.of_nat (length history) < 1000 ->
    fetchResult env t channel {| limit := 100; before := Pipeline.cursor lastId |}
      = inl e ->
    SpecPaging env channel t history lastId
      [{| limit := 100; before := Pipeline.cursor lastId |}] (Throw e)
| paging_short t history lastId page :
    Z.of_nat (length history) < 1000 ->
    fetchResult env t channel {| limit := 100; before := Pipeline.cursor lastId |}
      = inr page ->
    Z.of_nat (length page) < 100 ->
    SpecPaging env channel t history lastId
      [{| limit := 100; before := Pipeline.cursor lastId |}] (Ok (history ++ page))
| paging_more t history lastId page requests out :
    Z.of_nat (length history) < 1000 ->
    fetchResult env t channel {| limit := 100; before := Pipeline.cursor lastId |}
      = inr page ->
    100 <= Z.of_nat (length page) ->
    SpecPaging env channel (S t) (history ++ page) (messageId <$> last page)
      requests out ->
    SpecPaging env channel t history lastId
      ({| limit := 100; before := Pipeline.cursor lastId |} :: requests) out.


(** ** The channel queues of [DiscordBot] *)

Module Dispatcher.

(** How the promise returned by [processMessage] settles. *)
Inductive Settlement := Fulfilled | Rejected (e : Error).

(** A call of [processQueue] suspended at
    [await this.processMessage(message)]. *)
Record Task := {
  taskChannel : jsstring;
  taskMessage : Message
}.

(** [Begin m]: [processMessage(m)] is called; [End m]: its promise has
    settled and the drain task goes on. *)
Inductive Mark := Begin (m : Message) | End (m : Message).

Definition markMessage (mark : Mark) : Message :=
  match mark with Begin m => m | End m => m end.

(** [channelQueues] and [processingChannels] are the fields of the class;
    [awaiting], [trace] and [errorLog] record the suspended drain tasks,
    the calls and settlements of [processMessage], and the lines that the
    handler of [processQueue] logs. *)
Record Bot := {
  channelQueues : gmap jsstring (list Message);
  processingChannels : gset jsstring;
  awaiting : list Task;
  trace : list Mark;
  errorLog : list jsstring
}.

Inductive Input :=
| Arrive (message : Message)
| Settle (i : nat) (s : Settlement).

Definition initial : Bot :=
  {| channelQueues := ∅; processingChannels := ∅;
     awaiting := []; trace := []; errorLog := [] |}.

Section Dispatcher.

Context (config : Config).

(** The early returns of [onMessage], in order. *)
Definition ignored (message : Message) : bool :=
  bool_decide (guildId message ≠ Some (DISCORD_GUILD_ID config))
  || match DISCORD_CHANNEL_ID config with
     | Some (c :: s) => bool_decide (channelId message ≠ c :: s)
     | _ => false
     end
  || bool_decide (channelId message ∈ BLACKLISTED_CHANNELS config)
  || negb (REPLY_TO_BOT config) && authorBot message
  || bool_decide (content message = [])
     && (length (attachments message) =? 0)%nat.

(** The drain task from the test of its [while] loop to its next
    [await], or to its end.  [queue] in the source is the array stored
    under [channelId], which is never replaced, so reading the map again
    gives the same array. *)
Definition drain (channel : jsstring) (bot : Bot) : Bot :=
  match channelQueues bot !! channel with
  | Some (message :: queue) =>
      {| channelQueues := <[channel := queue]> (channelQueues bot);
         processingChannels := processingChannels bot;
         awaiting := awaiting bot
           ++ [{| taskChannel := channel; taskMessage := message |}];
         trace := trace bot ++ [Begin message];
         errorLog := errorLog bot |}
  | _ =>
      {| channelQueues := channelQueues bot;
         processingChannels := processingChannels bot ∖ {[channel]};
         awaiting := awaiting bot;
         trace := trace bot;
         errorLog := errorLog bot |}
  end.

Definition processQueue (channel : jsstring) (bot : Bot) : Bot :=
  if bool_decide (channel ∈ processingChannels bot) then bot
  else
    drain channel
      {| channelQueues := channelQueues bot;
         processingChannels := {[channel]} ∪ processingChannels bot;
         awaiting := awaiting bot;
         trace := trace bot;
         errorLog := errorLog bot |}.

Definition onMessage (message : Message) (bot : Bot) : Bot :=
  if ignored message then bot
  else
    let channel := channelId message in
    let queue := default [] (channelQueues bot !! channel) in
    processQueue channel
      {| channelQueues := <[channel := queue ++ [message]]> (channelQueues bot);
         processingChannels := processingChannels bot;
         awaiting := awaiting bot;
         trace := trace bot;
         errorLog := errorLog bot |}.

(** The [i]-th suspended drain task resumes: a rejection is logged by
    the handler passed to [catch], and the loop goes on. *)
Definition resume (i : nat) (s : Settlement) (bot : Bot) : Bot :=
  match awaiting bot !! i with
  | None => bot
  | Some task =>
      drain (taskChannel task)
        {| channelQueues := channelQueues bot;
           processingChannels := processingChannels bot;
           awaiting := delete i (awaiting bot);
           trace := trace bot ++ [End (taskMessage task)];
           errorLog :=
             match s with
             | Fulfilled => errorLog bot
             | Rejected (JsError message) =>
                 errorLog bot ++ [lit "Unhandled queue error: " ++ message]
             end |}
  end.

Definition step (bot : Bot) (input : Input) : Bot :=
  match input with
  | Arrive message => onMessage message bot
  | Settle i s => resume i s bot
  end.

Definition run (inputs : list Input) : Bot := foldl step initial inputs.

(** The messages that [onMessage] has put into the queue of [channel],
    in the order of their arrival. *)
Definition arrivals (channel : jsstring) (inputs : list Input) : list Message :=
  inputs ≫= λ input,
    match input with
    | Arrive message =>
        if negb (ignored message) && bool_decide (channelId message = channel)
        then [message] else []
    | Settle _ _ => []
    end.

End Dispatcher.

(** Processing one message after the other. *)
Definition schedule (messages : list Message) : list Mark :=
  messages ≫= λ m, [Begin m; End m].

(** The marks of the messages of one channel. *)
Definition marksOf (channel : jsstring) (marks : list Mark) : list Mark :=
  filter (λ mark, channelId (markMessage mark) = channel) marks.

(** The suspended drain tasks of one channel. *)
Definition tasksOf (channel : jsstring) (tasks : list Task) : list Task :=
  filter (λ task, taskChannel task = channel) tasks.

Definition queueOf (channel : jsstring) (bot : Bot) : list Message :=
  default [] (channelQueues bot !! channel).

(** What holds of one channel after any run: at most one drain task, which
    exists exactly when the channel is marked as processing; nothing queued
    without a drain task; and the messages that arrived are, in order, those
    processed, the one in flight and those queued. *)
Definition channelInv (arrived : list Message) (bot : Bot) (channel : jsstring)
    : Prop :=
  (length (tasksOf channel (awaiting bot)) <= 1)%nat /\
  (channel ∈ processingChannels bot <-> tasksOf channel (awaiting bot) ≠ []) /\
  (channel ∉ processingChannels bot -> queueOf channel bot = []) /\
  Forall (λ m, channelId m = channel) (queueOf channel bot) /\
  Forall (λ task, channelId (taskMessage task) = taskChannel task) (awaiting bot) /\
  schedule arrived
  = marksOf channel (trace bot)
    ++ (End <$> (taskMessage <$> tasksOf channel (awaiting bot)))
    ++ schedule (queueOf channel bot).


End Dispatcher.

(** ** [CopilotManager] *)

Module Copilot.

Record Model := {
  modelId : jsstring;
  label : jsstring;
  description : jsstring
}.

Definition MODELS : list Model :=
  [ {| modelId := lit "gpt-5-mini"; label := lit "ChatGPT 5 mini";
       description := lit "Latest mini model (gpt-5-mini)" |};
    {| modelId := lit "gpt-4.1"; label := lit "ChatGPT 4.1";
       description := lit "Fast and capable (gpt-4.1)" |};
    {| modelId := lit "gpt-4o"; label := lit "ChatGPT 4o";
       description := lit "Balanced general model (gpt-4o)" |} ].

Definition DEFAULT_MODEL : jsstring := lit "gpt-4.1".

(** [MODELS.find(m => m.id === modelId)] *)
Definition findModel (id : jsstring) : option Model :=
  snd <$> list_find (λ m, modelId m = id) MODELS.

(** [new Error(`Unknown model "${modelId}"`)] *)
Definition unknownModel (id : jsstring) : Error :=
  JsError (lit "Unknown model " ++ [QUOTE] ++ id ++ [QUOTE]).

(** The manager that posts to the chat completions endpoint. *)
Module Http.

Record Manager := {
  token : option jsstring;
  model : jsstring
}.

(** An image handed to [send]: its content type and the base64
    rendering of its bytes. *)
Record Image := {
  imageType : jsstring;
  imageBase64 : jsstring
}.

(** The body of the request: [{ model, messages: [{ role: 'user',
    content }] }] with the text and the data URLs of [content]. *)
Record Request := {
  requestModel : jsstring;
  requestText : jsstring;
  requestImages : list jsstring
}.

(** The response of the endpoint: [res.ok], [res.status], the body as
    text, and [choices[0].message.content] of the body as JSON. *)
Record Response := {
  ok : bool;
  status : Z;
  bodyText : jsstring;
  choice : option jsstring
}.

Definition construct (token : option jsstring) : Manager :=
  {| token := token; model := DEFAULT_MODEL |}.

Definition setModel (id : jsstring) (manager : Manager)
    : Outcome unit * Manager :=
  match findModel id with
  | None => (Throw (unknownModel id), manager)
  | Some _ => (Ok tt, {| token := token manager; model := id |})
  end.

Definition dataUrl (image : Image) : jsstring :=
  lit "data:" ++ imageType image ++ lit ";base64," ++ imageBase64 image.

Section Http.

(** [fetch(COPILOT_API, ...)] *)
Context (post : Request -> Error + Response).

(** The body that [_call] posts. *)
Definition request (text : jsstring) (images : list jsstring)
    (manager : Manager) : Request :=
  {| requestModel := model manager; requestText := text;
     requestImages := images |}.

Definition call (text : jsstring) (images : list jsstring)
    (manager : Manager) : Outcome jsstring :=
  match post (request text images manager) with
  | inl e => Throw e
  | inr res =>
      if ok res then Ok (default [] (choice res))
      else Throw (JsError (lit "Copilot API " ++ numberToString (status res)
                             ++ lit ": " ++ bodyText res))
  end.

Definition send (prompt : jsstring) (images : list Image)
    (manager : Manager) : Outcome (option jsstring) :=
  match call prompt (dataUrl <$> images) manager with
  | Ok result => Ok (Some result)
  | Throw e => Throw e
  | OutOfFuel => OutOfFuel
  end.

End Http.

End Http.

(** The manager that keeps a session of the Copilot SDK. *)
Module Sdk.

(** A session remembers the model it was created for. *)
Record Session := { sessionModel : jsstring }.

(** [client] is [null] until [start] has run. *)
Record Manager := {
  token : option jsstring;
  started : bool;
  session : option Session;
  model : jsstring
}.

Definition construct (token : option jsstring) : Manager :=
  {| token := token; started := false; session := None;
     model := DEFAULT_MODEL |}.

Definition NO_CLIENT : Error :=
  JsError (lit "Cannot read properties of null").

Section Sdk.

(** [client.createSession({ model })] and [session.sendAndWait(opts)]
    of the SDK. *)
Context (createSession : jsstring -> option Error)
        (sendAndWait : Session -> jsstring -> list FileAttachment
                       -> Error + option jsstring).

(** [_createSession]: a failure of [session.destroy()] is ignored. *)
Definition createSession_ (manager : Manager) : Outcome unit * Manager :=
  if started manager then
    match createSession (model manager) with
    | Some e => (Throw e, manager)
    | None =>
        (Ok tt, {| token := token manager; started := true;
                   session := Some {| sessionModel := model manager |};
                   model := model manager |})
    end
  else (Throw NO_CLIENT, manager).

Definition start (manager : Manager) : Outcome unit * Manager :=
  createSession_ {| token := token manager; started := true;
                    session := session manager; model := model manager |}.

Definition setModel (id : jsstring) (manager : Manager)
    : Outcome unit * Manager :=
  match findModel id with
  | None => (Throw (unknownModel id), manager)
  | Some _ =>
      createSession_ {| token := token manager; started := started manager;
                        session := session manager; model := id |}
  end.

(** [session.sendAndWait(opts)] on a given session. *)
Definition sendOn (s : Session) (prompt : jsstring)
    (sent : list FileAttachment) : Outcome (option jsstring) :=
  match sendAndWait s prompt sent with
  | inl e => Throw e
  | inr response => Ok response
  end.

Definition send (prompt : jsstring) (sent : list FileAttachment)
    (manager : Manager) : Outcome (option jsstring) :=
  match session manager with
  | None => Throw NO_CLIENT
  | Some s => sendOn s prompt sent
  end.

End Sdk.

End Sdk.

End Copilot.

(** Older first: the order of the context lines of a prompt. *)
Definition byTime (a b : Message) : Prop :=
  createdTimestamp a <= createdTimestamp b.

(** A string starts with a unit that is not whitespace, if it starts at
    all. *)
Definition startsClean (s : jsstring) : Prop :=
  forall c, head s = Some c -> isWhiteSpace c = false.

(** ** What the author of a message receives *)

Module Observed.

(** The texts of the replies that carry the answer, in the order in which
    they were sent. *)
Definition answers (log : list Event) : list jsstring :=
  omap (λ ev, match ev with
              | EvReply Chunk _ text => Some text
              | _ => None
              end) log.

(** The last stage of [processMessage] after the attachment stage, by the
    prompt and the answer of the completion service.  [delivered] says that
    the replies with the chunks were all accepted by Discord. *)
Inductive Ending (env : Env) (message : Message) (results : list FileAttachment)
  : Outcome jsstring -> nat -> list Event -> Prop :=
| ending_no_prompt outb t :
    (forall prompt, outb ≠ Ok prompt) ->
    Ending env message results outb t [Log.apology message]
| ending_service_failed prompt t e :
    sendResult env t prompt results = inl e ->
    Ending env message results (Ok prompt) t
      [EvSend prompt results; Log.apology message]
| ending_empty prompt t response :
    sendResult env t prompt results = inr response ->
    trim <$> response = None \/ trim <$> response = Some [] ->
    Ending env message results (Ok prompt) t
      [EvSend prompt results; Log.emptyNotice message]
| ending_answered prompt t answer :
    sendResult env t prompt results = inr (Some answer) ->
    trim answer ≠ [] ->
    Ending env message results (Ok prompt) t
      (EvSend prompt results
       :: (EvReply Chunk (messageId message) <$> Chunker.splitMessage (trim answer)))
| ending_reply_failed prompt t answer attempted t' e :
    sendResult env t prompt results = inr (Some answer) ->
    trim answer ≠ [] ->
    attempted `prefix_of` Chunker.splitMessage (trim answer) ->
    attempted ≠ [] ->
    replyResult env t' = Some e ->
    Ending env message results (Ok prompt) t
      (EvSend prompt results
       :: (EvReply Chunk (messageId message) <$> attempted)
          ++ [Log.apology message]).

End Observed.

(** The separator of the parts of a temporary file's name. *)
Definition UNDERSCORE : N := 95%N.

(** ** Configuration: [loadConfig] of [src/index.js] *)

Module Index.

(** [process.env]: the variables that are set, with their values. *)
Abbreviation ProcessEnv := (gmap string jsstring).

(** [process.env[key]] where the code tests it for truth: the value when
    the variable is set and not empty. *)
Definition getenv (penv : ProcessEnv) (key : string) : option jsstring :=
  match penv !! key with
  | Some (c :: s) => Some (c :: s)
  | _ => None
  end.

(** How [loadConfig] ends: [process.exit(code)] after the error lines that
    were logged, or the value returned. *)
Inductive Startup (A : Type) :=
| Exit (code : Z) (errors : list jsstring)
| Started (a : A).

Arguments Exit {A} code errors.
Arguments Started {A} a.

Definition REQUIRED : list string := ["DISCORD_TOKEN"; "DISCORD_GUILD_ID"]%string.

(** [required.filter(k => !process.env[k])] *)
Definition missing (penv : ProcessEnv) : list string :=
  filter (λ k, getenv penv k = None) REQUIRED.

Definition missingLine (k : string) : jsstring :=
  lit "Missing required variable: " ++ lit k.

Definition MINUS : N := 45%N.
Definition PLUS : N := 43%N.
Definition COMMA : N := 44%N.

Definition isDigit (c : N) : bool := ((48 <=? c) && (c <=? 57))%N.

(** The longest prefix of decimal digits. *)
Fixpoint leadingDigits (s : jsstring) : jsstring :=
  match s with
  | [] => []
  | c :: s' => if isDigit c then c :: leadingDigits s' else []
  end.

(** The value of a run of digits that continues the value [acc]. *)
Definition readDigits (acc : Z) (digits : jsstring) : Z :=
  foldl (λ acc c, 10 * acc + (Z.of_N c - 48)) acc digits.

Definition digitsValue (digits : jsstring) : Z := readDigits 0 digits.

(** [parseInt(s, 10)]: leading whitespace is skipped, one sign is read, and
    the digits that follow are the value; [None] is [NaN].  The value is
    given as the integer that the digits denote.  JavaScript returns the
    Number nearest to it, which is the same integer below [2^53]. *)
Definition parseInt (s : jsstring) : option Z :=
  let s := trimStart s in
  let '(sign, s) :=
    match s with
    | c :: s' =>
        if (c =? MINUS)%N then (-1, s')
        else if (c =? PLUS)%N then (1, s')
        else (1, s)
    | [] => (1, [])
    end in
  match leadingDigits s with
  | [] => None
  | digits => Some (sign * digitsValue digits)
  end.

(** The helper [int(key, fallback)] of [loadConfig]. *)
Definition int (penv : ProcessEnv) (key : string) (fallback : Z) : Z :=
  default fallback
    (parseInt (default (numberToString fallback) (getenv penv key))).

(** [s.split(sep)] for a separator of one unit. *)
Fixpoint splitFrom (sep : N) (cur s : jsstring) : list jsstring :=
  match s with
  | [] => [cur]
  | c :: s' =>
      if (c =? sep)%N then cur :: splitFrom sep [] s'
      else splitFrom sep (cur ++ [c]) s'
  end.

Definition split (s : jsstring) (sep : N) : list jsstring := splitFrom sep [] s.

(** [(process.env.BLACKLISTED_CHANNEL_IDS || '').split(',')
      .map(s => s.trim()).filter(Boolean)] *)
Definition blacklist (penv : ProcessEnv) : list jsstring :=
  filter (λ id, id ≠ [])
    (trim <$> split (default [] (getenv penv "BLACKLISTED_CHANNEL_IDS")) COMMA).

(** [loadConfig]: the Discord token and the configuration of the bot. *)
Definition loadConfig (penv : ProcessEnv) : Startup (jsstring * Config) :=
  match missing penv with
  | _ :: _ => Exit 1 (missingLine <$> missing penv)
  | [] =>
      Started
        (default [] (penv !! "DISCORD_TOKEN"%string),
         {| DISCORD_GUILD_ID := default [] (penv !! "DISCORD_GUILD_ID"%string);
            DISCORD_CHANNEL_ID := getenv penv "DISCORD_CHANNEL_ID";
            BLACKLISTED_CHANNELS := blacklist penv;
            REPLY_TO_BOT :=
              bool_decide (penv !! "REPLY_TO_BOT"%string = Some (lit "true"));
            CONTEXT_MESSAGE_COUNT := int penv "CONTEXT_MESSAGE_COUNT" 5;
            IMAGE_SUPPORT :=
              negb (bool_decide (penv !! "IMAGE_SUPPORT"%string = Some (lit "false")));
            MAX_IMAGE_SIZE_MB := int penv "MAX_IMAGE_SIZE_MB" 5 |})
  end.

End Index.

(** ** The slash command: [buildModelCommand] and [onInteraction] *)

(** [err.message] *)
Definition messageOf (e : Error) : jsstring :=
  match e with JsError message => message end.

Module Commands.

Import Copilot.

(** The JSON of the command, as far as [buildModelCommand] sets it. *)
Record Choice := {
  choiceName : jsstring;
  choiceValue : jsstring
}.

Record StringOption := {
  optionName : jsstring;
  optionDescription : jsstring;
  optionRequired : bool;
  optionChoices : list Choice
}.

Record Command := {
  commandName : jsstring;
  commandDescription : jsstring;
  commandOptions : list StringOption
}.

(** [{ name: `${m.label} (${m.id})`, value: m.id }] *)
Definition choiceOf (m : Model) : Choice :=
  {| choiceName := label m ++ lit " (" ++ modelId m ++ lit ")";
     choiceValue := modelId m |}.

Definition buildModelCommand : Command :=
  {| commandName := lit "model";
     commandDescription := lit "View or change the AI model Co-Bot uses";
     commandOptions :=
       [ {| optionName := lit "model";
            optionDescription := lit "Model to switch to";
            optionRequired := true;
            optionChoices := choiceOf <$> MODELS |} ] |}.

(** An interaction: [isChatInputCommand()], [commandName], and the value
    of its required string option [model]. *)
Record Interaction := {
  isChatInputCommand : bool;
  interactionCommand : jsstring;
  modelOption : jsstring
}.

(** The calls on the interaction, in order. *)
Inductive Call :=
| DeferReply
| EditReply (text : jsstring).

(** What Discord does with them: [deferReply()] is refused or not, and so
    is the [n]-th call of [editReply]. *)
Record Gateway := {
  deferResult : option Error;
  editResult : nat -> option Error
}.

Definition BACKQUOTE : N := 96%N.

(** [`Model switched to **${model.label}** (\`${model.id}\`)\n>
    ${model.description}`] *)
Definition switched (m : Model) : jsstring :=
  lit "Model switched to **" ++ label m ++ lit "** (" ++ [BACKQUOTE]
    ++ modelId m ++ [BACKQUOTE] ++ lit ")" ++ [LF] ++ lit "> " ++ description m.

(** [`Failed to switch model: ${err.message}`] *)
Definition switchFailed (e : Error) : jsstring :=
  lit "Failed to switch model: " ++ messageOf e.

(** Reading [model.label] when [MODELS.find] found nothing. *)
Definition NO_MODEL : Error :=
  JsError (lit "Cannot read properties of undefined (reading 'label')").

Definition statusOf (r : option Error) : Outcome unit :=
  match r with Some e => Throw e | None => Ok tt end.

Section Commands.

(** The manager behind [this.copilot], by its [setModel]. *)
Context {T : Type} (setModel : jsstring -> T -> Outcome unit * T).
Context (gateway : Gateway).

(** The [try] block of [onInteraction]: the outcome, the manager and the
    calls of [editReply]. *)
Definition switchModel (id : jsstring) (manager : T)
    : Outcome unit * T * list Call :=
  match setModel id manager with
  | (Ok tt, manager') =>
      match findModel id with
      | Some m =>
          (statusOf (editResult gateway 0), manager', [EditReply (switched m)])
      | None => (Throw NO_MODEL, manager', [])
      end
  | (Throw e, manager') => (Throw e, manager', [])
  | (OutOfFuel, manager') => (OutOfFuel, manager', [])
  end.

(** [onInteraction]; the lines that it logs are left out. *)
Definition onInteraction (i : Interaction) (manager : T)
    : Outcome unit * T * list Call :=
  if negb (isChatInputCommand i) then (Ok tt, manager, [])
  else if bool_decide (interactionCommand i = lit "model") then
    match deferResult gateway with
    | Some e => (Throw e, manager, [DeferReply])
    | None =>
        match switchModel (modelOption i) manager with
        | (Throw e, manager', edits) =>
            (statusOf (editResult gateway (length edits)), manager',
             DeferReply :: edits ++ [EditReply (switchFailed e)])
        | (out, manager', edits) => (out, manager', DeferReply :: edits)
        end
    end
  else (Ok tt, manager, []).

End Commands.

End Commands.

(** An identifier of the catalog. *)
Definition catalogued (id : jsstring) : Prop :=
  id ∈ Copilot.modelId <$> Copilot.MODELS.

(** ** The HTTP manager behind the bot *)

Module Backend.

Import Copilot.

(** Reading [a.data.toString] of an attachment that has no [data]. *)
Definition NO_DATA : Error :=
  JsError (lit "Cannot read properties of undefined (reading 'toString')").

(** [send(prompt, attachments)] of the HTTP manager on the attachments
    that [downloadAttachments] returns, which are
    [{ type: 'file', path, displayName }] and have no [data]: with no
    attachment the prompt is posted as it is, and otherwise building the
    first data URL fails. *)
Definition sendFiles (post : Http.Request -> Error + Http.Response)
    (prompt : jsstring) (sent : list FileAttachment) (manager : Http.Manager)
    : Outcome (option jsstring) :=
  match sent with
  | [] => Http.send post prompt [] manager
  | _ :: _ => Throw NO_DATA
  end.

(** The completion service of [env] is the HTTP manager [manager] over
    [post]. *)
Definition served (env : Env) (post : Http.Request -> Error + Http.Response)
    (manager : Http.Manager) : Prop :=
  forall t prompt sent,
    match sendFiles post prompt sent manager with
    | Ok response => sendResult env t prompt sent = inr response
    | Throw e => sendResult env t prompt sent = inl e
    | OutOfFuel => False
    end.

End Backend.

(** ** The login box of [deviceLogin] in [src/auth.js] *)

Module Auth.

(** The box-drawing characters, one code unit each. *)
Definition HBAR : N := 9472%N.
Definition VBAR : N := 9474%N.
Definition TOP_LEFT : N := 9484%N.
Definition TOP_RIGHT : N := 9488%N.
Definition BOTTOM_LEFT : N := 9492%N.
Definition BOTTOM_RIGHT : N := 9496%N.
Definition TEE_LEFT : N := 9500%N.
Definition TEE_RIGHT : N := 9508%N.

(** The [RangeError] of [String.prototype.repeat]. *)
Definition INVALID_COUNT (count : Z) : Error :=
  JsError (lit "Invalid count value: " ++ numberToString count).

(** [s.repeat(count)] for an integer [count]. *)
Definition repeat (s : jsstring) (count : Z) : Error + jsstring :=
  if count <? 0 then inl (INVALID_COUNT count)
  else inr (concat (replicate (Z.to_nat count) s)).

(** [Math.max(verification_uri.length, user_code.length) + 18] *)
Definition inner (uri code : jsstring) : Z := Z.max (len uri) (len code) + 18.

(** The helper [center]: [Math.floor(pad / 2)] spaces before the text and
    [Math.ceil(pad / 2)] after it. *)
Definition center (INNER : Z) (text : jsstring) : Error + jsstring :=
  let pad := INNER - len text in
  match repeat [SP] (pad / 2) with
  | inl e => inl e
  | inr before =>
      match repeat [SP] ((pad + 1) / 2) with
      | inl e => inl e
      | inr after => inr ([VBAR] ++ before ++ text ++ after ++ [VBAR])
      end
  end.

(** The helper [left]. *)
Definition left (INNER : Z) (prefix value : jsstring) : Error + jsstring :=
  let text := prefix ++ value in
  match repeat [SP] (INNER - len text - 2) with
  | inl e => inl e
  | inr pad => inr ([VBAR; SP] ++ text ++ pad ++ [SP; VBAR])
  end.

(** [console.log] of each line in turn: what was printed, and the error
    that ended the printing, if one did. *)
Fixpoint logEach (lines : list (Error + jsstring)) : list jsstring * option Error :=
  match lines with
  | [] => ([], None)
  | inl e :: _ => ([], Some e)
  | inr line :: lines' =>
      let '(printed, e) := logEach lines' in (line :: printed, e)
  end.

Definition TITLE : jsstring := lit "GitHub Authentication Required".

(** The six calls of [console.log] that print the instructions, for the
    [verification_uri] and the [user_code] that GitHub returned. *)
Definition box (uri code : jsstring) : list jsstring * option Error :=
  let INNER := inner uri code in
  match repeat [HBAR] INNER with
  | inl e => ([], Some e)
  | inr dashes =>
      logEach
        [ inr ([LF] ++ [TOP_LEFT] ++ dashes ++ [TOP_RIGHT]);
          center INNER TITLE;
          inr ([TEE_LEFT] ++ dashes ++ [TEE_RIGHT]);
          left INNER (lit "Visit:      ") uri;
          left INNER (lit "Enter code: ") code;
          inr ([BOTTOM_LEFT] ++ dashes ++ [BOTTOM_RIGHT] ++ [LF]) ]
  end.

End Auth.

(** ** Shutdown: the handlers of [main] in [src/index.js] *)

Module Main.

(** What reaches the process: a signal, or an exception that nothing
    caught, with its [code]. *)
Inductive Trigger :=
| Signal (name : jsstring)
| UncaughtException (code : option jsstring).

(** What the shutdown does, in order: [client.destroy()] in
    [DiscordBot.stop], [copilot.stop()], and
    [setTimeout(() => process.exit(code), delay)]. *)
Inductive Action :=
| DestroyClient
| StopCopilot
| ExitAfter (code delay : Z).

(** [shuttingDown] of [main], [shuttingDown] of the bot, and the calls
    made so far. *)
Record Process := {
  shuttingDown : bool;
  botShuttingDown : bool;
  actions : list Action
}.

(** After [main] has started the bot: its client exists. *)
Definition running : Process :=
  {| shuttingDown := false; botShuttingDown := false; actions := [] |}.

(** [DiscordBot.stop]; a failure of [client.destroy()] is ignored. *)
Definition stopBot (p : Process) : Process :=
  if botShuttingDown p then p
  else {| shuttingDown := shuttingDown p; botShuttingDown := true;
          actions := actions p ++ [DestroyClient] |}.

(** [shutdown(signal)].  Its awaited calls settle, and [copilot.stop()]
    ignores the failures of the SDK. *)
Definition shutdown (p : Process) : Process :=
  if shuttingDown p then p
  else
    let p := stopBot {| shuttingDown := true;
                        botShuttingDown := botShuttingDown p;
                        actions := actions p |} in
    {| shuttingDown := shuttingDown p; botShuttingDown := botShuttingDown p;
       actions := actions p ++ [StopCopilot; ExitAfter 0 300] |}.

(** The handlers of [SIGINT], [SIGTERM] and [uncaughtException]. *)
Definition handle (p : Process) (trigger : Trigger) : Process :=
  match trigger with
  | Signal _ => shutdown p
  | UncaughtException code =>
      if bool_decide (code = Some (lit "ERR_STREAM_DESTROYED")) then p
      else shutdown p
  end.

(** A trigger that the handlers act on. *)
Definition effective (trigger : Trigger) : bool :=
  match trigger with
  | Signal _ => true
  | UncaughtException code =>
      negb (bool_decide (code = Some (lit "ERR_STREAM_DESTROYED")))
  end.

End Main.

(** ** Concrete configurations, collaborators and messages *)

Module Examples.

Definition config : Config :=
  {| DISCORD_GUILD_ID := lit "guild";
     DISCORD_CHANNEL_ID := None;
     BLACKLISTED_CHANNELS := [];
     REPLY_TO_BOT := false;
     CONTEXT_MESSAGE_COUNT := 1;
     IMAGE_SUPPORT := true;
     MAX_IMAGE_SIZE_MB := 5 |}.


Definition cat : Attachment :=
  {| attName := lit "cat.png"; attUrl := lit "https://cdn.example/cat.png";
     contentType := Some (lit "image/png"); attSize := 120000 |}.

(** An image of 9 MB. *)
Definition poster : Attachment :=
  {| attName := lit "poster.png"; attUrl := lit "https://cdn.example/poster.png";
     contentType := Some (lit "image/png"); attSize := 9437184 |}.


Definition message (id : string) (channel : string) (text : string)
    (attached : list Attachment) : Message :=
  {| messageId := lit id; guildId := Some (lit "guild");
     channelId := lit channel; authorUsername := lit "ann";
     authorBot := false; content := lit text; attachments := attached;
     createdTimestamp := 1700000000000 |}.

Definition hello : Message := message "1" "general" "hello" [].
Definition again : Message := message "2" "general" "hello again" [].
Definition withCat : Message := message "3" "general" "look" [cat].
Definition withPoster : Message := message "5" "general" "look" [poster; cat].

(** Collaborators that always succeed: the channel has no history and the
    completion service answers "hi there". *)
Definition calm : Env :=
  {| fetchResult := λ _ _ _, inr [];
     replyResult := λ _, None;
     downloadResult := λ _, None;
     sendResult := λ _ _ _, inr (Some (lit "hi there"));
     now := λ t, 1700000000000 + Z.of_nat t;
     tmpdir := lit "/tmp" |}.


Definition fresh : World := {| events := []; files := ∅ |}.

End Examples.

(** ** More concrete data *)

Module Scenarios.

(** An environment file: the two required variables and a blacklist. *)
Definition dotenv : Index.ProcessEnv :=
  list_to_map
    [ ("DISCORD_TOKEN"%string, lit "token");
      ("DISCORD_GUILD_ID"%string, lit "guild");
      ("BLACKLISTED_CHANNEL_IDS"%string, lit "spam, bots ,,random") ].

(** Only the required variables. *)
Definition minimal : Index.ProcessEnv :=
  list_to_map
    [ ("DISCORD_TOKEN"%string, lit "token");
      ("DISCORD_GUILD_ID"%string, lit "guild") ].

(** A completion service that answers with blanks only. *)
Definition blank : Env :=
  {| fetchResult := λ _ _ _, inr [];
     replyResult := λ _, None;
     downloadResult := λ _, None;
     sendResult := λ _ _ _, inr (Some (lit "   "));
     now := λ t, 1700000000000 + Z.of_nat t;
     tmpdir := lit "/tmp" |}.

(** The collaborators of [Examples.calm] with the HTTP manager over
    [post] as completion service. *)
Definition overHttp (post : Copilot.Http.Request -> Error + Copilot.Http.Response)
    (manager : Copilot.Http.Manager) : Env :=
  {| fetchResult := λ _ _ _, inr [];
     replyResult := λ _, None;
     downloadResult := λ _, None;
     sendResult := λ _ prompt sent,
       match Backend.sendFiles post prompt sent manager with
       | Ok response => inr response
       | Throw e => inl e
       | OutOfFuel => inl (JsError [])
       end;
     now := λ t, 1700000000000 + Z.of_nat t;
     tmpdir := lit "/tmp" |}.

(** An endpoint that refuses every request: no quota. *)
Definition refusing : Copilot.Http.Request -> Error + Copilot.Http.Response :=
  λ _, inr {| Copilot.Http.ok := false; Copilot.Http.status := 402;
              Copilot.Http.bodyText := lit "quota exceeded";
              Copilot.Http.choice := None |}.

(** An endpoint that answers "hi there". *)
Definition answering : Copilot.Http.Request -> Error + Copilot.Http.Response :=
  λ _, inr {| Copilot.Http.ok := true; Copilot.Http.status := 200;
              Copilot.Http.bodyText := [];
              Copilot.Http.choice := Some (lit "hi there") |}.

End Scenarios.

(** * Theorems *)

(** ** Facts about the string primitives *)

Section StringFacts.

Implicit Types (s t : jsstring) (c : N).

Lemma len_nil : len [] = 0.
Proof. reflexivity. Qed.

Lemma len_app s t : len (s ++ t) = len s + len t.
Proof. unfold len. rewrite length_app. lia. Qed.

Lemma len_nonneg s : 0 <= len s.
Proof. unfold len. lia. Qed.

Lemma len_pos_iff s : 0 < len s <-> s ≠ [].
Proof. unfold len. destruct s; simpl; split; intros; (congruence || lia). Qed.

Lemma trimStart_leadingWs s : leadingWs s ++ trimStart s = s.
Proof.
  induction s as [|c s IH]; simpl; [done|].
  destruct (isWhiteSpace c); simpl; [by rewrite IH | done].
Qed.

Lemma leadingWs_Forall s : Forall (λ c, isWhiteSpace c = true) (leadingWs s).
Proof.
  induction s as [|c s IH]; simpl; [constructor|].
  destruct (isWhiteSpace c) eqn:E; by constructor.
Qed.

Lemma trimStart_head s c t : trimStart s = c :: t -> isWhiteSpace c = false.
Proof.
  induction s as [|x s IH]; simpl; [done|].
  destruct (isWhiteSpace x) eqn:E; [done|]. intros [= -> _]. done.
Qed.

Lemma trimStart_len s : len (trimStart s) <= len s.
Proof.
  rewrite <- (trimStart_leadingWs s) at 2. rewrite len_app.
  pose proof (len_nonneg (leadingWs s)). lia.
Qed.

Lemma trimStart_id s :
  Forall (λ c, isWhiteSpace c = false) s -> trimStart s = s.
Proof. destruct 1 as [|c s Hc _]; simpl; [done|]. by rewrite Hc. Qed.

Lemma trimStart_ws_cons c s : isWhiteSpace c = true -> trimStart (c :: s) = trimStart s.
Proof. simpl. by intros ->. Qed.

Lemma leadingWs_ws_cons c s :
  isWhiteSpace c = true -> leadingWs (c :: s) = c :: leadingWs s.
Proof. simpl. by intros ->. Qed.

(** [slice] from the start and to the end are [take] and [drop]. *)
Lemma slice_0 s e : 0 <= e -> slice s 0 e = take (Z.to_nat e) s.
Proof.
  intros He. unfold slice, relIndex. pose proof (len_nonneg s).
  replace (0 <? 0) with false by done.
  destruct (Z.ltb_spec e 0); [lia|].
  rewrite (Z.min_l 0) by lia. change (Z.to_nat 0) with O. rewrite drop_0.
  destruct (Z.min_spec e (len s)) as [[? ->]|[? ->]].
  - f_equal. lia.
  - rewrite !take_ge; [done| |]; unfold len in *; lia.
Qed.

Lemma sliceFrom_nat s (k : nat) : sliceFrom s (Z.of_nat k) = drop k s.
Proof.
  unfold sliceFrom, slice, relIndex. pose proof (len_nonneg s).
  destruct (Z.ltb_spec (Z.of_nat k) 0); [lia|].
  destruct (Z.ltb_spec (len s) 0); [lia|].
  rewrite (Z.min_l (len s) (len s)) by lia.
  destruct (Z.min_spec (Z.of_nat k) (len s)) as [[? ->]|[? ->]].
  - rewrite Nat2Z.id. apply take_ge. rewrite length_drop. unfold len in *. lia.
  - rewrite Z.sub_diag. change (Z.to_nat (0 `max` 0)) with O. rewrite take_0.
    symmetry. apply drop_ge. unfold len in *. lia.
Qed.

(** [lastIndexOf] returns [-1] or the position of an occurrence. *)
Lemma lastIndexFrom_spec c s : forall i found,
  lastIndexFrom c i found s = found \/
  (i <= lastIndexFrom c i found s < i + len s /\
   s !! Z.to_nat (lastIndexFrom c i found s - i) = Some c).
Proof.
  induction s as [|x s IH]; intros i found; simpl; [by left|].
  destruct (IH (i + 1) (if (x =? c)%N then i else found)) as [->|[Hr Hl]].
  - destruct (N.eqb_spec x c) as [->|]; [right|by left].
    unfold len; simpl. split; [lia|]. by rewrite Z.sub_diag.
  - right. set (r := lastIndexFrom _ _ _ _) in *.
    unfold len in *; simpl. split; [lia|].
    replace (Z.to_nat (r - i)) with (S (Z.to_nat (r - (i + 1)))) by lia.
    done.
Qed.

Lemma lastIndexOf_spec s c :
  lastIndexOf s c = -1 \/
  (0 <= lastIndexOf s c < len s /\ s !! Z.to_nat (lastIndexOf s c) = Some c).
Proof.
  unfold lastIndexOf.
  destruct (lastIndexFrom_spec c s 0 (-1)) as [?|[? Hl]]; [by left|right].
  rewrite Z.sub_0_r in Hl. split; [lia|done].
Qed.

End StringFacts.

(** * The reply chunker *)

Section ChunkerFacts.

Import Chunker.

Variable limit : Z.
Hypothesis limit_ge : 500 <= limit.

Implicit Types (remaining chunk rest : jsstring) (chunks : list jsstring).

(** What one iteration does: it cuts [remaining] at some position [k],
    either the hard cut at [limit] (or the end of the text), or a space or
    newline found beyond position [limit - 500]. *)
Lemma splitStep_spec remaining :
  remaining ≠ [] ->
  exists k : nat,
    splitStep limit remaining
      = (take k remaining, trimStart (drop k remaining)) /\
    0 < Z.of_nat k <= limit /\ Z.of_nat k <= len remaining /\
    (Z.of_nat k = Z.min limit (len remaining) \/
     (limit - 500 < Z.of_nat k /\
      exists c, remaining !! k = Some c /\ (c = LF \/ c = SP))).
Proof.
  intros Hne. apply len_pos_iff in Hne.
  unfold splitStep. rewrite slice_0 by lia.
  set (chunk0 := take (Z.to_nat limit) remaining).
  assert (Hlen0 : len chunk0 = Z.min limit (len remaining)).
  { unfold chunk0, len. rewrite length_take. lia. }
  set (split := Z.max (lastIndexOf chunk0 LF) (lastIndexOf chunk0 SP)).
  destruct (Z.ltb_spec (limit - 500) split) as [Hs|Hs].
  - assert (exists c, (0 <= split < len chunk0) /\
              chunk0 !! Z.to_nat split = Some c /\ (c = LF \/ c = SP))
      as (c & Hr & Hc & Hcc).
    { unfold split in *.
      destruct (Z.max_spec (lastIndexOf chunk0 LF) (lastIndexOf chunk0 SP))
        as [[_ E]|[_ E]]; rewrite E in *.
      - destruct (lastIndexOf_spec chunk0 SP) as [?|[? ?]]; [lia|].
        exists SP. auto.
      - destruct (lastIndexOf_spec chunk0 LF) as [?|[? ?]]; [lia|].
        exists LF. auto. }
    exists (Z.to_nat split). rewrite slice_0 by lia.
    assert (Ht : take (Z.to_nat split) chunk0 = take (Z.to_nat split) remaining).
    { unfold chunk0. rewrite take_take. f_equal. lia. }
    rewrite Ht.
    assert (Hl : len (take (Z.to_nat split) remaining) = Z.of_nat (Z.to_nat split)).
    { unfold len. rewrite length_take. unfold len in *. lia. }
    rewrite Hl, sliceFrom_nat.
    split; [done|]. split; [lia|]. split; [lia|]. right. split; [lia|].
    exists c. split; [|done].
    unfold chunk0 in Hc. rewrite lookup_take_lt in Hc by lia. done.
  - exists (length chunk0). unfold len at 1. rewrite sliceFrom_nat.
    assert (Ht : take (length chunk0) remaining = chunk0).
    { unfold chunk0. rewrite length_take, <- take_take. 
      by rewrite (take_ge remaining (length remaining)). }
    rewrite Ht. fold (len chunk0). rewrite Hlen0.
    split; [done|]. split; [lia|]. split; [lia|]. by left.
Qed.

(** Consequences for the pair that [splitStep] returns. *)
Lemma splitStep_chunk remaining chunk rest :
  remaining ≠ [] -> splitStep limit remaining = (chunk, rest) ->
  0 < len chunk <= limit /\
  len rest + len chunk <= len remaining /\
  Z.min (limit - 499) (len remaining) <= len chunk.
Proof.
  intros Hne Heq.
  destruct (splitStep_spec remaining Hne) as (k & E & Hk & Hkl & Hcase).
  rewrite E in Heq. injection Heq as <- <-.
  assert (len (take k remaining) = Z.of_nat k) as ->.
  { unfold len in *. rewrite length_take. lia. }
  pose proof (trimStart_len (drop k remaining)).
  assert (len (drop k remaining) = len remaining - Z.of_nat k).
  { unfold len in *. rewrite length_drop. lia. }
  lia.
Qed.

(** The loop never runs out of fuel when it has one iteration per unit of
    [remaining], and more fuel does not change its result. *)
Lemma splitLoop_total fuel : forall chunks remaining,
  len remaining <= Z.of_nat fuel ->
  exists out, splitLoop limit fuel chunks remaining = Some out.
Proof.
  induction fuel as [|fuel IH]; intros chunks remaining Hf.
  - exists chunks. cbn [splitLoop]. destruct (Z.ltb_spec 0 (len remaining)); [lia|done].
  - cbn [splitLoop]. destruct (Z.ltb_spec 0 (len remaining)) as [Hp|]; [|by eexists].
    apply len_pos_iff in Hp.
    destruct (splitStep limit remaining) as [chunk rest] eqn:E.
    apply IH. pose proof (splitStep_chunk _ _ _ Hp E). lia.
Qed.

Lemma splitLoop_fuel_mono fuel : forall fuel' chunks remaining out,
  splitLoop limit fuel chunks remaining = Some out ->
  (fuel <= fuel')%nat ->
  splitLoop limit fuel' chunks remaining = Some out.
Proof.
  induction fuel as [|fuel IH]; intros fuel' chunks remaining out.
  - cbn [splitLoop]. destruct (0 <? len remaining) eqn:E; [done|].
    intros [= <-] _. destruct fuel'; cbn [splitLoop]; by rewrite E.
  - cbn [splitLoop]. destruct (0 <? len remaining) eqn:E.
    + destruct fuel' as [|fuel']; [lia|]. cbn [splitLoop]. rewrite E.
      destruct (splitStep limit remaining) as [chunk rest].
      intros H ?. apply IH; [done|lia].
    + intros [= <-] _. destruct fuel'; cbn [splitLoop]; by rewrite E.
Qed.

(** The loop keeps what is already in [chunks] and appends chunks that
    are non-empty and within the limit. *)
Lemma splitLoop_chunks fuel : forall chunks remaining out,
  splitLoop limit fuel chunks remaining = Some out ->
  exists new, out = chunks ++ new /\
    Forall (λ chunk, 0 < len chunk <= limit) new /\
    (remaining ≠ [] -> new ≠ []).
Proof.
  induction fuel as [|fuel IH]; intros chunks remaining out; cbn [splitLoop].
  - destruct (Z.ltb_spec 0 (len remaining)) as [|Hz]; [done|].
    intros [= <-]. exists []. rewrite app_nil_r. split_and!; [done|constructor|].
    intros Hne%len_pos_iff. lia.
  - destruct (Z.ltb_spec 0 (len remaining)) as [Hp|Hz].
    + apply len_pos_iff in Hp.
      destruct (splitStep limit remaining) as [chunk rest] eqn:E.
      intros H. apply IH in H as (new & -> & Hall & _).
      exists (chunk :: new). rewrite <- app_assoc. split_and!; [done| |done].
      constructor; [|done]. by destruct (splitStep_chunk _ _ _ Hp E).
    + intros [= <-]. exists []. rewrite app_nil_r. split_and!; [done|constructor|].
      intros Hne%len_pos_iff. lia.
Qed.

End ChunkerFacts.

Section SplitMessageFacts.

Import Chunker.

Implicit Types (content text remaining chunk rest : jsstring).

Lemma limit_ge_500 : 500 <= DISCORD_MSG_LIMIT.
Proof. unfold DISCORD_MSG_LIMIT. lia. Qed.

(** [splitMessage] is what the loop returns whenever it is given at least
    one iteration per code unit of the content. *)
Lemma splitMessage_enough_fuel content fuel :
  (length content <= fuel)%nat ->
  splitMessageFuel fuel content = Some (splitMessage content).
Proof.
  intros Hf. unfold splitMessage, splitMessageFuel, splitMessageAt.
  destruct (len content <=? DISCORD_MSG_LIMIT); [done|].
  destruct (splitLoop_total _ limit_ge_500 (length content) [] content)
    as [out Hout]; [unfold len; lia|].
  rewrite Hout. simpl. by apply splitLoop_fuel_mono with (length content).
Qed.

Lemma splitMessage_short content :
  len content <= DISCORD_MSG_LIMIT -> splitMessage content = [content].
Proof.
  intros H. unfold splitMessage, splitMessageFuel, splitMessageAt.
  destruct (Z.leb_spec (len content) DISCORD_MSG_LIMIT); [done|lia].
Qed.

Lemma splitMessage_long content :
  DISCORD_MSG_LIMIT < len content ->
  splitLoop DISCORD_MSG_LIMIT (length content) [] content
    = Some (splitMessage content).
Proof.
  intros H. rewrite <- (splitMessage_enough_fuel content (length content)) by done.
  unfold splitMessageFuel, splitMessageAt.
  destruct (Z.leb_spec (len content) DISCORD_MSG_LIMIT); [lia|done].
Qed.

End SplitMessageFacts.

(** C4.  A text within the limit comes back as the single chunk [text]; a
    longer text is cut (the loop returns, with one iteration per code unit
    to spare) into chunks that are all non-empty and within the limit. *)
Theorem C4_split_chunk_bounds (text : jsstring) :
  (len text <= DISCORD_MSG_LIMIT -> Chunker.splitMessage text = [text]) /\
  (DISCORD_MSG_LIMIT < len text ->
   Chunker.splitMessageFuel (length text) text = Some (Chunker.splitMessage text) /\
   Chunker.splitMessage text ≠ [] /\
   Forall (λ chunk, chunk ≠ [] /\ len chunk <= DISCORD_MSG_LIMIT)
          (Chunker.splitMessage text)).
Proof.
  split; [apply splitMessage_short|].
  intros Hlong. split; [by apply splitMessage_enough_fuel|].
  pose proof (splitMessage_long text Hlong) as Hloop.
  apply (splitLoop_chunks _ limit_ge_500) in Hloop as (new & E & Hall & Hne).
  simpl in E. rewrite E. split.
  - apply Hne. apply len_pos_iff. unfold DISCORD_MSG_LIMIT in Hlong. lia.
  - eapply Forall_impl; [exact Hall|]. simpl. intros chunk [Hp Hl].
    split; [by apply len_pos_iff|done].
Qed.

Lemma C4_split_chunk_bounds_witness :
  Chunker.splitMessage (lit "Hello, world!") = [lit "Hello, world!"] /\
  Forall (λ chunk, chunk ≠ [] /\ len chunk <= DISCORD_MSG_LIMIT)
         (Chunker.splitMessage (concat (replicate 500 (lit "word ")))).
Proof.
  split.
  - apply (C4_split_chunk_bounds (lit "Hello, world!")). vm_compute. discriminate.
  - apply (C4_split_chunk_bounds (concat (replicate 500 (lit "word ")))).
    vm_compute. reflexivity.
Defined.

(** ** Texts without whitespace: hard cuts only *)

Section HardCuts.

Import Chunker.

Variable limit : Z.
Hypothesis limit_ge : 500 <= limit.

Implicit Types (remaining chunk rest : jsstring) (chunks : list jsstring).

Lemma splitStep_hard remaining :
  remaining ≠ [] -> noWhiteSpace remaining ->
  let k := Z.to_nat (Z.min limit (len remaining)) in
  splitStep limit remaining = (take k remaining, drop k remaining).
Proof.
  intros Hne Hws k.
  destruct (splitStep_spec limit limit_ge remaining Hne)
    as (k' & E & Hk & Hkl & [Hcase|(_ & c & Hc & Hcc)]).
  - assert (k' = k) as -> by (unfold k; lia).
    rewrite E. f_equal. apply trimStart_id. by apply Forall_drop.
  - exfalso. unfold noWhiteSpace in Hws. rewrite Forall_lookup in Hws.
    specialize (Hws _ _ Hc). by destruct Hcc as [-> | ->].
Qed.

Lemma ceil_div_step n : limit < n ->
  (n + limit - 1) / limit = 1 + (n - limit + limit - 1) / limit.
Proof.
  intros Hn. replace (n + limit - 1) with ((n - limit + limit - 1) + 1 * limit) by lia.
  rewrite Z.div_add by lia. lia.
Qed.

Lemma ceil_div_small n : 0 < n <= limit -> (n + limit - 1) / limit = 1.
Proof.
  intros Hn. replace (n + limit - 1) with ((n - 1) + 1 * limit) by lia.
  rewrite Z.div_add by lia. rewrite Z.div_small by lia. done.
Qed.

Lemma splitLoop_hard fuel : forall chunks remaining out,
  noWhiteSpace remaining ->
  splitLoop limit fuel chunks remaining = Some out ->
  exists new, out = chunks ++ new /\ concat new = remaining /\
    Z.of_nat (length new) = (len remaining + limit - 1) / limit /\
    (forall i chunk, new !! i = Some chunk ->
       len chunk <= limit /\ ((S i < length new)%nat -> len chunk = limit)).
Proof.
  induction fuel as [|fuel IH]; intros chunks remaining out Hws; cbn [splitLoop].
  all: destruct (Z.ltb_spec 0 (len remaining)) as [Hp|Hz]; [|intros [= <-]].
  all: try (exists []; rewrite app_nil_r;
            assert (remaining = []) as ->
              by (destruct remaining; [done|unfold len in Hz; simpl in Hz; lia]);
            split_and!; [done|done| |done];
            rewrite len_nil, Z.div_small by lia; done).
  - done.
  - assert (Hne : remaining ≠ []) by by apply len_pos_iff.
    rewrite (splitStep_hard remaining Hne Hws).
    set (k := Z.to_nat (Z.min limit (len remaining))).
    intros H. apply IH in H as (new & -> & Hcat & Hcount & Hlens);
      [|by apply Forall_drop].
    assert (Hlk : len (take k remaining) = Z.min limit (len remaining)).
    { unfold len, k. rewrite length_take. unfold len. lia. }
    assert (Hld : len (drop k remaining) = len remaining - Z.min limit (len remaining)).
    { unfold len, k. rewrite length_drop. unfold len. lia. }
    exists (take k remaining :: new). rewrite <- app_assoc.
    split_and!; [done| | |].
    + simpl. rewrite Hcat. apply take_drop.
    + simpl length. rewrite Nat2Z.inj_succ, Hcount, Hld.
      destruct (Z.min_spec limit (len remaining)) as [[? ->]|[? ->]].
      * rewrite (ceil_div_step (len remaining)) by done. lia.
      * rewrite Z.sub_diag, (ceil_div_small (len remaining)) by lia.
        rewrite Z.div_small by lia. done.
    + intros [|i] chunk; simpl.
      * intros [= <-]. rewrite Hlk. split; [lia|]. intros Hi.
        destruct (Z.min_spec limit (len remaining)) as [[? ->]|[? E]]; [done|].
        exfalso. rewrite Hld, E, Z.sub_diag, Z.div_small in Hcount by lia. lia.
      * intros Hi. destruct (Hlens _ _ Hi) as [? Himp]. split; [done|].
        intros ?. apply Himp. lia.
Qed.

End HardCuts.

(** C6 (amended).  A text longer than the limit that contains no whitespace
    unit at all is hard-cut into exactly [ceil(L / limit)] chunks, each
    within the limit and all of them of length [limit] except possibly the
    last; together the chunks are the text. *)
Theorem C6_hard_cut_count (text : jsstring) :
  DISCORD_MSG_LIMIT < len text ->
  noWhiteSpace text ->
  let chunks := Chunker.splitMessage text in
  Chunker.splitMessageFuel (length text) text = Some chunks /\
  Z.of_nat (length chunks)
    = (len text + DISCORD_MSG_LIMIT - 1) / DISCORD_MSG_LIMIT /\
  (forall i chunk, chunks !! i = Some chunk ->
     len chunk <= DISCORD_MSG_LIMIT /\
     ((S i < length chunks)%nat -> len chunk = DISCORD_MSG_LIMIT)) /\
  concat chunks = text.
Proof.
  intros Hlong Hws chunks. split; [by apply splitMessage_enough_fuel|].
  pose proof (splitMessage_long text Hlong) as Hloop. fold chunks in Hloop.
  apply (splitLoop_hard _ limit_ge_500) in Hloop as (new & E & ? & ? & ?); [|done].
  simpl in E. rewrite E. done.
Qed.

Lemma C6_hard_cut_count_witness :
  Z.of_nat (length (Chunker.splitMessage (replicate 4500 97%N))) = 3.
Proof.
  assert (H1 : DISCORD_MSG_LIMIT < len (replicate 4500 97%N)) by (vm_compute; reflexivity).
  assert (H2 : noWhiteSpace (replicate 4500 97%N)).
  { apply Forall_replicate. reflexivity. }
  destruct (C6_hard_cut_count (replicate 4500 97%N) H1 H2) as (_ & Hc & _).
  rewrite Hc. vm_compute. reflexivity.
Defined.

(** C6 as stated fails: a text with no newline and no space can still
    contain other whitespace, which [trimStart] removes.  2000 letters
    followed by a tab have length 2001 and give one chunk, not two. *)
Lemma C6_counterexample :
  let text := replicate 2000 97%N ++ [9%N] in
  DISCORD_MSG_LIMIT < len text /\
  (LF ∉ text) /\ (SP ∉ text) /\
  Chunker.splitMessage text = [replicate 2000 97%N] /\
  (len text + DISCORD_MSG_LIMIT - 1) / DISCORD_MSG_LIMIT = 2 /\
  Z.of_nat (length (Chunker.splitMessage text))
    ≠ (len text + DISCORD_MSG_LIMIT - 1) / DISCORD_MSG_LIMIT.
Proof.
  intros text. split_and!.
  - vm_compute. reflexivity.
  - apply (bool_decide_unpack _). vm_compute. exact I.
  - apply (bool_decide_unpack _). vm_compute. exact I.
  - vm_compute. reflexivity.
  - vm_compute. reflexivity.
  - vm_compute. discriminate.
Qed.

(** C10 (amended).  [splitMessage] terminates on every input: with one
    iteration per code unit (or more) the loop returns, always with the same
    chunks.  In each iteration the emitted chunk is non-empty and the
    remainder loses at least [limit - 499] units (1501 at the Discord limit),
    or all of its units when it has fewer than that. *)
Theorem C10_split_terminates (content : jsstring) :
  (exists chunks, forall fuel, (length content <= fuel)%nat ->
     Chunker.splitMessageFuel fuel content = Some chunks) /\
  (forall remaining chunk rest,
     remaining ≠ [] ->
     Chunker.splitStep DISCORD_MSG_LIMIT remaining = (chunk, rest) ->
     chunk ≠ [] /\
     Z.min (DISCORD_MSG_LIMIT - 499) (len remaining) <= len remaining - len rest /\
     len rest < len remaining).
Proof.
  split.
  - exists (Chunker.splitMessage content). intros fuel Hf.
    by apply splitMessage_enough_fuel.
  - intros remaining chunk rest Hne E.
    destruct (splitStep_chunk _ limit_ge_500 _ _ _ Hne E) as (Hc & Hr & Hmin).
    split; [apply len_pos_iff; lia|]. lia.
Qed.

Lemma C10_split_terminates_witness :
  let remaining := replicate 2001 97%N in
  let chunk := replicate 2000 97%N in
  let rest := [97%N] in
  chunk ≠ [] /\
  Z.min (DISCORD_MSG_LIMIT - 499) (len remaining) <= len remaining - len rest /\
  len rest < len remaining.
Proof.
  intros remaining chunk rest.
  apply (proj2 (C10_split_terminates remaining) remaining chunk rest).
  - discriminate.
  - vm_compute. reflexivity.
Defined.

(** C10 as stated fails in the last iterations: on 2001 letters the second
    iteration starts from a remainder of one unit and consumes one unit,
    not 1501. *)
Lemma C10_counterexample :
  let content := replicate 2001 97%N in
  let remaining := (Chunker.splitStep DISCORD_MSG_LIMIT content).2 in
  remaining = [97%N] /\
  Chunker.splitStep DISCORD_MSG_LIMIT remaining = ([97%N], []) /\
  ~ (DISCORD_MSG_LIMIT - 499
       <= len remaining - len (Chunker.splitStep DISCORD_MSG_LIMIT remaining).2).
Proof.
  intros content remaining.
  assert (E : remaining = [97%N]) by (vm_compute; reflexivity).
  rewrite E. split_and!; [done|by vm_compute|].
  vm_compute. intros H. apply H. reflexivity.
Qed.

(** ** Reconstruction of the text from its chunks *)

Section WordFacts.

Import Rejoin.

Implicit Types (s t cur d : jsstring) (c : N) (ws : list jsstring).

Lemma wordsFrom_app_ws cur s c t :
  isWhiteSpace c = true ->
  wordsFrom cur (s ++ c :: t) = wordsFrom cur s ++ words t.
Proof.
  intros Hc. revert cur. induction s as [|x s IH]; intros cur; simpl.
  - by rewrite Hc.
  - destruct (isWhiteSpace x); [|apply IH].
    rewrite IH. by rewrite app_assoc.
Qed.

Lemma words_leading d t : allWhiteSpace d -> words (d ++ t) = words t.
Proof.
  induction 1 as [|c d Hc _ IH]; [done|].
  unfold words in *. simpl. by rewrite Hc.
Qed.

Lemma wordsFrom_trailing cur s d :
  allWhiteSpace d -> wordsFrom cur (s ++ d) = wordsFrom cur s.
Proof.
  intros Hd. destruct Hd as [|c d Hc Hd]; [by rewrite app_nil_r|].
  rewrite wordsFrom_app_ws by done.
  rewrite <- (app_nil_r d), words_leading by done.
  apply app_nil_r.
Qed.

Lemma words_gap s d t :
  allWhiteSpace d -> d ≠ [] -> words (s ++ d ++ t) = words s ++ words t.
Proof.
  intros Hd Hne. destruct Hd as [|c d Hc Hd]; [done|].
  unfold words at 1. simpl. rewrite wordsFrom_app_ws by done.
  by rewrite words_leading.
Qed.

Lemma words_join chunks : words (join [SP] chunks) = concat (words <$> chunks).
Proof.
  induction chunks as [|p [|q chunks] IH].
  - done.
  - simpl. by rewrite app_nil_r.
  - change (join [SP] (p :: q :: chunks)) with (p ++ SP :: join [SP] (q :: chunks)).
    unfold words at 1. rewrite wordsFrom_app_ws by done.
    rewrite IH. done.
Qed.

Lemma wordsFrom_nonempty cur s : cur ≠ [] -> wordsFrom cur s ≠ [].
Proof.
  revert cur. induction s as [|c s IH]; intros cur Hc; simpl.
  - by destruct cur.
  - destruct (isWhiteSpace c); [by destruct cur|].
    apply IH. by destruct cur.
Qed.

Lemma flush_words cur :
  Forall (λ c, isWhiteSpace c = false) cur -> Forall isWord (flush cur).
Proof.
  destruct cur as [|c cur]; [constructor|]. intros H. simpl.
  constructor; [|constructor]. split; [done|exact H].
Qed.

Lemma wordsFrom_words cur s :
  Forall (λ c, isWhiteSpace c = false) cur -> Forall isWord (wordsFrom cur s).
Proof.
  revert cur. induction s as [|c s IH]; intros cur Hcur; simpl.
  - by apply flush_words.
  - destruct (isWhiteSpace c) eqn:E.
    + apply Forall_app_2; [by apply flush_words|]. apply IH. constructor.
    + apply IH. apply Forall_app_2; [done|]. by repeat constructor.
Qed.

Lemma words_isWord s : Forall isWord (words s).
Proof. apply wordsFrom_words. constructor. Qed.

Lemma wordsFrom_word cur w :
  Forall (λ c, isWhiteSpace c = false) w -> wordsFrom cur w = flush (cur ++ w).
Proof.
  intros Hw. revert cur. induction Hw as [|c w Hc _ IH]; intros cur; simpl.
  - by rewrite app_nil_r.
  - rewrite Hc, IH. by rewrite <- app_assoc.
Qed.

Lemma words_of_words ws : Forall isWord ws -> words (join [SP] ws) = ws.
Proof.
  intros Hws. rewrite words_join.
  induction Hws as [|w ws [Hne Hw] _ IH]; [done|].
  rewrite fmap_cons. cbn [concat]. rewrite IH.
  unfold words. rewrite wordsFrom_word by done.
  simpl. by destruct w.
Qed.

End WordFacts.

Section NormalizeFacts.

Import Rejoin.

Implicit Types (s t cur d u : jsstring) (c : N) (ws : list jsstring).

Lemma join_cons sep p q (ps : list jsstring) :
  join sep (p :: q :: ps) = p ++ sep ++ join sep (q :: ps).
Proof. done. Qed.

(** [collapseFrom] writes the words of the string separated by single
    spaces, possibly followed by one more space. *)
Lemma collapse_words s :
  (forall cur, cur ≠ [] ->
     exists post, (post = [] \/ post = [SP]) /\
       cur ++ collapseFrom false s = join [SP] (wordsFrom cur s) ++ post) /\
  (exists post, (post = [] \/ post = [SP]) /\ (words s = [] -> post = []) /\
     collapseFrom true s = join [SP] (words s) ++ post).
Proof.
  induction s as [|c s [IH1 IH2]].
  - split.
    + intros cur Hcur. exists []. split; [by left|].
      simpl. destruct cur; [done|]. by rewrite !app_nil_r.
    + exists []. by split_and!; [left|..].
  - unfold words in *. simpl. destruct (isWhiteSpace c) eqn:Hc; split.
    + intros cur Hcur. destruct IH2 as (post & Hpost & Hnil & ->).
      assert (flush cur = [cur]) as -> by by destruct cur.
      destruct (wordsFrom [] s) as [|w ws] eqn:Ew.
      * rewrite (Hnil eq_refl). exists [SP]. split; [by right|done].
      * exists post. split; [done|].
        change ([cur] ++ w :: ws) with (cur :: w :: ws).
        rewrite join_cons. by rewrite <- !app_assoc.
    + exact IH2.
    + intros cur Hcur.
      destruct (IH1 (cur ++ [c])) as (post & Hpost & E); [by destruct cur|].
      exists post. split; [done|]. rewrite <- E. by rewrite <- app_assoc.
    + destruct (IH1 [c]) as (post & Hpost & E); [done|].
      exists post. split_and!; [done| |exact E].
      intros Hw. by apply wordsFrom_nonempty in Hw.
Qed.

Lemma collapseWs_words s :
  exists pre post, allWhiteSpace pre /\ allWhiteSpace post /\
    collapseWs s = pre ++ join [SP] (words s) ++ post.
Proof.
  assert (Hsp : forall post, post = [] \/ post = [SP] -> allWhiteSpace post).
  { intros post [-> | ->]; [constructor|by repeat constructor]. }
  destruct s as [|c s]; [by exists [], []; split_and!; try constructor|].
  unfold collapseWs, words. simpl. destruct (isWhiteSpace c) eqn:Hc.
  - destruct (collapse_words s) as [_ (post & Hpost & _ & E)].
    exists [SP], post. split_and!; [by repeat constructor|by apply Hsp|].
    by rewrite E.
  - destruct (collapse_words s) as [H1 _].
    destruct (H1 [c]) as (post & Hpost & E); [done|].
    exists [], post. split_and!; [constructor|by apply Hsp|exact E].
Qed.

Lemma trimStart_leading d t : allWhiteSpace d -> trimStart (d ++ t) = trimStart t.
Proof. induction 1 as [|c d Hc _ IH]; [done|]. simpl. by rewrite Hc. Qed.

Lemma trimStart_ink_head c u t :
  isWhiteSpace c = false -> trimStart ((c :: u) ++ t) = (c :: u) ++ t.
Proof. intros Hc. simpl. by rewrite Hc. Qed.

(** A string that neither starts nor ends with whitespace survives [trim],
    also with whitespace put around it. *)
Lemma trim_padded pre u post :
  allWhiteSpace pre -> allWhiteSpace post ->
  (forall c, head u = Some c -> isWhiteSpace c = false) ->
  (forall c, last u = Some c -> isWhiteSpace c = false) ->
  trim (pre ++ u ++ post) = u.
Proof.
  intros Hpre Hpost Hh Hl. unfold trim, trimEnd.
  rewrite trimStart_leading by done.
  destruct u as [|c u].
  - simpl. rewrite <- (app_nil_r post), trimStart_leading by done. done.
  - rewrite trimStart_ink_head by (by apply Hh).
    rewrite reverse_app, trimStart_leading by (by apply Forall_reverse).
    destruct (reverse (c :: u)) as [|x r] eqn:Er.
    { apply (f_equal length) in Er. rewrite length_reverse in Er. done. }
    assert (Hx : isWhiteSpace x = false).
    { apply Hl. rewrite <- head_reverse, Er. done. }
    rewrite <- (app_nil_r (x :: r)), trimStart_ink_head, app_nil_r by done.
    rewrite <- Er. apply reverse_involutive.
Qed.

Lemma join_words_head ws c :
  Forall isWord ws -> head (join [SP] ws) = Some c -> isWhiteSpace c = false.
Proof.
  intros Hws. destruct Hws as [|w ws [Hne Hw] Hws]; [done|].
  assert (head (join [SP] (w :: ws)) = head w) as ->.
  { destruct ws; [done|]. rewrite join_cons. by destruct w. }
  intros Hc%head_Some_elem_of. rewrite Forall_forall in Hw. by apply Hw.
Qed.

Lemma join_words_last ws c :
  Forall isWord ws -> last (join [SP] ws) = Some c -> isWhiteSpace c = false.
Proof.
  induction 1 as [|w ws [Hne Hw] Hws IH]; [done|].
  destruct ws as [|w' ws].
  - simpl. intros Hc%last_Some_elem_of. rewrite Forall_forall in Hw. by apply Hw.
  - rewrite join_cons, !last_app.
    destruct (last (join [SP] (w' :: ws))) as [y|] eqn:Ey.
    + intros [= ->]. by apply IH.
    + apply last_None in Ey. exfalso.
      apply Forall_inv in Hws as [Hne' _].
      destruct ws; simpl in Ey; [done|]. by destruct w'.
Qed.

(** Normalizing a string writes its words separated by single spaces. *)
Lemma normalize_words s : normalize s = join [SP] (words s).
Proof.
  unfold normalize.
  destruct (collapseWs_words s) as (pre & post & Hpre & Hpost & ->).
  apply trim_padded; [done|done| |].
  - intros c. apply join_words_head, words_isWord.
  - intros c. apply join_words_last, words_isWord.
Qed.

Lemma normalize_eq_words s t : normalize s = normalize t <-> words s = words t.
Proof.
  rewrite !normalize_words. split; [|by intros ->].
  intros E. apply (f_equal words) in E.
  by rewrite !words_of_words in E by apply words_isWord.
Qed.

End NormalizeFacts.

Section RejoinFacts.

Import Chunker Rejoin.

Variable limit : Z.
Hypothesis limit_ge : 500 <= limit.

Implicit Types (remaining chunk rest d : jsstring) (chunks : list jsstring).

(** One iteration splits [remaining] into the chunk, a run of whitespace
    that is dropped, and the new remainder. *)
Lemma splitStep_decomp remaining chunk rest :
  remaining ≠ [] -> splitStep limit remaining = (chunk, rest) ->
  exists d, remaining = chunk ++ d ++ rest /\ allWhiteSpace d /\
    (forall c, head rest = Some c -> isWhiteSpace c = false).
Proof.
  intros Hne E.
  destruct (splitStep_spec limit limit_ge remaining Hne) as (k & E' & _).
  rewrite E' in E. injection E as <- <-.
  exists (leadingWs (drop k remaining)). split_and!.
  - by rewrite trimStart_leadingWs, take_drop.
  - apply leadingWs_Forall.
  - intros c Hc. apply head_Some in Hc as [t Ht].
    by apply trimStart_head in Ht.
Qed.

Lemma inkOf_ws d : allWhiteSpace d -> inkOf d = [].
Proof.
  unfold inkOf. induction 1 as [|c d Hc _ IH]; [done|].
  rewrite filter_cons_False; [done|]. by rewrite Hc.
Qed.

Lemma lookup_after chunk (t : jsstring) : (chunk ++ t) !! length chunk = head t.
Proof. rewrite lookup_app_r by lia. rewrite Nat.sub_diag. by destruct t. Qed.

(** A cut that is not inside a word keeps the words apart as they are. *)
Lemma words_clean_cut chunk d rest :
  allWhiteSpace d ->
  (forall c, head rest = Some c -> isWhiteSpace c = false) ->
  cutInsideWord (chunk ++ d ++ rest) chunk = false ->
  words (chunk ++ d ++ rest) = words chunk ++ words rest.
Proof.
  intros Hd Hrest Hcut. destruct d as [|w d]; [|by apply words_gap].
  simpl in *. destruct rest as [|b r]; [by rewrite !app_nil_r|].
  specialize (Hrest b eq_refl).
  unfold cutInsideWord in Hcut. rewrite lookup_after in Hcut. simpl in Hcut.
  destruct (last chunk) as [a|] eqn:Ea.
  - rewrite Hrest, andb_true_r in Hcut. apply negb_false_iff in Hcut.
    apply last_Some in Ea as [chunk' ->].
    rewrite <- app_assoc. simpl. unfold words at 1 2.
    rewrite wordsFrom_app_ws by done.
    rewrite (wordsFrom_app_ws [] chunk' a []) by done.
    by rewrite app_nil_r.
  - apply last_None in Ea as ->. done.
Qed.

Lemma wordsFrom_length cur1 cur2 (s : jsstring) :
  cur1 ≠ [] -> cur2 ≠ [] ->
  length (wordsFrom cur1 s) = length (wordsFrom cur2 s).
Proof.
  revert cur1 cur2. induction s as [|c s IH]; intros cur1 cur2 H1 H2; simpl.
  - by destruct cur1, cur2.
  - destruct (isWhiteSpace c).
    + rewrite !length_app. by destruct cur1, cur2.
    + apply IH; by destruct cur1, cur2.
Qed.

Lemma wordsFrom_joined cur (s r : jsstring) a b :
  isWhiteSpace a = false -> isWhiteSpace b = false ->
  (length (wordsFrom cur (s ++ [a])) + length (words (b :: r)))%nat
  = S (length (wordsFrom cur (s ++ a :: b :: r))).
Proof.
  intros Ha Hb. revert cur. induction s as [|x s IH]; intros cur.
  - unfold words. simpl. rewrite Ha, Hb. simpl.
    assert (flush (cur ++ [a]) = [cur ++ [a]]) as -> by by destruct cur.
    simpl. f_equal. apply wordsFrom_length; [done|by destruct cur].
  - simpl. destruct (isWhiteSpace x); [|apply IH].
    rewrite !length_app. pose proof (IH []). lia.
Qed.

(** A cut inside a word turns one word into two. *)
Lemma words_cut_inside chunk d rest :
  allWhiteSpace d ->
  cutInsideWord (chunk ++ d ++ rest) chunk = true ->
  (length (words chunk) + length (words rest))%nat
  = S (length (words (chunk ++ d ++ rest))).
Proof.
  intros Hd Hcut. unfold cutInsideWord in Hcut. rewrite lookup_after in Hcut.
  destruct (last chunk) as [a|] eqn:Ea; [|done].
  destruct (head (d ++ rest)) as [b|] eqn:Eb; [|done].
  apply andb_true_iff in Hcut as [Ha%negb_true_iff Hb%negb_true_iff].
  destruct d as [|w d].
  - simpl in *. apply head_Some in Eb as [r ->].
    apply last_Some in Ea as [chunk' ->].
    rewrite <- app_assoc. simpl. by apply wordsFrom_joined.
  - simpl in Eb. injection Eb as ->. apply Forall_inv in Hd. congruence.
Qed.

(** The loop invariant: what the loop appends has the non-whitespace units
    of [remaining], and its words are those of [remaining] with one more
    word for every cut inside a word. *)
Lemma splitLoop_words fuel : forall chunks remaining out,
  splitLoop limit fuel chunks remaining = Some out ->
  exists new, out = chunks ++ new /\
    inkOf (concat new) = inkOf remaining /\
    length (concat (words <$> new))
      = (length (words remaining) + cutsInsideWords limit fuel remaining)%nat /\
    (cutsInsideWords limit fuel remaining = O ->
     concat (words <$> new) = words remaining).
Proof.
  induction fuel as [|fuel IH]; intros chunks remaining out;
    cbn [splitLoop cutsInsideWords].
  all: destruct (Z.ltb_spec 0 (len remaining)) as [Hp|Hz]; [|intros [= <-]].
  all: try (exists []; rewrite app_nil_r;
            assert (remaining = []) as ->
              by (destruct remaining; [done|unfold len in Hz; simpl in Hz; lia]);
            by split_and!).
  - done.
  - assert (Hne : remaining ≠ []) by by apply len_pos_iff.
    destruct (splitStep limit remaining) as [chunk rest] eqn:E.
    destruct (splitStep_decomp _ _ _ Hne E) as (d & Hrem & Hd & Hrest).
    intros H. apply IH in H as (new & -> & Hink & Hlen & Hclean).
    exists (chunk :: new). rewrite <- app_assoc. split; [done|].
    rewrite fmap_cons. cbn [concat]. split_and!.
    + rewrite Hrem. unfold inkOf in *.
      rewrite !filter_app, Hink. fold (inkOf d). by rewrite (inkOf_ws d Hd).
    + rewrite length_app, Hlen.
      destruct (cutInsideWord remaining chunk) eqn:Ec.
      * rewrite Hrem in Ec. pose proof (words_cut_inside _ _ _ Hd Ec) as Hw.
        rewrite <- Hrem in Hw. lia.
      * rewrite Hrem in Ec. pose proof (words_clean_cut _ _ _ Hd Hrest Ec) as Hw.
        rewrite <- Hrem in Hw. rewrite Hw, length_app. lia.
    + destruct (cutInsideWord remaining chunk) eqn:Ec; [done|].
      simpl. intros Hz. rewrite (Hclean Hz).
      rewrite Hrem in Ec. pose proof (words_clean_cut _ _ _ Hd Hrest Ec) as Hw.
      by rewrite <- Hrem in Hw.
Qed.

End RejoinFacts.

(** C5 (amended).  The non-whitespace units of the chunks, in order, are
    those of the text: none is dropped or duplicated.  Re-joining the chunks
    with single spaces and normalizing whitespace gives the normalized text
    exactly when no cut of [splitMessage] falls inside a word, that is,
    between two non-whitespace units. *)
Theorem C5_rejoin_reconstructs (text : jsstring) :
  Rejoin.inkOf (concat (Chunker.splitMessage text)) = Rejoin.inkOf text /\
  (Rejoin.rejoin (Chunker.splitMessage text) = Rejoin.normalize text
   <-> Rejoin.midWordCuts text = O).
Proof.
  unfold Rejoin.rejoin, Rejoin.midWordCuts.
  rewrite normalize_eq_words, words_join.
  destruct (Z.leb_spec (len text) DISCORD_MSG_LIMIT) as [Hs|Hl].
  - rewrite splitMessage_short by done. simpl. by rewrite !app_nil_r.
  - pose proof (splitMessage_long text Hl) as Hloop.
    apply (splitLoop_words _ limit_ge_500) in Hloop as (new & E & Hink & Hlen & Hclean).
    simpl in E. rewrite E. split; [done|]. split; [|done].
    intros Hw. rewrite Hw in Hlen. lia.
Qed.

(** C5 as stated fails on a hard cut: 2001 letters are one word, and
    re-joining the two chunks puts a space into it. *)
Lemma C5_counterexample :
  let text := replicate 2001 97%N in
  Chunker.splitMessage text = [replicate 2000 97%N; [97%N]] /\
  length (Rejoin.rejoin (Chunker.splitMessage text)) = 2002%nat /\
  length (Rejoin.normalize text) = 2001%nat /\
  Rejoin.rejoin (Chunker.splitMessage text) ≠ Rejoin.normalize text.
Proof.
  intros text.
  assert (H1 : length (Rejoin.rejoin (Chunker.splitMessage text)) = 2002%nat)
    by (vm_compute; reflexivity).
  assert (H2 : length (Rejoin.normalize text) = 2001%nat)
    by (vm_compute; reflexivity).
  split_and!; [by vm_compute|done|done|].
  intros H. rewrite H, H2 in H1. discriminate H1.
Qed.

(** The reconstruction check of [test/test.js]: 500 words of four letters,
    each followed by a space, are cut at a space and come back. *)
Lemma C5_rejoin_reconstructs_witness :
  let text := concat (replicate 500 (lit "word ")) in
  Rejoin.rejoin (Chunker.splitMessage text) = Rejoin.normalize text.
Proof.
  intros text. apply (C5_rejoin_reconstructs text). vm_compute. reflexivity.
Defined.

(** ** The message pipeline *)

Lemma logged_refl (w : World) : Log.logged w [] w.
Proof. split; [by rewrite app_nil_r|]. simpl. by rewrite union_empty_r_L. Qed.

Lemma logged_trans (w1 w2 w3 : World) (d1 d2 : list Event) :
  Log.logged w1 d1 w2 -> Log.logged w2 d2 w3 -> Log.logged w1 (d1 ++ d2) w3.
Proof.
  intros [E1 F1] [E2 F2]. split.
  - by rewrite E2, E1, app_assoc.
  - rewrite F2, F1. unfold Log.downloadDests. rewrite omap_app, list_to_set_app_L.
    by rewrite (assoc_L (∪)).
Qed.


Section PipelineFacts.

Import Pipeline Log.

Context (config : Config) (env : Env).

Implicit Types (w : World) (message : Message) (delta : list Event).

(** What the calls to the collaborators do. *)
Lemma sendTyping_run message w :
  sendTyping message w
  = (Ok tt, {| events := events w ++ [EvTyping (channelId message)];
               files := files w |}).
Proof. done. Qed.

Lemma reply_run kind message text w :
  reply env kind message text w
  = (match replyResult env (length (events w)) with
     | Some e => Throw e
     | None => Ok tt
     end,
     {| events := events w ++ [EvReply kind (messageId message) text];
        files := files w |}).
Proof.
  unfold reply, mbind, M_bind, bind, tick, emit, ofStatus. simpl.
  by destruct (replyResult env _).
Qed.

Lemma swallow_reply_run kind message text w :
  swallow (reply env kind message text) w
  = (Ok tt, {| events := events w ++ [EvReply kind (messageId message) text];
               files := files w |}).
Proof.
  unfold swallow, tryCatch. rewrite reply_run.
  by destruct (replyResult env _).
Qed.

Lemma fetch_run message opts w :
  fetch env message opts w
  = (match fetchResult env (length (events w)) (channelId message) opts with
     | inl e => Throw e
     | inr page => Ok page
     end,
     {| events := events w ++ [EvFetch (channelId message) opts];
        files := files w |}).
Proof.
  unfold fetch, mbind, M_bind, bind, tick, emit, ofResult. simpl.
  by destruct (fetchResult env _ _ _).
Qed.

Lemma copilotSend_run prompt sent w :
  copilotSend env prompt sent w
  = (match sendResult env (length (events w)) prompt sent with
     | inl e => Throw e
     | inr response => Ok response
     end,
     {| events := events w ++ [EvSend prompt sent]; files := files w |}).
Proof.
  unfold copilotSend, mbind, M_bind, bind, tick, emit, ofResult. simpl.
  by destruct (sendResult env _ _ _).
Qed.

Lemma downloadFile_run url dest w :
  downloadFile env url dest w
  = (match downloadResult env (length (events w)) with
     | Some e => Throw e
     | None => Ok tt
     end,
     {| events := events w ++ [EvDownload url dest];
        files := {[dest]} ∪ files w |}).
Proof.
  unfold downloadFile, mbind, M_bind, bind, tick, emit, createFile, ofStatus.
  simpl. by destruct (downloadResult env _).
Qed.

Lemma omap_nothing {A} (f : Event -> option A) (P : Event -> Prop) delta :
  (forall ev, P ev -> f ev = None) -> Forall P delta -> omap f delta = [].
Proof.
  intros Hf. induction 1 as [|ev delta Hev _ IH]; [done|].
  simpl. by rewrite (Hf ev Hev).
Qed.

(** [downloadAttachments]: the loop never fails.  It sends one notice for
    each image above the ceiling, starts one download for each image
    within it, and every attachment it returns was downloaded to a file
    that now exists. *)
Lemma downloadEach_run message pending : forall results w,
  exists extra delta w',
    downloadEach config env message pending results w
      = (Ok (results ++ extra), w') /\
    logged w delta w' /\
    Forall isAttachmentStage delta /\
    tooLargeTexts delta = tooLargeNotice config <$> oversized config pending /\
    downloadUrls delta = attUrl <$> admitted config pending /\
    Forall (λ r, path r ∈ downloadDests delta /\
                 exists a, a ∈ admitted config pending /\
                           displayName r = attName a) extra.
Proof.
  induction pending as [|a pending IH]; intros results w.
  - exists [], [], w. rewrite app_nil_r. split_and!; try done.
    apply logged_refl.
  - cbn [downloadEach]. unfold oversized, admitted in *.
    destruct (isImage a) eqn:Hi; cbn [negb andb].
    + destruct (tooLarge config a) eqn:Hl; cbn [negb].
      * unfold mbind, M_bind, bind. rewrite swallow_reply_run.
        set (w1 := {| events := _; files := _ |}).
        destruct (IH results w1) as (extra & delta & w' & E & Hlog & Hst & Ht & Hu & Hr).
        exists extra, (EvReply TooLargeNotice (messageId message)
                         (tooLargeNotice config a) :: delta), w'.
        rewrite filter_cons_True by (by rewrite Hi, Hl).
        rewrite filter_cons_False by (by rewrite Hi, Hl).
        split_and!; try done.
        -- apply (logged_trans w w1 w' [_] delta); [|done].
           split; [done|]. simpl. by rewrite union_empty_r_L.
        -- by constructor.
        -- simpl. by rewrite Ht.
      * rewrite filter_cons_False by (by rewrite Hi, Hl).
        rewrite filter_cons_True by (by rewrite Hi, Hl).
        unfold mbind, M_bind, bind, tryCatch, dateNow, tick, ret. simpl.
        rewrite downloadFile_run.
        set (dest := tmpPath env (now env (length (events w))) a).
        set (w1 := {| events := _; files := _ |}).
        assert (Hlog1 : logged w [EvDownload (attUrl a) dest] w1).
        { split; [done|]. simpl. rewrite union_empty_r_L. apply (comm_L (∪)). }
        destruct (downloadResult env (length (events w))) as [e|].
        -- destruct (IH results w1)
             as (extra & delta & w' & E & Hlog & Hst & Ht & Hu & Hr).
           exists extra, (EvDownload (attUrl a) dest :: delta), w'.
           split_and!; try done.
           ++ by apply (logged_trans w w1 w' [_] delta).
           ++ by constructor.
           ++ simpl. by rewrite Hu.
           ++ eapply Forall_impl; [exact Hr|]. simpl.
              intros r [Hp (a' & Ha' & Hn)]. split; [set_solver|].
              exists a'. split; [by right|done].
        -- destruct (IH (results ++ [{| path := dest; displayName := attName a |}]) w1)
             as (extra & delta & w' & E & Hlog & Hst & Ht & Hu & Hr).
           exists ({| path := dest; displayName := attName a |} :: extra),
                  (EvDownload (attUrl a) dest :: delta), w'.
           split_and!; try done.
           ++ rewrite E. by rewrite <- app_assoc.
           ++ by apply (logged_trans w w1 w' [_] delta).
           ++ by constructor.
           ++ simpl. by rewrite Hu.
           ++ constructor.
              ** simpl. split; [by left|]. exists a. split; [by left|done].
              ** eapply Forall_impl; [exact Hr|]. simpl.
                 intros r [Hp (a' & Ha' & Hn)]. split; [by right|].
                 exists a'. split; [by right|done].
    + rewrite !filter_cons_False by (by rewrite Hi).
      apply IH.
Qed.

(** [sendReply]: the chunks are sent in order until one fails. *)
Lemma replyEach_run message chunks : forall w,
  exists sentChunks out w',
    replyEach env message chunks w = (out, w') /\
    out ≠ OutOfFuel /\
    sentChunks `prefix_of` chunks /\
    (out = Ok tt -> sentChunks = chunks) /\
    logged w (EvReply Chunk (messageId message) <$> sentChunks) w'.
Proof.
  induction chunks as [|chunk chunks IH]; intros w.
  - exists [], (Ok tt), w. split_and!; try done. apply logged_refl.
  - cbn [replyEach]. unfold mbind, M_bind, bind. rewrite reply_run.
    set (w1 := {| events := _; files := _ |}).
    assert (Hlog1 : logged w [EvReply Chunk (messageId message) chunk] w1).
    { split; [done|]. simpl. by rewrite union_empty_r_L. }
    destruct (replyResult env (length (events w))) as [e|].
    + exists [chunk], (Throw e), w1. split_and!; try done.
      by apply prefix_cons, prefix_nil.
    + destruct (IH w1) as (sentChunks & out & w' & E & Hout & Hpre & Hok & Hlog).
      exists (chunk :: sentChunks), out, w'. split_and!; try done.
      * by apply prefix_cons.
      * intros Ho. by rewrite (Hok Ho).
      * by apply (logged_trans w w1 w' [_] _).
Qed.

Lemma answers_are_answers (to : jsstring) (texts : list jsstring) :
  Forall isAnswer (EvReply Chunk to <$> texts).
Proof. apply Forall_fmap, Forall_true. by intros text. Qed.

Lemma sendReply_run message text w :
  exists sentChunks out w',
    sendReply env message text w = (out, w') /\
    out ≠ OutOfFuel /\
    sentChunks `prefix_of` Chunker.splitMessage text /\
    (out = Ok tt -> sentChunks = Chunker.splitMessage text) /\
    logged w (EvReply Chunk (messageId message) <$> sentChunks) w'.
Proof.
  unfold sendReply. rewrite splitMessage_enough_fuel by done.
  apply replyEach_run.
Qed.

(** The paging loop of [buildPrompt] does what the specification says, for
    any number of iterations that covers the distance to the cap. *)
Lemma fetchAll_paging message fuel : forall history lastId w,
  HISTORY_CAP - Z.of_nat (length history) <= PAGE_SIZE * Z.of_nat fuel ->
  exists requests out w',
    fetchAll env fuel message history lastId w = (out, w') /\
    logged w (EvFetch (channelId message) <$> requests) w' /\
    SpecPaging env (channelId message) (length (events w)) history lastId
      requests out.
Proof.
  unfold HISTORY_CAP, PAGE_SIZE.
  induction fuel as [|fuel IH]; intros history lastId w Hfuel; cbn [fetchAll].
  all: unfold HISTORY_CAP, PAGE_SIZE.
  all: destruct (Z.ltb_spec (Z.of_nat (length history)) 1000) as [Hlt|Hge].
  all: try (exists [], (Ok history), w;
            split_and!; [done|apply logged_refl|by constructor]).
  - lia.
  - unfold mbind, M_bind, bind. rewrite fetch_run.
    set (opts := {| limit := 100; before := cursor lastId |}).
    set (w1 := {| events := _; files := _ |}).
    assert (Hlog1 : logged w [EvFetch (channelId message) opts] w1).
    { split; [done|]. simpl. by rewrite union_empty_r_L. }
    destruct (fetchResult env (length (events w)) (channelId message) opts)
      as [e|page] eqn:Ef.
    + exists [opts], (Throw e), w1. split_and!; [done|done|].
      by apply paging_error.
    + destruct (Z.ltb_spec (Z.of_nat (length page)) 100) as [Hshort|Hfull].
      * exists [opts], (Ok (history ++ page)), w1. split_and!; [done|done|].
        by apply paging_short.
      * destruct (IH (history ++ page) (messageId <$> last page) w1)
          as (requests & out & w' & E & Hlog & Hspec).
        { rewrite length_app. lia. }
        exists (opts :: requests), out, w'. split_and!; [done| |].
        -- by apply (logged_trans w w1 w' [_] _).
        -- apply paging_more with page; try done.
           replace (S (length (events w))) with (length (events w1)); [done|].
           unfold w1. simpl. rewrite length_app. simpl. lia.
Qed.

Lemma fetches_are_fetches (channel : jsstring) (requests : list FetchOpts) :
  Forall isFetch (EvFetch channel <$> requests).
Proof. apply Forall_fmap, Forall_true. by intros opts. Qed.

Lemma paging_returns channel t history lastId requests out :
  SpecPaging env channel t history lastId requests out -> out ≠ OutOfFuel.
Proof. induction 1; done. Qed.

(** [buildPrompt] only fetches, and it returns. *)
Lemma buildPrompt_run message w :
  exists fetches out w',
    buildPrompt config env message w = (out, w') /\
    out ≠ OutOfFuel /\
    logged w fetches w' /\
    Forall isFetch fetches.
Proof.
  unfold buildPrompt.
  destruct (CONTEXT_MESSAGE_COUNT config =? 1).
  { exists [], (Ok (content message)), w.
    split_and!; [done|done|apply logged_refl|constructor]. }
  unfold mbind, M_bind, bind.
  destruct (CONTEXT_MESSAGE_COUNT config =? 0).
  - destruct (fetchAll_paging message 10 [] None w)
      as (requests & out & w' & E & Hlog & Hspec); [by vm_compute|].
    apply paging_returns in Hspec. rewrite E.
    destruct out as [history|e|]; [| |done].
    + exists (EvFetch (channelId message) <$> requests),
             (Ok (formatPrompt message history)), w'.
      split_and!; [done|done|done|apply fetches_are_fetches].
    + exists (EvFetch (channelId message) <$> requests), (Throw e), w'.
      split_and!; [done|done|done|apply fetches_are_fetches].
  - rewrite fetch_run.
    set (opts := {| limit := _; before := _ |}).
    set (w1 := {| events := _; files := _ |}).
    assert (Hlog1 : logged w [EvFetch (channelId message) opts] w1).
    { split; [done|]. simpl. by rewrite union_empty_r_L. }
    destruct (fetchResult env _ _ _) as [e|page].
    + exists [EvFetch (channelId message) opts], (Throw e), w1.
      split_and!; [done|done|done|by repeat constructor].
    + exists [EvFetch (channelId message) opts],
             (Ok (formatPrompt message page)), w1.
      split_and!; [done|done|done|by repeat constructor].
Qed.

(** [downloadAttachments] never fails, whatever the attachments are. *)
Lemma downloadAttachments_run message w :
  exists results stage w',
    downloadAttachments config env message w = (Ok results, w') /\
    logged w stage w' /\
    Forall isAttachmentStage stage /\
    Forall (λ r, path r ∈ downloadDests stage /\
                 exists a, a ∈ admitted config (attachments message) /\
                           displayName r = attName a) results /\
    (IMAGE_SUPPORT config = true ->
     tooLargeTexts stage
       = tooLargeNotice config <$> oversized config (attachments message) /\
     downloadUrls stage = attUrl <$> admitted config (attachments message)) /\
    (IMAGE_SUPPORT config = false -> stage = []).
Proof.
  unfold downloadAttachments.
  destruct (IMAGE_SUPPORT config) eqn:Hs; cbn [negb orb].
  - destruct (attachments message) as [|a pending] eqn:Ha; cbn [length Nat.eqb].
    + exists [], [], w. split_and!; try done. apply logged_refl.
    + destruct (downloadEach_run message (a :: pending) [] w)
        as (extra & delta & w' & E & Hlog & Hst & Ht & Hu & Hr).
      exists extra, delta, w'. simpl in E. by split_and!.
  - exists [], [], w. split_and!; try done. apply logged_refl.
Qed.

(** [processMessage], stage by stage: the typing signal, the history
    fetches, the attachment stage, and the last stage. *)
Lemma processMessage_run message w :
  let w0 := {| events := events w ++ [EvTyping (channelId message)];
               files := files w |} in
  exists outb w1 results w2 tail w',
    buildPrompt config env message w0 = (outb, w1) /\
    downloadAttachments config env message w1 = (Ok results, w2) /\
    processMessage config env message w = (Ok tt, w') /\
    events w' = events w2 ++ tail /\
    files w' = files w2 /\
    lastStage message outb results tail.
Proof.
  intros w0.
  destruct (buildPrompt_run message w0) as (fetches & outb & w1 & Eb & Hnb & _).
  destruct (downloadAttachments_run message w1) as (results & stage & w2 & Ed & _).
  exists outb, w1, results, w2.
  unfold processMessage, mbind, M_bind, bind, tryCatch, settled.
  rewrite sendTyping_run. fold w0. rewrite Eb.
  destruct outb as [prompt|e|]; [| |done]; rewrite Ed; cbn [all2 ret throw fst snd].
  - rewrite copilotSend_run.
    set (w3 := {| events := events w2 ++ [EvSend prompt results]; files := files w2 |}).
    destruct (sendResult env (length (events w2)) prompt results) as [e|response].
    { rewrite swallow_reply_run.
      exists (EvSend prompt results :: [] ++ [apology message]). eexists.
      split_and!; [done|done|done| |done|].
      - cbn [events w3]. by rewrite <- app_assoc.
      - exists [], [apology message]. split; [done|]. right. by left. }
    assert (Hempty : exists w',
      swallow (reply env EmptyNotice message EMPTY_RESPONSE) w3 = (Ok tt, w') /\
      events w' = events w2 ++ EvSend prompt results :: [] ++ [emptyNotice message] /\
      files w' = files w2).
    { rewrite swallow_reply_run. eexists. split_and!; [done| |done].
      cbn [events w3]. by rewrite <- app_assoc. }
    destruct (trim <$> response) as [[|c text]|] eqn:Et.
    1,3: destruct Hempty as (w' & -> & He & Hf);
         exists (EvSend prompt results :: [] ++ [emptyNotice message]), w';
         split_and!; try done;
         exists [], [emptyNotice message]; split; [done|]; right; by right.
    clear Hempty.
    destruct (sendReply_run message (c :: text) w3)
      as (sentChunks & out & w4 & Es & Hout & _ & _ & [Hev Hfi]).
    rewrite Es. pose proof (answers_are_answers (messageId message) sentChunks).
    assert (Hdest : downloadDests (EvReply Chunk (messageId message) <$> sentChunks) = []).
    { apply (omap_nothing _ isAnswer); [|done]. by intros [| |[]| |]. }
    rewrite Hdest in Hfi. simpl in Hfi. rewrite union_empty_r_L in Hfi.
    destruct out as [[]|e|]; [| |done].
    + exists (EvSend prompt results
              :: (EvReply Chunk (messageId message) <$> sentChunks) ++ []), w4.
      split_and!; [done|done|done| |done|].
      * rewrite Hev. cbn [events w3]. rewrite <- app_assoc, app_nil_r. done.
      * exists sentChunks, []. split; [done|]. by left.
    + rewrite swallow_reply_run.
      exists (EvSend prompt results
              :: (EvReply Chunk (messageId message) <$> sentChunks)
                 ++ [apology message]). eexists.
      split_and!; [done|done|done| |done|].
      * cbn [events]. rewrite Hev. cbn [events w3]. rewrite <- !app_assoc. done.
      * exists sentChunks, [apology message]. split; [done|]. right. by left.
  - rewrite swallow_reply_run. exists [apology message]. eexists. by split_and!.
Qed.

(** The whole log of one [processMessage]. *)
Lemma processMessage_log message w :
  let w0 := {| events := events w ++ [EvTyping (channelId message)];
               files := files w |} in
  exists outb w1 fetches results stage tail w',
    buildPrompt config env message w0 = (outb, w1) /\
    processMessage config env message w = (Ok tt, w') /\
    newEvents w w' = [EvTyping (channelId message)] ++ fetches ++ stage ++ tail /\
    files w' = files w ∪ list_to_set (downloadDests stage) /\
    Forall isFetch fetches /\
    Forall isAttachmentStage stage /\
    Forall (λ r, path r ∈ downloadDests stage /\
                 exists a, a ∈ admitted config (attachments message) /\
                           displayName r = attName a) results /\
    (IMAGE_SUPPORT config = true ->
     tooLargeTexts stage
       = tooLargeNotice config <$> oversized config (attachments message) /\
     downloadUrls stage = attUrl <$> admitted config (attachments message)) /\
    (IMAGE_SUPPORT config = false -> stage = []) /\
    lastStage message outb results tail.
Proof.
  intros w0.
  destruct (processMessage_run message w)
    as (outb & w1 & results & w2 & tail & w' & Eb & Ed & Ep & Hev & Hfi & Htail).
  fold w0 in Eb.
  destruct (buildPrompt_run message w0)
    as (fetches & outb' & w1' & Eb' & _ & [Hevb Hfib] & Hfetch).
  rewrite Eb in Eb'. injection Eb' as <- <-.
  destruct (downloadAttachments_run message w1)
    as (results' & stage & w2' & Ed' & [Hevd Hfid] & Hstage & Hres & Hon & Hoff).
  rewrite Ed in Ed'. injection Ed' as <- <-.
  exists outb, w1, fetches, results, stage, tail, w'.
  split_and!; try done.
  - unfold newEvents. rewrite Hev, Hevd, Hevb. cbn [events w0].
    rewrite <- !app_assoc. by rewrite drop_app_length.
  - rewrite Hfi, Hfid, Hfib. cbn [files w0].
    assert (downloadDests fetches = []) as ->.
    { apply (omap_nothing _ isFetch); [by intros [| |[]| |]|done]. }
    simpl. by rewrite union_empty_r_L.
Qed.

End PipelineFacts.

(** What the last stage of [processMessage] leaves in the log. *)
Lemma lastStage_observations (message : Message) (outb : Outcome jsstring)
    (results : list FileAttachment) (tail : list Event) :
  Log.lastStage message outb results tail ->
  Log.tooLargeTexts tail = [] /\
  Log.downloadUrls tail = [] /\
  Log.downloadDests tail = [] /\
  (length (Log.failureNotices tail) <= 1)%nat /\
  (length (Log.errorReplies tail) <= 1)%nat /\
  Forall (λ to, to = messageId message) (Log.errorReplies tail) /\
  Log.completions tail
    = match outb with Ok prompt => [(prompt, results)] | _ => [] end.
Proof.
  unfold Log.lastStage.
  destruct outb as [prompt|e|];
    try (intros ->; split_and!; try done; try (simpl; lia); by repeat constructor).
  intros (chunks & notices & -> & Hnotices).
  pose proof (answers_are_answers (messageId message) chunks) as Hans.
  unfold Log.tooLargeTexts, Log.downloadUrls, Log.downloadDests,
    Log.failureNotices, Log.errorReplies, Log.completions.
  simpl. rewrite !omap_app.
  rewrite !(omap_nothing _ Log.isAnswer (EvReply Chunk (messageId message) <$> chunks));
    try done; try by intros [| |[]| |].
  destruct Hnotices as [-> | [-> | [_ ->]]]; simpl;
    split_and!; try done; try lia; by repeat constructor.
Qed.







(** ** Unlimited context *)

Section PagingFacts.

Context (env : Env) (channel : jsstring).





End PagingFacts.




(** ** Model selection *)

Lemma findModel_unknown (id : jsstring) :
  id ∉ Copilot.modelId <$> Copilot.MODELS -> Copilot.findModel id = None.
Proof.
  intros Hid. unfold Copilot.findModel.
  destruct (list_find _ _) as [[i m]|] eqn:E; [|done].
  apply list_find_Some in E as (Hm & Hi & _). exfalso. apply Hid.
  rewrite <- Hi. apply list_elem_of_fmap_2. by eapply list_elem_of_lookup_2.
Qed.

Lemma findModel_known (id : jsstring) :
  id ∈ Copilot.modelId <$> Copilot.MODELS -> is_Some (Copilot.findModel id).
Proof.
  intros (m & -> & Hm)%list_elem_of_fmap. unfold Copilot.findModel.
  destruct (list_find_elem_of (λ m', Copilot.modelId m' = Copilot.modelId m)
              Copilot.MODELS m Hm eq_refl) as [[i m'] ->].
  by eexists.
Qed.



(** ** The channel queues *)

Section DispatcherFacts.

Import Dispatcher.

Context (config : Config).

Implicit Types (bot : Bot) (c d : jsstring) (m : Message) (task : Task).

Lemma schedule_app (ms ms' : list Message) :
  schedule (ms ++ ms') = schedule ms ++ schedule ms'.
Proof. unfold schedule. apply bind_app. Qed.

Lemma schedule_cons m (ms : list Message) :
  schedule (m :: ms) = Begin m :: End m :: schedule ms.
Proof. done. Qed.

Lemma marksOf_app c (l l' : list Mark) :
  marksOf c (l ++ l') = marksOf c l ++ marksOf c l'.
Proof. apply filter_app. Qed.

Lemma marksOf_one c (mark : Mark) :
  marksOf c [mark] = if decide (channelId (markMessage mark) = c) then [mark] else [].
Proof.
  unfold marksOf. destruct (decide _) as [E|E].
  - by rewrite filter_cons_True.
  - by rewrite filter_cons_False.
Qed.

Lemma tasksOf_app c (l l' : list Task) :
  tasksOf c (l ++ l') = tasksOf c l ++ tasksOf c l'.
Proof. apply filter_app. Qed.

Lemma tasksOf_one c task :
  tasksOf c [task] = if decide (taskChannel task = c) then [task] else [].
Proof.
  unfold tasksOf. destruct (decide _) as [E|E].
  - by rewrite filter_cons_True.
  - by rewrite filter_cons_False.
Qed.

(** Removing the [i]-th task from the list. *)
Lemma tasksOf_delete c (tasks : list Task) i task :
  tasks !! i = Some task ->
  tasksOf c tasks
  = tasksOf c (take i tasks)
    ++ (if decide (taskChannel task = c) then [task] else [])
    ++ tasksOf c (drop (S i) tasks) /\
  tasksOf c (delete i tasks)
  = tasksOf c (take i tasks) ++ tasksOf c (drop (S i) tasks).
Proof.
  intros Hi. split.
  - rewrite <- (take_drop_middle tasks i task Hi) at 1.
    rewrite tasksOf_app.
    change (task :: drop (S i) tasks) with ([task] ++ drop (S i) tasks).
    by rewrite tasksOf_app, tasksOf_one.
  - by rewrite delete_take_drop, tasksOf_app.
Qed.

Lemma tasksOf_delete_other c (tasks : list Task) i task :
  tasks !! i = Some task -> taskChannel task ≠ c ->
  tasksOf c (delete i tasks) = tasksOf c tasks.
Proof.
  intros Hi Hc. destruct (tasksOf_delete c tasks i task Hi) as [-> ->].
  by rewrite decide_False.
Qed.

Lemma tasksOf_delete_own c (tasks : list Task) i task :
  tasks !! i = Some task -> taskChannel task = c ->
  (length (tasksOf c tasks) <= 1)%nat ->
  tasksOf c tasks = [task] /\ tasksOf c (delete i tasks) = [].
Proof.
  intros Hi Hc. destruct (tasksOf_delete c tasks i task Hi) as [-> ->].
  rewrite decide_True by done. rewrite !length_app. simpl.
  destruct (tasksOf c (take i tasks)), (tasksOf c (drop (S i) tasks));
    simpl; intros; (done || lia).
Qed.

Lemma arrivals_snoc c (inputs : list Input) (input : Input) :
  arrivals config c (inputs ++ [input])
  = arrivals config c inputs
    ++ match input with
       | Arrive m =>
           if negb (ignored config m) && bool_decide (channelId m = c)
           then [m] else []
       | Settle _ _ => []
       end.
Proof.
  unfold arrivals. rewrite bind_app. f_equal. simpl. by rewrite app_nil_r.
Qed.

(** [drain] on a channel that is marked as processing and has no suspended
    task: it takes the head of the queue, or clears the mark. *)
Lemma drain_restores d bot (arrived : list Message) :
  d ∈ processingChannels bot ->
  tasksOf d (awaiting bot) = [] ->
  Forall (λ m, channelId m = d) (queueOf d bot) ->
  Forall (λ task, channelId (taskMessage task) = taskChannel task) (awaiting bot) ->
  schedule arrived = marksOf d (trace bot) ++ schedule (queueOf d bot) ->
  channelInv arrived (drain d bot) d.
Proof.
  intros Hproc Htasks Hqueue Hcons Heq. unfold drain, queueOf in *.
  destruct (channelQueues bot !! d) as [[|m q]|] eqn:Eq; cbn [from_option id] in *.
  1,3: unfold channelInv, queueOf; cbn [channelQueues processingChannels awaiting trace];
       rewrite Eq, Htasks; cbn [from_option id fmap list_fmap length];
       split_and!; [lia| |done|done|done|by rewrite Heq];
       rewrite elem_of_difference, elem_of_singleton; intuition congruence.
  apply Forall_cons in Hqueue as [Hm Hq].
  unfold channelInv, queueOf.
  cbn [channelQueues processingChannels awaiting trace].
  rewrite lookup_insert_eq, tasksOf_app, Htasks, tasksOf_one.
  cbn [taskChannel]. rewrite decide_True by done. cbn [from_option id app].
  split_and!; [done|done|done|done| |].
  - apply Forall_app_2; [done|]. by repeat constructor.
  - rewrite Heq, schedule_cons, marksOf_app, marksOf_one.
    cbn [markMessage]. rewrite decide_True by done.
    by rewrite <- app_assoc.
Qed.

(** [drain] on [d] changes nothing that belongs to another channel. *)
Lemma drain_other c d bot (arrived : list Message) :
  c ≠ d ->
  Forall (λ m, channelId m = d) (queueOf d bot) ->
  channelInv arrived bot c ->
  channelInv arrived (drain d bot) c.
Proof.
  intros Hcd Hqueue (Hlen & Hproc & Hidle & Hq & Hcons & Heq).
  unfold drain, queueOf in *.
  destruct (channelQueues bot !! d) as [[|m q]|] eqn:Eq; cbn [from_option id] in *.
  1,3: unfold channelInv, queueOf; cbn [channelQueues processingChannels awaiting trace];
       split_and!; try done;
       rewrite elem_of_difference, elem_of_singleton; intuition congruence.
  apply Forall_cons in Hqueue as [Hm _].
  unfold channelInv, queueOf.
  cbn [channelQueues processingChannels awaiting trace].
  rewrite lookup_insert_ne by done.
  rewrite tasksOf_app, tasksOf_one, marksOf_app, marksOf_one.
  cbn [taskChannel markMessage].
  rewrite !decide_False by congruence. rewrite !app_nil_r.
  split_and!; try done.
  apply Forall_app_2; [done|]. by repeat constructor.
Qed.

Lemma no_tasks_when_idle (arrived : list Message) bot c :
  channelInv arrived bot c -> c ∉ processingChannels bot ->
  tasksOf c (awaiting bot) = [] /\ queueOf c bot = [] /\
  schedule arrived = marksOf c (trace bot).
Proof.
  intros (_ & Hproc & Hidle & _ & _ & Heq) Hc.
  assert (Ht : tasksOf c (awaiting bot) = []).
  { destruct (tasksOf c (awaiting bot)) eqn:E; [done|].
    exfalso. apply Hc, Hproc. done. }
  rewrite Ht, (Hidle Hc) in Heq. simpl in Heq. rewrite app_nil_r in Heq.
  by split_and!; [|apply Hidle|].
Qed.

(** A drain task that resumes keeps the invariant of every channel,
    whatever the settlement. *)
Lemma resume_invariant bot i (s : Settlement) (arrived : jsstring -> list Message) :
  (forall c, channelInv (arrived c) bot c) ->
  forall c, channelInv (arrived c) (resume i s bot) c.
Proof.
  intros Hinv c. unfold resume.
  destruct (awaiting bot !! i) as [task|] eqn:Ei; [|apply Hinv].
  set (d := taskChannel task).
  set (bot1 := {| channelQueues := _; processingChannels := _;
                  awaiting := _; trace := _; errorLog := _ |}).
  destruct (Hinv d) as (Hlen & Hproc & Hid & Hq & Hcons & Heq).
  assert (Hm : channelId (taskMessage task) = d).
  { rewrite Forall_lookup in Hcons. by apply (Hcons i). }
  destruct (tasksOf_delete_own d (awaiting bot) i task Ei eq_refl Hlen)
    as [Hown Hgone].
  assert (Hcons1 : Forall (λ task, channelId (taskMessage task) = taskChannel task)
                     (awaiting bot1)).
  { cbn [bot1 awaiting]. by apply Forall_delete. }
  destruct (bool_decide_reflect (d = c)) as [<-|Hdc].
  - apply drain_restores; try done.
    + apply Hproc. by rewrite Hown.
    + cbn [bot1 trace]. change (queueOf d bot1) with (queueOf d bot).
      rewrite marksOf_app, marksOf_one. cbn [markMessage].
      rewrite decide_True by done.
      rewrite Heq, Hown. cbn [fmap list_fmap]. by rewrite <- app_assoc.
  - apply drain_other; [congruence|done|].
    destruct (Hinv c) as (Hlenc & Hprocc & Hidc & Hqc & _ & Heqc).
    unfold channelInv. change (queueOf c bot1) with (queueOf c bot).
    cbn [bot1 processingChannels awaiting trace].
    rewrite (tasksOf_delete_other c _ i task) by (done || congruence).
    rewrite marksOf_app, marksOf_one. cbn [markMessage].
    rewrite decide_False by congruence. rewrite app_nil_r.
    by split_and!.
Qed.

(** Every input keeps the invariant of every channel. *)
Lemma step_invariant bot (input : Input) (arrived : jsstring -> list Message) :
  (forall c, channelInv (arrived c) bot c) ->
  forall c,
    channelInv
      (arrived c
       ++ match input with
          | Arrive m =>
              if negb (ignored config m) && bool_decide (channelId m = c)
              then [m] else []
          | Settle _ _ => []
          end)
      (step config bot input) c.
Proof.
  intros Hinv c. destruct input as [m|i s]; cbn [step].
  - unfold onMessage. destruct (ignored config m) eqn:Hig; cbn [negb andb].
    { rewrite app_nil_r. apply Hinv. }
    set (d := channelId m).
    set (bot1 := {| channelQueues := _; processingChannels := _;
                    awaiting := _; trace := _; errorLog := _ |}).
    assert (Hq1 : queueOf d bot1 = queueOf d bot ++ [m]).
    { unfold queueOf, bot1. cbn [channelQueues]. by rewrite lookup_insert_eq. }
    assert (Hq1' : forall c', c' ≠ d -> queueOf c' bot1 = queueOf c' bot).
    { intros c' Hc'. unfold queueOf, bot1. cbn [channelQueues].
      by rewrite lookup_insert_ne. }
    unfold processQueue. cbn [processingChannels bot1].
    destruct (bool_decide_reflect (d ∈ processingChannels bot)) as [Hbusy|Hidle].
    + (* a drain task is active: the message waits in the queue *)
      destruct (Hinv c) as (Hlen & Hproc & Hid & Hq & Hcons & Heq).
      destruct (bool_decide_reflect (d = c)) as [<-|Hdc].
      * unfold channelInv. rewrite Hq1. cbn [bot1 processingChannels awaiting trace].
        split_and!; try done.
        -- apply Forall_app_2; [done|]. by repeat constructor.
        -- rewrite !schedule_app, Heq. by rewrite <- !app_assoc.
      * rewrite app_nil_r. unfold channelInv. rewrite Hq1' by done.
        cbn [bot1 processingChannels awaiting trace]. by split_and!.
    + (* no drain task: this call of processQueue becomes one *)
      set (bot2 := {| channelQueues := _; processingChannels := _;
                      awaiting := _; trace := _; errorLog := _ |}).
      destruct (no_tasks_when_idle _ _ _ (Hinv d) Hidle) as (Ht & Hq & Heq).
      assert (Hq2 : queueOf d bot2 = [m]).
      { change (queueOf d bot2) with (queueOf d bot1). by rewrite Hq1, Hq. }
      assert (Hcons : Forall (λ task, channelId (taskMessage task) = taskChannel task)
                        (awaiting bot)).
      { by destruct (Hinv d) as (_ & _ & _ & _ & ? & _). }
      destruct (bool_decide_reflect (d = c)) as [<-|Hdc].
      * apply drain_restores.
        -- cbn [bot2 processingChannels]. apply elem_of_union_l.
           by apply elem_of_singleton.
        -- done.
        -- rewrite Hq2. by repeat constructor.
        -- done.
        -- rewrite Hq2, schedule_app, Heq. done.
      * rewrite app_nil_r. apply drain_other; [congruence| |].
        -- rewrite Hq2. by repeat constructor.
        -- destruct (Hinv c) as (Hlen & Hproc & Hid & Hqc & _ & Heqc).
           unfold channelInv.
           change (queueOf c bot2) with (queueOf c bot1).
           rewrite Hq1' by congruence.
           cbn [bot2 processingChannels awaiting trace].
           split_and!; try done.
           ++ rewrite elem_of_union, elem_of_singleton. intuition congruence.
           ++ rewrite elem_of_union, elem_of_singleton. intuition congruence.
  - rewrite app_nil_r. by apply resume_invariant.
Qed.

(** The invariant holds after every run. *)
Lemma run_invariant (inputs : list Input) c :
  channelInv (arrivals config c inputs) (run config inputs) c.
Proof.
  revert c. induction inputs as [|input inputs IH] using rev_ind; intros c.
  - unfold channelInv, run, queueOf, initial.
    cbn [foldl channelQueues processingChannels awaiting trace].
    rewrite lookup_empty. split_and!; try done. simpl. lia.
  - unfold run. rewrite foldl_snoc, arrivals_snoc.
    apply (step_invariant _ input (λ c, arrivals config c inputs)). apply IH.
Qed.

End DispatcherFacts.




(** ** Failure isolation *)

Section DrainFacts.

Import Dispatcher.

Implicit Types (bot : Bot) (c : jsstring) (task : Task).





End DrainFacts.



(** ** Scenarios of the specification *)

(** One message "hello": the completion service answers "hi there" and one
    reply with that text is sent. *)
Example scenario_hello :
  Pipeline.processMessage Examples.config Examples.calm Examples.hello Examples.fresh
  = (Ok tt,
     {| events := [EvTyping (lit "general");
                   EvSend (lit "hello") [];
                   EvReply Chunk (lit "1") (lit "hi there")];
        files := ∅ |}).
Proof. vm_compute. reflexivity. Qed.

(** Two messages on one channel, the first of which is rejected: the second
    begins when the first has ended, and the channel is idle at the end. *)
Example scenario_two_messages :
  let bot := Dispatcher.run Examples.config
      [Dispatcher.Arrive Examples.hello; Dispatcher.Arrive Examples.again;
       Dispatcher.Settle 0 (Dispatcher.Rejected (JsError (lit "boom")));
       Dispatcher.Settle 0 Dispatcher.Fulfilled] in
  Dispatcher.trace bot
  = [Dispatcher.Begin Examples.hello; Dispatcher.End Examples.hello;
     Dispatcher.Begin Examples.again; Dispatcher.End Examples.again] /\
  Dispatcher.awaiting bot = [] /\
  elements (Dispatcher.processingChannels bot) = [] /\
  Dispatcher.errorLog bot = [lit "Unhandled queue error: boom"].
Proof. intros bot. split_and!; vm_compute; reflexivity. Qed.

(** 2500 characters of words separated by single spaces are cut at a space:
    the first chunk ends with a whole word. *)
Example scenario_split_at_space :
  length <$> Chunker.splitMessage (concat (replicate 500 (lit "word ")))
  = [1999; 500]%nat.
Proof. vm_compute. reflexivity. Qed.

(** The copy of [splitMessage] in [test/test.js] takes the limit as a
    parameter.  Below 500 the loop need not end: with a limit of 1 the
    boundary test [-1 > limit - 500] succeeds, [chunk.slice(0, -1)] is
    empty, and nothing is consumed. *)
Example splitMessageAt_small_limit (fuel : nat) :
  Chunker.splitMessageAt 1 fuel (lit "ab") = None.
Proof.
  unfold Chunker.splitMessageAt. change (len (lit "ab") <=? 1) with false.
  cbv iota. generalize (@nil jsstring).
  induction fuel as [|fuel IH]; intros chunks; [done|].
  cbn [Chunker.splitLoop]. change (0 <? len (lit "ab")) with true. cbv iota.
  change (Chunker.splitStep 1 (lit "ab")) with (@nil N, lit "ab").
  apply IH.
Qed.

(** ** Configuration *)

Section DecimalFacts.

Import Index.

Implicit Types (s t pad rest digits : jsstring) (c : N) (n : Z).

Lemma lit_cons (a : Ascii.ascii) (s : string) :
  lit (String a s) = Ascii.N_of_ascii a :: lit s.
Proof. done. Qed.

Lemma lit_app (s1 s2 : string) : lit (s1 +:+ s2) = lit s1 ++ lit s2.
Proof.
  induction s1 as [|a s1 IH]; [done|].
  change (lit (String a (s1 +:+ s2)) = lit (String a s1) ++ lit s2).
  by rewrite !lit_cons, IH.
Qed.

Lemma digit_char (d : N) :
  (d < 10)%N ->
  isDigit (Ascii.N_of_ascii (pretty_N_char d)) = true /\
  Z.of_N (Ascii.N_of_ascii (pretty_N_char d)) - 48 = Z.of_N d.
Proof.
  intros Hd.
  assert (d = 0 \/ d = 1 \/ d = 2 \/ d = 3 \/ d = 4 \/ d = 5 \/ d = 6 \/ d = 7
          \/ d = 8 \/ d = 9)%N as H by lia.
  repeat destruct H as [->|H]; try subst d; by vm_compute.
Qed.

(** The digits that [pretty] writes in front of [s] denote [x]. *)
Lemma pretty_N_go_digits (x : N) : forall s : string,
  exists digits,
    lit (pretty_N_go x s) = digits ++ lit s /\
    Forall (λ c, isDigit c = true) digits /\
    ((0 < x)%N -> digits ≠ []) /\
    forall acc, readDigits acc digits
                = acc * 10 ^ Z.of_nat (length digits) + Z.of_N x.
Proof.
  induction (N.lt_wf_0 x) as [x _ IH]; intros s.
  destruct (N.eq_dec x 0) as [->|Hx].
  - exists []. rewrite pretty_N_go_0. split_and!; [done|constructor|lia|].
    intros acc. simpl. lia.
  - rewrite pretty_N_go_step by lia.
    destruct (IH (x `div` 10)%N (N.div_lt x 10 ltac:(lia) ltac:(lia))
                (String (pretty_N_char (x `mod` 10)) s))
      as (digits & E & Hall & _ & Hval).
    pose proof (N.mod_lt x 10 ltac:(lia)) as Hmod.
    destruct (digit_char (x `mod` 10)%N Hmod) as [Hd Hv].
    exists (digits ++ [Ascii.N_of_ascii (pretty_N_char (x `mod` 10))]).
    rewrite E, lit_cons, <- app_assoc. split_and!; [done| | |].
    + apply Forall_app_2; [done|]. by repeat constructor.
    + intros _. by destruct digits.
    + intros acc. unfold readDigits in *. rewrite foldl_snoc, Hval, Hv.
      rewrite length_app. simpl length.
      replace (Z.of_nat (length digits + 1)) with (Z.of_nat (length digits) + 1) by lia.
      rewrite Z.pow_add_r by lia.
      pose proof (N.div_mod x 10 ltac:(lia)) as Hdm.
      apply (f_equal Z.of_N) in Hdm. rewrite N2Z.inj_add, N2Z.inj_mul in Hdm.
      change (Z.of_N 10) with 10 in Hdm. lia.
Qed.

(** [String(n)]: an optional minus sign and the decimal digits of [|n|]. *)
Lemma numberToString_digits n :
  exists digits,
    numberToString n = (if n <? 0 then [MINUS] else []) ++ digits /\
    digits ≠ [] /\
    Forall (λ c, isDigit c = true) digits /\
    digitsValue digits = Z.abs n.
Proof.
  unfold numberToString, digitsValue.
  destruct n as [|p|p].
  - exists [48%N]. split_and!; try done. by repeat constructor.
  - destruct (pretty_N_go_digits (N.pos p) "") as (digits & E & Hall & Hne & Hval).
    exists digits. split_and!; [|apply Hne; lia|done|rewrite Hval; simpl; lia].
    change (pretty (Z.pos p)) with (pretty_N_go (N.pos p) "").
    rewrite E. simpl. by rewrite app_nil_r.
  - destruct (pretty_N_go_digits (N.pos p) "") as (digits & E & Hall & Hne & Hval).
    exists digits. split_and!; [|apply Hne; lia|done|rewrite Hval; simpl; lia].
    change (pretty (Z.neg p)) with ("-" +:+ pretty_N_go (N.pos p) "").
    rewrite lit_app, E. simpl. by rewrite app_nil_r.
Qed.

Lemma digit_not_space c : isDigit c = true -> isWhiteSpace c = false.
Proof.
  unfold isDigit, isWhiteSpace. intros [H1 H2]%andb_true_iff.
  apply N.leb_le in H1, H2.
  repeat match goal with
         | |- context [(?a <=? ?b)%N] => destruct (N.leb_spec a b)
         | |- context [(?a =? ?b)%N] => destruct (N.eqb_spec a b)
         end; try done; lia.
Qed.

Lemma digit_not_sign c : isDigit c = true -> c ≠ MINUS /\ c ≠ PLUS.
Proof.
  unfold isDigit, MINUS, PLUS. intros [H1 H2]%andb_true_iff.
  apply N.leb_le in H1, H2. lia.
Qed.

Lemma leadingDigits_app digits rest :
  Forall (λ c, isDigit c = true) digits ->
  (forall c, head rest = Some c -> isDigit c = false) ->
  leadingDigits (digits ++ rest) = digits.
Proof.
  intros Hd Hrest. induction Hd as [|c digits Hc _ IH]; simpl.
  - destruct rest as [|c rest]; [done|]. simpl. by rewrite (Hrest c).
  - by rewrite Hc, IH.
Qed.

Lemma leadingDigits_none rest :
  (forall c, head rest = Some c -> isDigit c = false) -> leadingDigits rest = [].
Proof. apply (leadingDigits_app [] rest). constructor. Qed.

(** [parseInt] reads back what [String] writes, whatever whitespace comes
    before it and whatever follows it that is not a digit. *)
Lemma parseInt_decimal pad n rest :
  allWhiteSpace pad ->
  (forall c, head rest = Some c -> isDigit c = false) ->
  parseInt (pad ++ numberToString n ++ rest) = Some n.
Proof.
  intros Hpad Hrest. unfold parseInt. rewrite trimStart_leading by done.
  destruct (numberToString_digits n) as (digits & -> & Hne & Hall & Hval).
  destruct digits as [|d digits]; [done|].
  pose proof (Forall_inv Hall) as Hd.
  destruct (digit_not_sign d Hd) as [Hm Hp].
  destruct (Z.ltb_spec n 0) as [Hneg|Hpos].
  - cbn [app trimStart]. change (isWhiteSpace MINUS) with false. cbv iota.
    rewrite N.eqb_refl.
    change (d :: digits ++ rest) with ((d :: digits) ++ rest).
    rewrite leadingDigits_app by done.
    rewrite Hval. f_equal. lia.
  - cbn [app trimStart]. rewrite (digit_not_space d Hd).
    destruct (N.eqb_spec d MINUS); [done|].
    destruct (N.eqb_spec d PLUS); [done|].
    change (d :: digits ++ rest) with ((d :: digits) ++ rest).
    rewrite leadingDigits_app by done.
    rewrite Hval. f_equal. lia.
Qed.

(** [parseInt] gives [NaN] when no digit follows the optional sign. *)
Lemma parseInt_NaN pad sign rest :
  allWhiteSpace pad ->
  (sign = [MINUS] \/ sign = [PLUS] \/
   (sign = [] /\ forall c, head rest = Some c ->
                   isWhiteSpace c = false /\ c ≠ MINUS /\ c ≠ PLUS)) ->
  (forall c, head rest = Some c -> isDigit c = false) ->
  parseInt (pad ++ sign ++ rest) = None.
Proof.
  intros Hpad Hsign Hrest. unfold parseInt. rewrite trimStart_leading by done.
  destruct Hsign as [->|[->|[-> Hhead]]].
  - cbn [app trimStart]. change (isWhiteSpace MINUS) with false. cbv iota.
    rewrite N.eqb_refl. by rewrite leadingDigits_none.
  - cbn [app trimStart]. change (isWhiteSpace PLUS) with false. cbv iota.
    change (PLUS =? MINUS)%N with false. cbv iota.
    rewrite N.eqb_refl. by rewrite leadingDigits_none.
  - cbn [app]. destruct rest as [|c rest]; [done|].
    destruct (Hhead c eq_refl) as (Hws & Hm & Hp).
    cbn [trimStart]. rewrite Hws.
    destruct (N.eqb_spec c MINUS); [done|].
    destruct (N.eqb_spec c PLUS); [done|].
    by rewrite leadingDigits_none.
Qed.

Lemma numberToString_nonempty n : numberToString n ≠ [].
Proof.
  destruct (numberToString_digits n) as (digits & -> & Hne & _).
  destruct (n <? 0); [done|]. by destruct digits.
Qed.

Lemma int_unset (penv : ProcessEnv) (key : string) (fallback : Z) :
  getenv penv key = None -> int penv key fallback = fallback.
Proof.
  intros Hk. unfold int. rewrite Hk. cbn [default from_option id].
  pose proof (parseInt_decimal [] fallback []) as H. simpl in H.
  rewrite app_nil_r in H. rewrite H; [done|constructor|done].
Qed.

End DecimalFacts.

Section ListFacts.

Import Index.

Implicit Types (s t cur piece rest : jsstring) (c sep : N)
  (pieces : list jsstring).

(** What [trim] removes is whitespace at both ends, and what it leaves
    neither starts nor ends with whitespace. *)
Lemma trim_spec s :
  exists pre post,
    s = pre ++ trim s ++ post /\ allWhiteSpace pre /\ allWhiteSpace post /\
    (forall c, head (trim s) = Some c -> isWhiteSpace c = false) /\
    (forall c, last (trim s) = Some c -> isWhiteSpace c = false).
Proof.
  unfold trim, trimEnd. set (q := trimStart s).
  exists (leadingWs s), (reverse (leadingWs (reverse q))).
  assert (Hq : q = reverse (trimStart (reverse q)) ++ reverse (leadingWs (reverse q))).
  { rewrite <- reverse_app, trimStart_leadingWs. by rewrite reverse_involutive. }
  split_and!.
  - rewrite <- Hq. unfold q. by rewrite trimStart_leadingWs.
  - apply leadingWs_Forall.
  - apply Forall_reverse, leadingWs_Forall.
  - intros c Hc. apply head_Some in Hc as [t Ht].
    rewrite Ht in Hq. unfold q in Hq. by apply trimStart_head in Hq.
  - intros c Hc. rewrite last_reverse in Hc.
    apply head_Some in Hc as [t Ht]. by apply trimStart_head in Ht.
Qed.

Lemma elem_of_trim c s : c ∈ trim s -> c ∈ s.
Proof.
  intros Hc. destruct (trim_spec s) as (pre & post & E & _).
  rewrite E, !elem_of_app. auto.
Qed.

Lemma splitFrom_piece sep cur piece rest :
  sep ∉ piece ->
  splitFrom sep cur (piece ++ rest) = splitFrom sep (cur ++ piece) rest.
Proof.
  revert cur. induction piece as [|c piece IH]; intros cur Hsep.
  - by rewrite app_nil_r.
  - apply not_elem_of_cons in Hsep as [Hc Hsep]. simpl.
    destruct (N.eqb_spec c sep); [congruence|].
    rewrite IH by done. by rewrite <- app_assoc.
Qed.

(** [split] undoes [join] when no piece contains the separator. *)
Lemma split_join sep pieces :
  pieces ≠ [] -> Forall (λ piece, sep ∉ piece) pieces ->
  split (join [sep] pieces) sep = pieces.
Proof.
  unfold split. intros Hne Hall.
  induction Hall as [|piece pieces Hp Hall IH]; [done|].
  destruct pieces as [|q pieces].
  - simpl. rewrite <- (app_nil_r piece) at 1.
    rewrite splitFrom_piece by done. done.
  - rewrite join_cons, splitFrom_piece by done. cbn [app splitFrom].
    rewrite N.eqb_refl. f_equal. by apply IH.
Qed.

Lemma join_empty sep pieces :
  join [sep] pieces = [] -> pieces = [] \/ pieces = [[]].
Proof.
  destruct pieces as [|p [|q pieces]]; [by left| |].
  - simpl. intros ->. by right.
  - rewrite join_cons. by destruct p.
Qed.

(** The list that [loadConfig] reads from a comma-separated value. *)
Lemma blacklist_join (penv : ProcessEnv) pieces :
  penv !! "BLACKLISTED_CHANNEL_IDS"%string = Some (join [COMMA] pieces) ->
  Forall (λ piece, COMMA ∉ piece) pieces ->
  blacklist penv = filter (λ id, id ≠ []) (trim <$> pieces).
Proof.
  intros Hv Hall. unfold blacklist, getenv. rewrite Hv.
  destruct (join [COMMA] pieces) as [|c v] eqn:Ej.
  - apply join_empty in Ej as [-> | ->]; done.
  - cbn [default from_option id]. rewrite <- Ej. rewrite split_join; [done| |done].
    by intros ->.
Qed.

Lemma ignored_blacklisted (config : Config) (m : Message) :
  channelId m ∈ BLACKLISTED_CHANNELS config -> Dispatcher.ignored config m = true.
Proof.
  intros Hin. unfold Dispatcher.ignored.
  rewrite (bool_decide_eq_true_2 _ Hin).
  by rewrite !orb_true_r.
Qed.

End ListFacts.

(** X1.  [loadConfig] ends the process with code 1 exactly when the Discord
    token or the guild identifier is unset or empty, after one error line
    for each of them, the token first.  Otherwise the configuration carries
    the two values, and neither is empty. *)
Theorem loadConfig_required (penv : Index.ProcessEnv) :
  match Index.loadConfig penv with
  | Index.Exit code errors =>
      code = 1 /\ errors ≠ [] /\
      errors
      = match Index.getenv penv "DISCORD_TOKEN" with
        | Some _ => []
        | None => [lit "Missing required variable: DISCORD_TOKEN"]
        end
        ++ match Index.getenv penv "DISCORD_GUILD_ID" with
           | Some _ => []
           | None => [lit "Missing required variable: DISCORD_GUILD_ID"]
           end
  | Index.Started (token, config) =>
      penv !! "DISCORD_TOKEN"%string = Some token /\ token ≠ [] /\
      penv !! "DISCORD_GUILD_ID"%string = Some (DISCORD_GUILD_ID config) /\
      DISCORD_GUILD_ID config ≠ []
  end.
Proof.
  unfold Index.loadConfig, Index.missing, Index.REQUIRED.
  destruct (Index.getenv penv "DISCORD_TOKEN") as [token|] eqn:Et;
    destruct (Index.getenv penv "DISCORD_GUILD_ID") as [guild|] eqn:Eg.
  - rewrite filter_cons_False by (rewrite Et; by intros ?).
    rewrite filter_cons_False by (rewrite Eg; by intros ?).
    rewrite filter_nil. unfold Index.getenv in Et, Eg.
    destruct (penv !! "DISCORD_TOKEN"%string) as [[|c t]|]; try done.
    destruct (penv !! "DISCORD_GUILD_ID"%string) as [[|d g]|]; try done.
  - rewrite filter_cons_False by (rewrite Et; by intros ?).
    rewrite filter_cons_True by done. rewrite filter_nil. by split_and!.
  - rewrite filter_cons_True by done.
    rewrite filter_cons_False by (rewrite Eg; by intros ?).
    rewrite filter_nil. by split_and!.
  - rewrite !filter_cons_True by done. rewrite filter_nil. by split_and!.
Qed.

(** X2.  A numeric setting is read back from its decimal notation: when
    the variable holds the decimal numeral of [n], possibly after
    whitespace and followed by anything that does not start with a digit,
    [int] returns [n], whatever the fallback.  ([n] is taken below [2^53],
    where JavaScript Numbers are exact.) *)
Theorem int_reads_decimal (penv : Index.ProcessEnv) (key : string)
    (fallback n : Z) (pad rest : jsstring) :
  Z.abs n < 2 ^ 53 ->
  allWhiteSpace pad ->
  (forall c, head rest = Some c -> Index.isDigit c = false) ->
  penv !! key = Some (pad ++ numberToString n ++ rest) ->
  Index.int penv key fallback = n.
Proof.
  intros _ Hpad Hrest Hv. unfold Index.int, Index.getenv. rewrite Hv.
  destruct (pad ++ numberToString n ++ rest) as [|c v] eqn:E.
  - exfalso. apply app_eq_nil in E as [_ E]. apply app_eq_nil in E as [E _].
    by apply numberToString_nonempty in E.
  - cbn [default from_option id]. rewrite <- E.
    by rewrite parseInt_decimal.
Qed.

Lemma int_reads_decimal_witness :
  Index.int {[ "MAX_IMAGE_SIZE_MB"%string := lit " 12MB" ]} "MAX_IMAGE_SIZE_MB" 5 = 12 /\
  Index.int {[ "CONTEXT_MESSAGE_COUNT"%string := lit "0" ]} "CONTEXT_MESSAGE_COUNT" 5 = 0.
Proof.
  split.
  - apply (int_reads_decimal _ _ 5 12 (lit " ") (lit "MB")).
    + vm_compute. reflexivity.
    + by repeat constructor.
    + intros c [= <-]. reflexivity.
    + vm_compute. reflexivity.
  - apply (int_reads_decimal _ _ 5 0 [] []).
    + vm_compute. reflexivity.
    + constructor.
    + intros c [=].
    + vm_compute. reflexivity.
Defined.

(** X3.  [int] returns the fallback when the variable is unset or empty,
    and when its value is not a number: after leading whitespace and at
    most one sign, no digit follows. *)
Theorem int_falls_back (penv : Index.ProcessEnv) (key : string) (fallback : Z) :
  (Index.getenv penv key = None -> Index.int penv key fallback = fallback) /\
  (forall pad sign rest,
     penv !! key = Some (pad ++ sign ++ rest) ->
     allWhiteSpace pad ->
     (sign = [Index.MINUS] \/ sign = [Index.PLUS] \/
      (sign = [] /\ forall c, head rest = Some c ->
                      isWhiteSpace c = false /\ c ≠ Index.MINUS /\ c ≠ Index.PLUS)) ->
     (forall c, head rest = Some c -> Index.isDigit c = false) ->
     Index.int penv key fallback = fallback).
Proof.
  split; [apply int_unset|].
  intros pad sign rest Hv Hpad Hsign Hrest.
  destruct (pad ++ sign ++ rest) as [|c v] eqn:E.
  - apply int_unset. unfold Index.getenv. by rewrite Hv.
  - unfold Index.int, Index.getenv. rewrite Hv. cbn [default from_option id].
    rewrite <- E. by rewrite parseInt_NaN.
Qed.

Lemma int_falls_back_witness :
  Index.int ∅ "CONTEXT_MESSAGE_COUNT" 5 = 5 /\
  Index.int {[ "CONTEXT_MESSAGE_COUNT"%string := lit "-many" ]}
    "CONTEXT_MESSAGE_COUNT" 5 = 5.
Proof.
  split.
  - apply (proj1 (int_falls_back ∅ "CONTEXT_MESSAGE_COUNT" 5)). reflexivity.
  - apply (proj2 (int_falls_back _ "CONTEXT_MESSAGE_COUNT" 5)
             [] [Index.MINUS] (lit "many")).
    + vm_compute. reflexivity.
    + constructor.
    + by left.
    + intros c [= <-]. reflexivity.
Defined.

(** X4.  The blacklist is read back from its comma-separated notation:
    each identifier with the whitespace around it removed, empty entries
    dropped, in the order written.  No entry is empty, starts or ends with
    whitespace, or contains a comma; and [onMessage] ignores every message
    of a channel that is listed. *)
Theorem blacklist_reads_list (penv : Index.ProcessEnv) (pieces : list jsstring)
    (token : jsstring) (config : Config) :
  penv !! "BLACKLISTED_CHANNEL_IDS"%string = Some (join [Index.COMMA] pieces) ->
  Forall (λ piece, Index.COMMA ∉ piece) pieces ->
  Index.loadConfig penv = Index.Started (token, config) ->
  BLACKLISTED_CHANNELS config = filter (λ id, id ≠ []) (trim <$> pieces) /\
  Forall (λ id, id ≠ [] /\ (Index.COMMA ∉ id) /\
                (forall c, head id = Some c -> isWhiteSpace c = false) /\
                (forall c, last id = Some c -> isWhiteSpace c = false))
         (BLACKLISTED_CHANNELS config) /\
  (forall m, channelId m ∈ filter (λ id, id ≠ []) (trim <$> pieces) ->
             Dispatcher.ignored config m = true).
Proof.
  intros Hv Hall Hload.
  assert (Hb : BLACKLISTED_CHANNELS config = Index.blacklist penv).
  { unfold Index.loadConfig in Hload.
    destruct (Index.missing penv); [|done]. by injection Hload as _ <-. }
  rewrite Hb, (blacklist_join penv pieces Hv Hall). split_and!; [done| |].
  - apply Forall_forall. intros id [Hne Hin]%list_elem_of_filter.
    apply list_elem_of_fmap in Hin as (piece & -> & Hin).
    rewrite Forall_forall in Hall.
    destruct (trim_spec piece) as (pre & post & _ & _ & _ & Hh & Hl).
    split_and!; try done.
    intros Hc%elem_of_trim. by apply (Hall piece).
  - intros m Hm. apply ignored_blacklisted.
    by rewrite Hb, (blacklist_join penv pieces Hv Hall).
Qed.

Lemma blacklist_reads_list_witness :
  exists token config,
    Index.loadConfig Scenarios.dotenv = Index.Started (token, config) /\
    BLACKLISTED_CHANNELS config = [lit "spam"; lit "bots"; lit "random"] /\
    Dispatcher.ignored config (Examples.message "9" "bots" "hi" []) = true.
Proof.
  eexists _, _. split; [vm_compute; reflexivity|].
  assert (Hall : Forall (λ piece, Index.COMMA ∉ piece)
                   [lit "spam"; lit " bots "; []; lit "random"]).
  { repeat constructor; apply (bool_decide_unpack _); vm_compute; exact I. }
  destruct (blacklist_reads_list Scenarios.dotenv
              [lit "spam"; lit " bots "; []; lit "random"] _ _
              eq_refl Hall eq_refl) as (Hlist & _ & Hignored).
  split.
  - etransitivity; [exact Hlist|]. vm_compute. reflexivity.
  - apply Hignored. apply (bool_decide_unpack _). vm_compute. exact I.
Defined.

(** X5.  The defaults of the optional settings.  With the two required
    variables set, the channel restriction, the blacklist and the two
    numbers unset or empty, the reply-to-bots switch anything but [true]
    and the image switch anything but [false], the configuration is: no
    channel restriction, an empty blacklist, no replies to bots, a context
    window of 5, image forwarding on, and a ceiling of 5 MB. *)
Theorem loadConfig_defaults (penv : Index.ProcessEnv) (token guild : jsstring) :
  penv !! "DISCORD_TOKEN"%string = Some token -> token ≠ [] ->
  penv !! "DISCORD_GUILD_ID"%string = Some guild -> guild ≠ [] ->
  Index.getenv penv "DISCORD_CHANNEL_ID" = None ->
  Index.getenv penv "BLACKLISTED_CHANNEL_IDS" = None ->
  penv !! "REPLY_TO_BOT"%string ≠ Some (lit "true") ->
  Index.getenv penv "CONTEXT_MESSAGE_COUNT" = None ->
  penv !! "IMAGE_SUPPORT"%string ≠ Some (lit "false") ->
  Index.getenv penv "MAX_IMAGE_SIZE_MB" = None ->
  Index.loadConfig penv
  = Index.Started
      (token,
       {| DISCORD_GUILD_ID := guild;
          DISCORD_CHANNEL_ID := None;
          BLACKLISTED_CHANNELS := [];
          REPLY_TO_BOT := false;
          CONTEXT_MESSAGE_COUNT := 5;
          IMAGE_SUPPORT := true;
          MAX_IMAGE_SIZE_MB := 5 |}).
Proof.
  intros Ht Htne Hg Hgne Hc Hb Hr Hn Hi Hm.
  unfold Index.loadConfig, Index.missing, Index.REQUIRED, Index.blacklist.
  assert (Index.getenv penv "DISCORD_TOKEN" = Some token) as Et.
  { unfold Index.getenv. rewrite Ht. by destruct token. }
  assert (Index.getenv penv "DISCORD_GUILD_ID" = Some guild) as Eg.
  { unfold Index.getenv. rewrite Hg. by destruct guild. }
  rewrite filter_cons_False by (rewrite Et; by intros ?).
  rewrite filter_cons_False by (rewrite Eg; by intros ?).
  rewrite filter_nil, Ht, Hg, Hc, Hb.
  rewrite (int_unset _ _ _ Hn), (int_unset _ _ _ Hm).
  rewrite (bool_decide_eq_false_2 _ Hr), (bool_decide_eq_false_2 _ Hi).
  done.
Qed.

Lemma loadConfig_defaults_witness :
  Index.loadConfig Scenarios.minimal
  = Index.Started
      (lit "token",
       {| DISCORD_GUILD_ID := lit "guild";
          DISCORD_CHANNEL_ID := None;
          BLACKLISTED_CHANNELS := [];
          REPLY_TO_BOT := false;
          CONTEXT_MESSAGE_COUNT := 5;
          IMAGE_SUPPORT := true;
          MAX_IMAGE_SIZE_MB := 5 |}).
Proof.
  apply (loadConfig_defaults Scenarios.minimal (lit "token") (lit "guild"));
    try (vm_compute; reflexivity); try discriminate.
Defined.

(** ** The prompt *)

Lemma filter_none {A} (P : A -> Prop) `{!forall a, Decision (P a)} (l : list A) :
  Forall (λ a, ~ P a) l -> filter P l = [].
Proof.
  induction 1 as [|a l Ha _ IH]; [done|]. by rewrite filter_cons_False.
Qed.

Section PromptFacts.

Import Pipeline.

Implicit Types (m x : Message) (sorted history context : list Message) (t : Z).

Lemma insertByTime_perm m sorted : insertByTime m sorted ≡ₚ m :: sorted.
Proof.
  induction sorted as [|x sorted IH]; [done|]. simpl.
  destruct (createdTimestamp m <? createdTimestamp x); [done|].
  rewrite IH. apply Permutation_swap.
Qed.

Lemma insertByTime_sorted m sorted :
  StronglySorted byTime sorted -> StronglySorted byTime (insertByTime m sorted).
Proof.
  induction 1 as [|x sorted Hs IH Hx]; simpl.
  - by repeat constructor.
  - destruct (Z.ltb_spec (createdTimestamp m) (createdTimestamp x)) as [Hlt|Hge].
    + constructor; [by constructor|]. constructor; [unfold byTime; lia|].
      eapply Forall_impl; [exact Hx|]. unfold byTime. simpl. lia.
    + constructor; [done|]. rewrite insertByTime_perm. by constructor.
Qed.

(** [insertByTime] puts [m] behind the messages of the same time. *)
Lemma insertByTime_stable m sorted t :
  StronglySorted byTime sorted ->
  filter (λ x, createdTimestamp x = t) (insertByTime m sorted)
  = filter (λ x, createdTimestamp x = t) (sorted ++ [m]).
Proof.
  induction 1 as [|x sorted Hs IH Hx]; [done|]. simpl.
  destruct (Z.ltb_spec (createdTimestamp m) (createdTimestamp x)) as [Hlt|Hge].
  - destruct (decide (createdTimestamp m = t)) as [Ht|Ht].
    + rewrite (filter_cons_True _ m) by done.
      change (x :: sorted ++ [m]) with ((x :: sorted) ++ [m]).
      rewrite filter_app, (filter_cons_True _ m) by done.
      rewrite (filter_none _ (x :: sorted)); [done|].
      constructor; [lia|].
      eapply Forall_impl; [exact Hx|]. unfold byTime. simpl. lia.
    + rewrite (filter_cons_False _ m) by done.
      change (x :: sorted ++ [m]) with ((x :: sorted) ++ [m]).
      rewrite filter_app, (filter_cons_False _ m) by done.
      by rewrite app_nil_r.
  - destruct (decide (createdTimestamp x = t)) as [Ht|Ht].
    + rewrite !(filter_cons_True _ x) by done. by rewrite IH.
    + rewrite !(filter_cons_False _ x) by done. by rewrite IH.
Qed.

(** [sort] by time: a stable sort. *)
Lemma sort_from history : forall sorted,
  StronglySorted byTime sorted ->
  let result := foldl (λ sorted m, insertByTime m sorted) sorted history in
  result ≡ₚ sorted ++ history /\
  StronglySorted byTime result /\
  forall t, filter (λ x, createdTimestamp x = t) result
          = filter (λ x, createdTimestamp x = t) (sorted ++ history).
Proof.
  induction history as [|m history IH]; intros sorted Hs; simpl.
  - rewrite app_nil_r. by split_and!.
  - destruct (IH (insertByTime m sorted) (insertByTime_sorted m sorted Hs))
      as (Hperm & Hsorted & Hstable).
    split_and!; [|done|].
    + rewrite Hperm, insertByTime_perm. simpl. apply Permutation_middle.
    + intros t. change (m :: history) with ([m] ++ history).
      rewrite Hstable, !filter_app, insertByTime_stable by done.
      by rewrite filter_app, <- app_assoc.
Qed.

Lemma sortByTime_spec history :
  sortByTime history ≡ₚ history /\
  StronglySorted byTime (sortByTime history) /\
  forall t, filter (λ x, createdTimestamp x = t) (sortByTime history)
          = filter (λ x, createdTimestamp x = t) history.
Proof. apply (sort_from history []). constructor. Qed.

Lemma render_nonempty m : render m ≠ [].
Proof. unfold render. by destruct (authorUsername m). Qed.

Lemma join_lines_nonempty x context : join [LF] (render <$> x :: context) ≠ [].
Proof.
  destruct context as [|y context]; simpl.
  - apply render_nonempty.
  - pose proof (render_nonempty x). by destruct (render x).
Qed.

Lemma formatPrompt_sorted (message : Message) history :
  formatPrompt message history
  = match sortByTime (filter (λ m, messageId m ≠ messageId message) history) with
    | [] => content message
    | context =>
        join [LF] (render <$> context) ++ [LF] ++ render message
    end.
Proof.
  unfold formatPrompt.
  destruct (sortByTime _) as [|x context]; [done|].
  pose proof (join_lines_nonempty x context) as Hne.
  by destruct (join [LF] (render <$> x :: context)).
Qed.

End PromptFacts.

(** X6.  The prompt lists the context oldest first.  The context lines are
    the fetched messages other than the one being answered, each once, in
    the order of their creation times, messages of the same time in the
    order in which they were fetched; the message being answered comes
    last, with its author; without context the prompt is its bare text. *)
Theorem formatPrompt_context (message : Message) (history : list Message) :
  let others := filter (λ m, messageId m ≠ messageId message) history in
  exists context,
    context ≡ₚ others /\
    StronglySorted byTime context /\
    (forall t, filter (λ m, createdTimestamp m = t) context
             = filter (λ m, createdTimestamp m = t) others) /\
    Pipeline.formatPrompt message history
    = match context with
      | [] => content message
      | _ => join [LF] (Pipeline.render <$> context)
               ++ [LF] ++ Pipeline.render message
      end.
Proof.
  intros others. exists (Pipeline.sortByTime others).
  destruct (sortByTime_spec others) as (Hperm & Hsorted & Hstable).
  split_and!; [done|done|done|]. rewrite formatPrompt_sorted. fold others.
  by destruct (Pipeline.sortByTime others).
Qed.

(** X7.  The bare text of the message is the prompt exactly when no other
    message was fetched: every message of the history is the one being
    answered. *)
Theorem formatPrompt_plain (message : Message) (history : list Message) :
  Pipeline.formatPrompt message history = content message <->
  Forall (λ m, messageId m = messageId message) history.
Proof.
  rewrite formatPrompt_sorted.
  set (others := filter (λ m, messageId m ≠ messageId message) history).
  destruct (sortByTime_spec others) as (Hperm & _ & _).
  assert (Hothers : others = [] <-> Forall (λ m, messageId m = messageId message) history).
  { unfold others. split.
    - intros Hnil. apply Forall_forall. intros m Hm.
      destruct (decide (messageId m = messageId message)) as [|Hne]; [done|].
      exfalso. eapply (filter_nil_not_elem_of _ history m Hnil); [exact Hne|done].
    - intros Hall. apply filter_none. eapply Forall_impl; [exact Hall|].
      simpl. intros m Hm Hne. done. }
  rewrite <- Hothers.
  destruct (Pipeline.sortByTime others) as [|x context] eqn:Es.
  - split; [|done]. intros _. by apply Permutation_nil_l in Hperm.
  - split.
    + intros Heq. exfalso. apply (f_equal length) in Heq.
      unfold Pipeline.render in Heq at 2. rewrite !length_app in Heq.
      simpl in Heq. lia.
    + intros Hnil. rewrite Hnil in Hperm. by apply Permutation_nil_r in Hperm.
Qed.

(** ** More about the chunks *)

Section ChunkCount.

Import Chunker.

Variable limit : Z.
Hypothesis limit_ge : 500 <= limit.

Implicit Types (remaining chunk rest : jsstring) (chunks gaps : list jsstring).

(** Every iteration consumes [limit - 499] units or the whole remainder,
    so the loop appends at most [ceil(L / (limit - 499))] chunks. *)
Lemma splitLoop_count fuel : forall chunks remaining out,
  splitLoop limit fuel chunks remaining = Some out ->
  exists new, out = chunks ++ new /\
    Z.of_nat (length new) <= (len remaining + limit - 500) / (limit - 499) /\
    len (concat new) <= len remaining.
Proof.
  induction fuel as [|fuel IH]; intros chunks remaining out; cbn [splitLoop].
  all: destruct (Z.ltb_spec 0 (len remaining)) as [Hp|Hz]; [|intros [= <-]].
  all: try (exists []; rewrite app_nil_r; split_and!; [done| |simpl; apply len_nonneg];
            simpl; apply Z.div_pos; pose proof (len_nonneg remaining); lia).
  assert (Hne : remaining ≠ []) by by apply len_pos_iff.
  destruct (splitStep limit remaining) as [chunk rest] eqn:E.
  destruct (splitStep_chunk limit limit_ge _ _ _ Hne E) as (Hc & Hr & Hmin).
  intros H. apply IH in H as (new & -> & Hcount & Hsum).
  exists (chunk :: new). rewrite <- app_assoc. split_and!; [done| |].
  - simpl length. rewrite Nat2Z.inj_succ.
    pose proof (len_nonneg rest) as Hrest.
    set (k := limit - 499) in *.
    assert (Hk : 0 < k) by (unfold k; lia).
    replace (len remaining + limit - 500) with (len remaining + k - 1)
      by (unfold k; lia).
    replace (len rest + limit - 500) with (len rest + k - 1) in Hcount
      by (unfold k; lia).
    destruct (Z.le_gt_cases (len remaining) k) as [Hsmall|Hbig].
    + assert (len rest = 0) as Hz by lia. rewrite Hz in Hcount.
      rewrite Z.div_small in Hcount by lia.
      assert (1 <= (len remaining + k - 1) / k); [|lia].
      apply Z.div_le_lower_bound; lia.
    + assert ((len rest + k - 1) / k <= (len remaining - k + k - 1) / k) as Hle.
      { apply Z.div_le_mono; lia. }
      replace (len remaining + k - 1) with ((len remaining - k + k - 1) + 1 * k) by lia.
      rewrite Z.div_add by lia. lia.
  - cbn [concat]. rewrite len_app. lia.
Qed.

(** What the loop appends is the remainder with runs of whitespace taken
    out behind the chunks; every chunk but the first starts clean, and the
    first does when the remainder does. *)
Lemma splitLoop_gaps fuel : forall chunks remaining out,
  splitLoop limit fuel chunks remaining = Some out ->
  exists new gaps, out = chunks ++ new /\
    length gaps = length new /\
    Forall allWhiteSpace gaps /\
    remaining = concat (zip_with app new gaps) /\
    Forall startsClean (drop 1 new) /\
    (startsClean remaining -> Forall startsClean new).
Proof.
  induction fuel as [|fuel IH]; intros chunks remaining out; cbn [splitLoop].
  all: destruct (Z.ltb_spec 0 (len remaining)) as [Hp|Hz]; [|intros [= <-]].
  all: try (exists [], []; rewrite app_nil_r;
            assert (remaining = []) as ->
              by (destruct remaining; [done|unfold len in Hz; simpl in Hz; lia]);
            by split_and!).
  - done.
  - assert (Hne : remaining ≠ []) by by apply len_pos_iff.
    destruct (splitStep limit remaining) as [chunk rest] eqn:E.
    destruct (splitStep_decomp limit limit_ge _ _ _ Hne E) as (d & Hrem & Hd & Hrest).
    destruct (splitStep_chunk limit limit_ge _ _ _ Hne E) as (Hc & _ & _).
    intros H. apply IH in H as (new & gaps & -> & Hlen & Hgaps & Hcat & _ & Hclean).
    exists (chunk :: new), (d :: gaps). rewrite <- app_assoc.
    split_and!; [done|simpl; lia|by constructor| | |].
    + cbn [zip_with concat]. rewrite <- Hcat, <- app_assoc. done.
    + cbn [drop]. by apply Hclean.
    + intros Hstart. constructor; [|by apply Hclean].
      intros c Hch. apply Hstart. rewrite Hrem.
      destruct chunk; [done|]. done.
Qed.

End ChunkCount.

(** X8.  The number of replies that an answer costs: one when the text
    fits into a message, and otherwise at least one and at most
    [ceil(L / 1501)], for a text of [L] units; the chunks together are no
    longer than the text. *)
Theorem splitMessage_count (content : jsstring) :
  let chunks := Chunker.splitMessage content in
  (1 <= length chunks)%nat /\
  Z.of_nat (length chunks) <= Z.max 1 ((len content + 1500) / 1501) /\
  len (concat chunks) <= len content.
Proof.
  intros chunks. unfold chunks.
  destruct (Z.le_gt_cases (len content) DISCORD_MSG_LIMIT) as [Hs|Hl].
  - rewrite splitMessage_short by done. cbn [length concat]. rewrite app_nil_r.
    split_and!; [lia|apply Z.le_max_l|lia].
  - pose proof (splitMessage_long content ltac:(lia)) as Hloop.
    destruct (splitLoop_chunks _ limit_ge_500 _ _ _ _ Hloop) as (new' & E' & _ & Hne).
    apply (splitLoop_count _ limit_ge_500) in Hloop as (new & E & Hcount & Hsum).
    simpl in E, E'. rewrite E in *. subst new'.
    unfold DISCORD_MSG_LIMIT in *.
    replace (len content + 2000 - 500) with (len content + 1500) in Hcount by lia.
    change (2000 - 499) with 1501 in Hcount.
    split_and!; [|lia|done].
    destruct new; [|simpl; lia]. exfalso. apply Hne; [|done].
    apply len_pos_iff. lia.
Qed.

(** X9.  Nothing but whitespace is lost between the chunks, and nothing is
    reordered: the text is the chunks in order, each followed by a run of
    whitespace (possibly empty) that was dropped.  No chunk after the first
    starts with whitespace. *)
Theorem splitMessage_gaps (content : jsstring) :
  let chunks := Chunker.splitMessage content in
  exists gaps,
    length gaps = length chunks /\
    Forall allWhiteSpace gaps /\
    content = concat (zip_with app chunks gaps) /\
    (forall i chunk c,
       chunks !! S i = Some chunk -> head chunk = Some c ->
       isWhiteSpace c = false).
Proof.
  intros chunks. unfold chunks.
  destruct (Z.le_gt_cases (len content) DISCORD_MSG_LIMIT) as [Hs|Hl].
  - rewrite splitMessage_short by done. exists [[]].
    split_and!; [done|by repeat constructor|simpl; by rewrite !app_nil_r|].
    intros i chunk c Hi. by destruct i.
  - pose proof (splitMessage_long content ltac:(lia)) as Hloop.
    apply (splitLoop_gaps _ limit_ge_500) in Hloop
      as (new & gaps & E & Hlen & Hgaps & Hcat & Hclean & _).
    simpl in E. rewrite E. exists gaps. split_and!; [done|done|done|].
    intros i chunk c Hi Hc. rewrite Forall_lookup in Hclean.
    apply (Hclean i chunk); [|done]. by rewrite lookup_drop.
Qed.

(** X10.  The copy of [splitMessage] in the tests, which takes the limit as
    a parameter, terminates for every limit of 500 or more: with one
    iteration per code unit the loop returns, always the same chunks, none
    longer than the limit and, for a text that is not empty, none empty. *)
Theorem splitMessageAt_terminates (limit : Z) (content : jsstring) :
  500 <= limit ->
  exists chunks,
    (forall fuel, (length content <= fuel)%nat ->
       Chunker.splitMessageAt limit fuel content = Some chunks) /\
    chunks ≠ [] /\
    Forall (λ chunk, len chunk <= limit) chunks /\
    (content ≠ [] -> Forall (λ chunk, chunk ≠ []) chunks).
Proof.
  intros Hlimit. unfold Chunker.splitMessageAt.
  destruct (Z.leb_spec (len content) limit) as [Hs|Hl].
  - exists [content]. split_and!; [done|done|by repeat constructor|].
    intros Hne. by repeat constructor.
  - destruct (splitLoop_total limit Hlimit (length content) [] content)
      as [out Hout]; [unfold len; lia|].
    exists out. split_and!.
    + intros fuel Hfuel. by apply (splitLoop_fuel_mono limit (length content)).
    + destruct (splitLoop_chunks limit Hlimit _ _ _ _ Hout) as (new & -> & _ & Hne).
      simpl. apply Hne. apply len_pos_iff. lia.
    + destruct (splitLoop_chunks limit Hlimit _ _ _ _ Hout) as (new & -> & Hall & _).
      simpl. eapply Forall_impl; [exact Hall|]. simpl. lia.
    + intros _.
      destruct (splitLoop_chunks limit Hlimit _ _ _ _ Hout) as (new & -> & Hall & _).
      simpl. eapply Forall_impl; [exact Hall|]. simpl.
      intros chunk [Hp _]. by apply len_pos_iff.
Qed.

Lemma splitMessageAt_terminates_witness :
  exists chunks,
    Chunker.splitMessageAt 600 1300 (replicate 1300 97%N) = Some chunks /\
    Forall (λ chunk, len chunk <= 600) chunks.
Proof.
  destruct (splitMessageAt_terminates 600 (replicate 1300 97%N))
    as (chunks & Hrun & _ & Hall & _); [lia|].
  exists chunks. split; [|exact Hall].
  apply Hrun. rewrite length_replicate. lia.
Defined.

Section SmallLimits.

Import Chunker.

Variable limit : Z.
Hypothesis limit_small : 0 <= limit < 499.

Implicit Types (remaining chunk rest s : jsstring) (c : N).

Lemma lastIndexFrom_absent c s : forall i found,
  c ∉ s -> lastIndexFrom c i found s = found.
Proof.
  induction s as [|x s IH]; intros i found Hc; [done|].
  apply not_elem_of_cons in Hc as [Hx Hs]. simpl.
  destruct (N.eqb_spec x c); [congruence|]. by apply IH.
Qed.

Lemma noWhiteSpace_absent c s :
  isWhiteSpace c = true -> noWhiteSpace s -> c ∉ s.
Proof.
  intros Hc Hs Hin. unfold noWhiteSpace in Hs. rewrite Forall_forall in Hs.
  specialize (Hs c Hin). congruence.
Qed.

(** Below 499 the boundary test succeeds without a boundary: the chunk
    loses its last unit, and when it has only one, nothing is consumed. *)
Lemma splitStep_small remaining :
  remaining ≠ [] -> noWhiteSpace remaining ->
  exists chunk rest,
    splitStep limit remaining = (chunk, rest) /\
    rest ≠ [] /\ noWhiteSpace rest.
Proof.
  intros Hne Hws. apply len_pos_iff in Hne.
  unfold splitStep. rewrite slice_0 by lia.
  set (chunk0 := take (Z.to_nat limit) remaining).
  assert (Hws0 : noWhiteSpace chunk0) by by apply Forall_take.
  assert (Hlen0 : len chunk0 = Z.min limit (len remaining)).
  { unfold chunk0, len. rewrite length_take. lia. }
  unfold lastIndexOf.
  rewrite !lastIndexFrom_absent by (by apply noWhiteSpace_absent).
  change (Z.max (-1) (-1)) with (-1).
  destruct (Z.ltb_spec (limit - 500) (-1)); [|lia].
  set (chunk := slice chunk0 0 (-1)).
  assert (Hlen : len chunk = Z.max (len chunk0 - 1) 0).
  { unfold chunk, slice, relIndex. pose proof (len_nonneg chunk0).
    replace (0 <? 0) with false by done. replace (-1 <? 0) with true by done.
    rewrite (Z.min_l 0) by lia. change (Z.to_nat 0) with O. rewrite drop_0.
    unfold len at 1. rewrite length_take. unfold len in *. lia. }
  eexists _, _. split; [done|].
  assert (Hk : len chunk = Z.of_nat (Z.to_nat (len chunk))).
  { pose proof (len_nonneg chunk). lia. }
  rewrite Hk, sliceFrom_nat.
  rewrite trimStart_id by (by apply Forall_drop).
  split; [|by apply Forall_drop].
  apply len_pos_iff. unfold len at 1. rewrite length_drop. unfold len in *. lia.
Qed.

Lemma splitLoop_small fuel : forall chunks remaining,
  remaining ≠ [] -> noWhiteSpace remaining ->
  splitLoop limit fuel chunks remaining = None.
Proof.
  induction fuel as [|fuel IH]; intros chunks remaining Hne Hws; cbn [splitLoop].
  all: destruct (Z.ltb_spec 0 (len remaining)) as [Hp|Hz];
       [|apply len_pos_iff in Hne; lia].
  - done.
  - destruct (splitStep_small remaining Hne Hws) as (chunk & rest & -> & Hr & Hwr).
    by apply IH.
Qed.

End SmallLimits.

(** X11.  Below a limit of 499 the copy of [splitMessage] in the tests
    does not terminate on a text without whitespace that is longer than
    the limit: no number of iterations makes the loop return. *)
Theorem splitMessageAt_diverges (limit : Z) (content : jsstring) (fuel : nat) :
  0 <= limit < 499 -> limit < len content -> noWhiteSpace content ->
  Chunker.splitMessageAt limit fuel content = None.
Proof.
  intros Hlimit Hlong Hws. unfold Chunker.splitMessageAt.
  destruct (Z.leb_spec (len content) limit); [lia|].
  apply splitLoop_small; [done| |done].
  apply len_pos_iff. lia.
Qed.

Lemma splitMessageAt_diverges_witness :
  Chunker.splitMessageAt 2 1000 (lit "abc") = None.
Proof.
  apply splitMessageAt_diverges.
  - lia.
  - vm_compute. reflexivity.
  - by repeat constructor.
Defined.

(** ** What the author of a message receives *)

Section DeliveryFacts.

Import Pipeline Log Observed.

Context (config : Config) (env : Env).

Implicit Types (w : World) (message : Message) (delta : list Event).

(** [sendReply] sends the chunks in order; when it fails, a reply was
    refused, and the chunk of that reply is the last one attempted. *)
Lemma replyEach_ends message chunks : forall w,
  exists attempted out w',
    replyEach env message chunks w = (out, w') /\
    attempted `prefix_of` chunks /\
    logged w (EvReply Chunk (messageId message) <$> attempted) w' /\
    (out = Ok tt /\ attempted = chunks \/
     exists e t, out = Throw e /\ attempted ≠ [] /\ replyResult env t = Some e).
Proof.
  induction chunks as [|chunk chunks IH]; intros w.
  - exists [], (Ok tt), w. split_and!; try done; [apply logged_refl|by left].
  - cbn [replyEach]. unfold mbind, M_bind, bind. rewrite reply_run.
    set (w1 := {| events := _; files := _ |}).
    assert (Hlog1 : logged w [EvReply Chunk (messageId message) chunk] w1).
    { split; [done|]. simpl. by rewrite union_empty_r_L. }
    destruct (replyResult env (length (events w))) as [e|] eqn:Er.
    + exists [chunk], (Throw e), w1. split_and!; try done.
      * by apply prefix_cons, prefix_nil.
      * right. by exists e, (length (events w)).
    + destruct (IH w1) as (attempted & out & w' & E & Hpre & Hlog & Hout).
      exists (chunk :: attempted), out, w'. split_and!; try done.
      * by apply prefix_cons.
      * by apply (logged_trans w w1 w' [_] _).
      * destruct Hout as [[-> ->]|(e & t & -> & _ & Ht)]; [by left|].
        right. by exists e, t.
Qed.

(** [processMessage] from the end of the attachment stage on. *)
Lemma processMessage_ending message w :
  let w0 := {| events := events w ++ [EvTyping (channelId message)];
               files := files w |} in
  exists outb w1 results w2 tail w',
    buildPrompt config env message w0 = (outb, w1) /\
    downloadAttachments config env message w1 = (Ok results, w2) /\
    processMessage config env message w = (Ok tt, w') /\
    events w' = events w2 ++ tail /\
    Ending env message results outb (length (events w2)) tail.
Proof.
  intros w0.
  destruct (buildPrompt_run config env message w0)
    as (fetches & outb & w1 & Eb & Hnb & _).
  destruct (downloadAttachments_run config env message w1)
    as (results & stage & w2 & Ed & _).
  exists outb, w1, results, w2.
  unfold processMessage, mbind, M_bind, bind, tryCatch, settled.
  rewrite sendTyping_run. fold w0. rewrite Eb.
  destruct outb as [prompt|e|]; [| |done]; rewrite Ed; cbn [all2 ret throw fst snd].
  - rewrite copilotSend_run.
    set (w3 := {| events := events w2 ++ [EvSend prompt results]; files := files w2 |}).
    destruct (sendResult env (length (events w2)) prompt results)
      as [e|response] eqn:Es.
    { rewrite swallow_reply_run. eexists _, _. split_and!; [done|done|done| |].
      - cbn [events w3]. by rewrite <- app_assoc.
      - by apply ending_service_failed with e. }
    destruct (trim <$> response) as [[|c text]|] eqn:Et.
    1,3: rewrite swallow_reply_run; eexists _, _;
         (split_and!; [done|done|done|cbn [events w3]; by rewrite <- app_assoc|]);
         apply ending_empty with response; [done|rewrite Et; auto].
    destruct response as [answer|]; [|done]. injection Et as Et.
    assert (Hne : trim answer ≠ []) by by rewrite Et.
    unfold sendReply. rewrite splitMessage_enough_fuel by done.
    destruct (replyEach_ends message (Chunker.splitMessage (c :: text)) w3)
      as (attempted & out & w4 & Er & Hpre & [Hev _] & Hout).
    rewrite Er. rewrite <- Et in *.
    destruct Hout as [[-> ->]|(e & t & -> & Hatt & Ht)].
    + eexists _, w4. split_and!; [done|done|done| |].
      * rewrite Hev. cbn [events w3]. by rewrite <- app_assoc.
      * by apply ending_answered.
    + rewrite swallow_reply_run. eexists _, _. split_and!; [done|done|done| |].
      * cbn [events]. rewrite Hev. cbn [events w3]. rewrite <- !app_assoc. done.
      * by apply ending_reply_failed with answer t e.
  - rewrite swallow_reply_run. eexists _, _. split_and!; [done|done|done|done|].
    by apply ending_no_prompt.
Qed.

End DeliveryFacts.

Section StoryFacts.

Import Pipeline Log Observed.

Context (config : Config) (env : Env).

Implicit Types (w : World) (message : Message) (delta : list Event).

(** The attachments that [downloadAttachments] returns are, in the order of
    the message, the images within the ceiling whose download succeeded. *)
Lemma downloadEach_forwarded message pending : forall results w,
  exists extra delta w',
    downloadEach config env message pending results w
      = (Ok (results ++ extra), w') /\
    logged w delta w' /\
    (displayName <$> extra) `sublist_of` (attName <$> admitted config pending) /\
    (path <$> extra) `sublist_of` downloadDests delta /\
    ((forall t, downloadResult env t = None) ->
     displayName <$> extra = attName <$> admitted config pending /\
     path <$> extra = downloadDests delta).
Proof.
  induction pending as [|a pending IH]; intros results w.
  - exists [], [], w. rewrite app_nil_r. split_and!; try done.
    apply logged_refl.
  - cbn [downloadEach]. unfold admitted in *.
    destruct (isImage a) eqn:Hi; cbn [negb andb].
    + destruct (tooLarge config a) eqn:Hl; cbn [negb].
      * unfold mbind, M_bind, bind. rewrite swallow_reply_run.
        set (w1 := {| events := _; files := _ |}).
        destruct (IH results w1) as (extra & delta & w' & E & Hlog & Hn & Hp & Hall).
        exists extra, (EvReply TooLargeNotice (messageId message)
                         (tooLargeNotice config a) :: delta), w'.
        rewrite filter_cons_False by (by rewrite Hi, Hl).
        split_and!; try done.
        apply (logged_trans w w1 w' [_] delta); [|done].
        split; [done|]. simpl. by rewrite union_empty_r_L.
      * rewrite filter_cons_True by (by rewrite Hi, Hl).
        unfold mbind, M_bind, bind, tryCatch, dateNow, tick, ret. simpl.
        rewrite downloadFile_run.
        set (dest := tmpPath env (now env (length (events w))) a).
        set (w1 := {| events := _; files := _ |}).
        assert (Hlog1 : logged w [EvDownload (attUrl a) dest] w1).
        { split; [done|]. simpl. rewrite union_empty_r_L. apply (comm_L (∪)). }
        destruct (downloadResult env (length (events w))) as [e|] eqn:Ed.
        -- destruct (IH results w1) as (extra & delta & w' & E & Hlog & Hn & Hp & Hall).
           exists extra, (EvDownload (attUrl a) dest :: delta), w'.
           split_and!; try done.
           ++ by apply (logged_trans w w1 w' [_] delta).
           ++ by apply sublist_cons.
           ++ simpl. by apply sublist_cons.
           ++ intros Hok. specialize (Hok (length (events w))). congruence.
        -- destruct (IH (results ++ [{| path := dest; displayName := attName a |}]) w1)
             as (extra & delta & w' & E & Hlog & Hn & Hp & Hall).
           exists ({| path := dest; displayName := attName a |} :: extra),
                  (EvDownload (attUrl a) dest :: delta), w'.
           split_and!.
           ++ rewrite E. by rewrite <- app_assoc.
           ++ by apply (logged_trans w w1 w' [_] delta).
           ++ simpl. by apply sublist_skip.
           ++ simpl. by apply sublist_skip.
           ++ intros Hok. destruct (Hall Hok) as [Hn' Hp'].
              rewrite !fmap_cons, Hn', Hp'. done.
    + rewrite filter_cons_False by (by rewrite Hi).
      apply IH.
Qed.

Lemma downloadAttachments_forwarded message w :
  exists results stage w',
    downloadAttachments config env message w = (Ok results, w') /\
    logged w stage w' /\
    Forall isAttachmentStage stage /\
    (displayName <$> results)
      `sublist_of` (attName <$> admitted config (attachments message)) /\
    (path <$> results) `sublist_of` downloadDests stage /\
    (IMAGE_SUPPORT config = true -> (forall t, downloadResult env t = None) ->
     displayName <$> results = attName <$> admitted config (attachments message) /\
     path <$> results = downloadDests stage) /\
    (IMAGE_SUPPORT config = false -> results = [] /\ stage = []).
Proof.
  destruct (downloadAttachments_run config env message w)
    as (results & stage & w' & E & Hlog & Hst & _ & _ & Hoff).
  exists results, stage, w'. split_and!; [done|done|done| | | |].
  all: unfold downloadAttachments in E.
  all: destruct (IMAGE_SUPPORT config) eqn:Hs; cbn [negb orb] in E.
  all: try (injection E as <- <-; pose proof (Hoff eq_refl) as ->;
            first [apply sublist_nil_l | done | by intros]).
  all: destruct (attachments message) as [|a pending] eqn:Ha; cbn [length Nat.eqb] in E.
  all: try (injection E as <- <-;
            assert (stage = []) as ->
              by (destruct Hlog as [Hev _]; by apply app_inv_head with (events w);
                  rewrite app_nil_r);
            first [apply sublist_nil_l | done | by intros]).
  all: destruct (downloadEach_forwarded message (a :: pending) [] w)
         as (extra & delta & w'' & E' & Hlog' & Hn & Hp & Hall).
  all: rewrite E in E'; simpl in E'; injection E' as <- <-.
  all: assert (delta = stage) as ->
         by (destruct Hlog as [Hev _], Hlog' as [Hev' _];
             rewrite Hev in Hev'; by apply app_inv_head in Hev').
  all: done.
Qed.

(** The log of one [processMessage]: the typing signal, the history
    fetches, the attachment stage and the ending. *)
Lemma processMessage_story message w :
  let w0 := {| events := events w ++ [EvTyping (channelId message)];
               files := files w |} in
  exists outb fetches results stage tail t w',
    (buildPrompt config env message w0).1 = outb /\
    processMessage config env message w = (Ok tt, w') /\
    newEvents w w' = [EvTyping (channelId message)] ++ fetches ++ stage ++ tail /\
    Forall isFetch fetches /\
    Forall isAttachmentStage stage /\
    (displayName <$> results)
      `sublist_of` (attName <$> admitted config (attachments message)) /\
    (path <$> results) `sublist_of` downloadDests stage /\
    (IMAGE_SUPPORT config = true -> (forall t, downloadResult env t = None) ->
     displayName <$> results = attName <$> admitted config (attachments message) /\
     path <$> results = downloadDests stage) /\
    (IMAGE_SUPPORT config = false -> results = [] /\ stage = []) /\
    Ending env message results outb t tail.
Proof.
  intros w0.
  destruct (processMessage_ending config env message w)
    as (outb & w1 & results & w2 & tail & w' & Eb & Ed & Ep & Hev & Hend).
  fold w0 in Eb.
  destruct (buildPrompt_run config env message w0)
    as (fetches & outb' & w1' & Eb' & _ & [Hevb _] & Hfetch).
  rewrite Eb in Eb'. injection Eb' as <- <-.
  destruct (downloadAttachments_forwarded message w1)
    as (results' & stage & w2' & Ed' & [Hevd _] & Hstage & Hn & Hp & Hon & Hoff).
  rewrite Ed in Ed'. injection Ed' as <- <-.
  exists outb, fetches, results, stage, tail, (length (events w2)), w'.
  split_and!; try done.
  - by rewrite Eb.
  - unfold newEvents. rewrite Hev, Hevd, Hevb. cbn [events w0].
    rewrite <- !app_assoc. by rewrite drop_app_length.
Qed.

Lemma answers_stages message (fetches stage tail : list Event) :
  Forall isFetch fetches -> Forall isAttachmentStage stage ->
  answers ([EvTyping (channelId message)] ++ fetches ++ stage ++ tail)
  = answers tail.
Proof.
  intros Hf Hs. unfold answers. rewrite !omap_app. simpl.
  rewrite (omap_nothing _ isFetch fetches); [|by intros [| |[]| |]|done].
  rewrite (omap_nothing _ isAttachmentStage stage); [|by intros [| |[]| |]|done].
  done.
Qed.

Lemma errorReplies_stages message (fetches stage tail : list Event) :
  Forall isFetch fetches -> Forall isAttachmentStage stage ->
  errorReplies ([EvTyping (channelId message)] ++ fetches ++ stage ++ tail)
  = errorReplies tail.
Proof.
  intros Hf Hs. unfold errorReplies. rewrite !omap_app. simpl.
  rewrite (omap_nothing _ isFetch fetches); [|by intros [| |[]| |]|done].
  rewrite (omap_nothing _ isAttachmentStage stage); [|by intros [| |[]| |]|done].
  done.
Qed.

Lemma failureNotices_stages message (fetches stage tail : list Event) :
  Forall isFetch fetches -> Forall isAttachmentStage stage ->
  failureNotices ([EvTyping (channelId message)] ++ fetches ++ stage ++ tail)
  = failureNotices tail.
Proof.
  intros Hf Hs. unfold failureNotices. rewrite !omap_app. simpl.
  rewrite (omap_nothing _ isFetch fetches); [|by intros [| |[]| |]|done].
  rewrite (omap_nothing _ isAttachmentStage stage); [|by intros [| |[]| |]|done].
  done.
Qed.

Lemma completions_stages message (fetches stage tail : list Event) :
  Forall isFetch fetches -> Forall isAttachmentStage stage ->
  completions ([EvTyping (channelId message)] ++ fetches ++ stage ++ tail)
  = completions tail.
Proof.
  intros Hf Hs. unfold completions. rewrite !omap_app. simpl.
  rewrite (omap_nothing _ isFetch fetches); [|by intros [| |[]| |]|done].
  rewrite (omap_nothing _ isAttachmentStage stage); [|by intros [| |[]| |]|done].
  done.
Qed.


Lemma answers_chunks (to : jsstring) (texts : list jsstring) :
  answers (EvReply Chunk to <$> texts) = texts.
Proof.
  induction texts as [|text texts IH]; [done|].
  change (answers (EvReply Chunk to <$> text :: texts))
    with (text :: answers (EvReply Chunk to <$> texts)).
  by rewrite IH.
Qed.

(** What the ending leaves in the log. *)
Lemma ending_observations message results outb t tail :
  Ending env message results outb t tail ->
  downloadDests tail = [] /\
  completions tail
  = match outb with Ok prompt => [(prompt, results)] | _ => [] end /\
  match outb with
  | Ok prompt =>
      match sendResult env t prompt results with
      | inl e => answers tail = [] /\ errorReplies tail = [messageId message]
      | inr response =>
          match trim <$> response with
          | Some (c :: text) =>
              answers tail `prefix_of` Chunker.splitMessage (c :: text) /\
              (errorReplies tail = [] /\ failureNotices tail = [] /\
               answers tail = Chunker.splitMessage (c :: text) \/
               errorReplies tail = [messageId message] /\ answers tail ≠ [] /\
               exists t' e, replyResult env t' = Some e)
          | _ =>
              answers tail = [] /\ errorReplies tail = [] /\
              failureNotices tail = [messageId message] /\
              last tail = Some (emptyNotice message)
          end
      end
  | _ => answers tail = [] /\ errorReplies tail = [messageId message]
  end.
Proof.
  destruct 1 as [outb t Hno|prompt t e Hs|prompt t response Hs Ht
                |prompt t answer Hs Hne|prompt t answer attempted t' e Hs Hne Hpre Hatt Hr].
  - destruct outb as [prompt| |]; [by destruct (Hno prompt)| |]; by split_and!.
  - rewrite Hs. by split_and!.
  - rewrite Hs. split_and!; [done|done|].
    destruct Ht as [-> | ->]; by split_and!.
  - rewrite Hs. cbn [fmap option_fmap option_map].
    pose proof (answers_are_answers (messageId message)
                  (Chunker.splitMessage (trim answer))) as Hans.
    assert (Hd : downloadDests
                   (EvReply Chunk (messageId message)
                      <$> Chunker.splitMessage (trim answer)) = []).
    { apply (omap_nothing _ isAnswer); [|done]. by intros [| |[]| |]. }
    assert (He : errorReplies
                   (EvReply Chunk (messageId message)
                      <$> Chunker.splitMessage (trim answer)) = []).
    { apply (omap_nothing _ isAnswer); [|done]. by intros [| |[]| |]. }
    assert (Hf : failureNotices
                   (EvReply Chunk (messageId message)
                      <$> Chunker.splitMessage (trim answer)) = []).
    { apply (omap_nothing _ isAnswer); [|done]. by intros [| |[]| |]. }
    assert (Hc : completions
                   (EvReply Chunk (messageId message)
                      <$> Chunker.splitMessage (trim answer)) = []).
    { apply (omap_nothing _ isAnswer); [|done]. by intros [| |[]| |]. }
    split_and!; [done|simpl; by rewrite Hc|].
    destruct (trim answer) as [|c text] eqn:Et; [done|].
    change (answers (EvSend prompt results :: ?l)) with (answers l).
    change (errorReplies (EvSend prompt results :: ?l)) with (errorReplies l).
    change (failureNotices (EvSend prompt results :: ?l)) with (failureNotices l).
    rewrite answers_chunks. split; [done|]. left. by split_and!.
  - rewrite Hs. cbn [fmap option_fmap option_map].
    pose proof (answers_are_answers (messageId message) attempted) as Hans.
    assert (Hd : downloadDests (EvReply Chunk (messageId message) <$> attempted) = []).
    { apply (omap_nothing _ isAnswer); [|done]. by intros [| |[]| |]. }
    assert (He : errorReplies (EvReply Chunk (messageId message) <$> attempted) = []).
    { apply (omap_nothing _ isAnswer); [|done]. by intros [| |[]| |]. }
    assert (Hc : completions (EvReply Chunk (messageId message) <$> attempted) = []).
    { apply (omap_nothing _ isAnswer); [|done]. by intros [| |[]| |]. }
    split_and!.
    + change (downloadDests (EvSend prompt results :: ?l)) with (downloadDests l).
      unfold downloadDests in *. by rewrite omap_app, Hd.
    + change (completions (EvSend prompt results :: ?l))
        with ((prompt, results) :: completions l).
      unfold completions in *. by rewrite omap_app, Hc.
    + destruct (trim answer) as [|c text] eqn:Et; [done|].
      change (answers (EvSend prompt results :: ?l)) with (answers l).
      change (errorReplies (EvSend prompt results :: ?l)) with (errorReplies l).
      unfold answers, errorReplies in *. rewrite !omap_app.
      fold (answers (EvReply Chunk (messageId message) <$> attempted)).
      rewrite answers_chunks, He. simpl. rewrite app_nil_r.
      split; [done|]. right. split_and!; [done|done|]. by exists t', e.
Qed.

Lemma trim_whitespace (s : jsstring) : allWhiteSpace s -> trim s = [].
Proof.
  intros Hs. unfold trim.
  assert (trimStart s = []) as ->; [|done].
  induction Hs as [|c s Hc _ IH]; [done|]. simpl. by rewrite Hc.
Qed.

End StoryFacts.

(** X12.  The answer reaches the author in the chunks of [splitMessage].
    When the completion service answers with a text that is not blank, the
    replies that are attempted are, in order, chunks of the trimmed answer,
    from the first on; when no apology is sent they are all of them; and
    when Discord accepts every reply and the prompt could be built, all
    chunks are sent and neither apology nor notice follows. *)
Theorem answer_delivered (config : Config) (env : Env) (message : Message)
    (w : World) (answer : jsstring) :
  (forall t prompt sent, sendResult env t prompt sent = inr (Some answer)) ->
  trim answer ≠ [] ->
  let w0 := {| events := events w ++ [EvTyping (channelId message)];
               files := files w |} in
  let log := Log.newEvents w (Pipeline.processMessage config env message w).2 in
  let chunks := Chunker.splitMessage (trim answer) in
  Observed.answers log `prefix_of` chunks /\
  (Log.errorReplies log = [] ->
   Observed.answers log = chunks /\ Log.failureNotices log = []) /\
  ((forall t, replyResult env t = None) ->
   forall prompt,
     (Pipeline.buildPrompt config env message w0).1 = Ok prompt ->
     Observed.answers log = chunks /\ Log.failureNotices log = []).
Proof.
  intros Hsend Hne w0 log chunks.
  destruct (processMessage_story config env message w)
    as (outb & fetches & results & stage & tail & t & w' & Eb & Ep & Hnew
        & Hfetch & Hstage & _ & _ & _ & _ & Hend).
  fold w0 in Eb. unfold log. rewrite Ep. cbn [snd]. rewrite Hnew, Eb.
  rewrite answers_stages, errorReplies_stages, failureNotices_stages by done.
  destruct (ending_observations env _ _ _ _ _ Hend) as (_ & _ & Hobs).
  destruct outb as [prompt|e|].
  - rewrite Hsend in Hobs. cbn [fmap option_fmap option_map] in Hobs.
    fold chunks in Hobs.
    destruct (trim answer) as [|c text] eqn:Et; [done|].
    destruct Hobs as [Hpre [(He & Hf & Ha)|(He & Ha & t' & e & Hr)]].
    + by split_and!.
    + split_and!; [done|by rewrite He|].
      intros Hok. by rewrite Hok in Hr.
  - destruct Hobs as [-> ->]. split_and!; [apply prefix_nil|done|done].
  - destruct Hobs as [-> ->]. split_and!; [apply prefix_nil|done|done].
Qed.

Lemma answer_delivered_witness :
  Observed.answers
    (Log.newEvents Examples.fresh
       (Pipeline.processMessage Examples.config Examples.calm
          Examples.hello Examples.fresh).2)
  = [lit "hi there"].
Proof.
  destruct (answer_delivered Examples.config Examples.calm Examples.hello
              Examples.fresh (lit "hi there")) as (_ & _ & Hall).
  - reflexivity.
  - vm_compute. discriminate.
  - destruct (Hall (λ _, eq_refl) (lit "hello") eq_refl) as [Ha _].
    etransitivity; [exact Ha|]. vm_compute. reflexivity.
Defined.



(** X14.  With image forwarding switched off, attachments are left alone:
    nothing is downloaded, no file is created, no notice about a size is
    sent, and the completion service is called without attachments. *)
Theorem images_disabled (config : Config) (env : Env) (message : Message)
    (w : World) :
  IMAGE_SUPPORT config = false ->
  let w' := (Pipeline.processMessage config env message w).2 in
  let log := Log.newEvents w w' in
  Log.downloadUrls log = [] /\
  Log.tooLargeTexts log = [] /\
  files w' = files w /\
  Forall (λ call, call.2 = []) (Log.completions log).
Proof.
  intros Hoff w' log.
  destruct (processMessage_log config env message w)
    as (outb & w1 & fetches & results & stage & tail & w'' & _ & Ep & Hnew & Hfi
        & Hfetch & _ & Hres & _ & Hnone & Htail).
  rewrite (Hnone Hoff) in *.
  unfold log, w'. rewrite Ep. cbn [snd]. rewrite Hnew.
  destruct (lastStage_observations _ _ _ _ Htail)
    as (Ht & Hu & _ & _ & _ & _ & Hc).
  unfold Log.tooLargeTexts, Log.downloadUrls, Log.completions in *.
  rewrite !omap_app, Ht, Hu, Hc. simpl.
  rewrite !(omap_nothing _ Log.isFetch fetches); try done;
    try by intros [| |[]| |].
  split_and!; [done|done| |].
  - rewrite Hfi. simpl. by rewrite union_empty_r_L.
  - destruct results as [|r results].
    + destruct outb; by repeat constructor.
    + apply Forall_inv in Hres as [Hin _]. by apply elem_of_nil in Hin.
Qed.

Lemma images_disabled_witness :
  let config :=
    {| DISCORD_GUILD_ID := lit "guild"; DISCORD_CHANNEL_ID := None;
       BLACKLISTED_CHANNELS := []; REPLY_TO_BOT := false;
       CONTEXT_MESSAGE_COUNT := 1; IMAGE_SUPPORT := false;
       MAX_IMAGE_SIZE_MB := 5 |} in
  let w' := (Pipeline.processMessage config Examples.calm
               Examples.withPoster Examples.fresh).2 in
  Log.downloadUrls (Log.newEvents Examples.fresh w') = [] /\
  files w' = ∅.
Proof.
  intros config w'.
  destruct (images_disabled config Examples.calm Examples.withPoster
              Examples.fresh eq_refl) as (Hu & _ & Hf & _).
  by split.
Defined.

(** X15.  A blank answer is reported as empty.  When the completion
    service returns no content, or content that is only whitespace, and the
    prompt could be built, the author receives the notice of an empty
    response as the last reply, no chunk and no apology. *)
Theorem empty_response (config : Config) (env : Env) (message : Message)
    (w : World) (response : option jsstring) (prompt : jsstring) :
  (forall t p sent, sendResult env t p sent = inr response) ->
  (response = None \/ exists answer, response = Some answer /\ allWhiteSpace answer) ->
  let w0 := {| events := events w ++ [EvTyping (channelId message)];
               files := files w |} in
  (Pipeline.buildPrompt config env message w0).1 = Ok prompt ->
  let log := Log.newEvents w (Pipeline.processMessage config env message w).2 in
  Observed.answers log = [] /\
  Log.errorReplies log = [] /\
  Log.failureNotices log = [messageId message] /\
  last log = Some (Log.emptyNotice message).
Proof.
  intros Hsend Hblank w0 Hprompt log.
  destruct (processMessage_story config env message w)
    as (outb & fetches & results & stage & tail & t & w' & Eb & Ep & Hnew
        & Hfetch & Hstage & _ & _ & _ & _ & Hend).
  fold w0 in Eb. rewrite Hprompt in Eb. subst outb.
  unfold log. rewrite Ep. cbn [snd]. rewrite Hnew.
  rewrite answers_stages, errorReplies_stages, failureNotices_stages by done.
  destruct (ending_observations env _ _ _ _ _ Hend) as (_ & _ & Hobs).
  rewrite Hsend in Hobs.
  assert (Hobs' : Observed.answers tail = [] /\ Log.errorReplies tail = [] /\
                  Log.failureNotices tail = [messageId message] /\
                  last tail = Some (Log.emptyNotice message)).
  { destruct Hblank as [->|(answer & -> & Hws)]; [done|].
    cbn [fmap option_fmap option_map] in Hobs.
    by rewrite (trim_whitespace answer Hws) in Hobs. }
  destruct Hobs' as (Ha & He & Hf & Hl). split_and!; [done|done|done|].
  rewrite !last_app, Hl. done.
Qed.

Lemma empty_response_witness :
  let log := Log.newEvents Examples.fresh
      (Pipeline.processMessage Examples.config Scenarios.blank
         Examples.hello Examples.fresh).2 in
  Observed.answers log = [] /\
  last log = Some (Log.emptyNotice Examples.hello).
Proof.
  intros log.
  destruct (empty_response Examples.config Scenarios.blank Examples.hello
              Examples.fresh (Some (lit "   ")) (lit "hello"))
    as (Ha & _ & _ & Hl).
  - reflexivity.
  - right. exists (lit "   "). split; [done|]. by repeat constructor.
  - reflexivity.
  - by split.
Defined.

(** ** More about the channel queues *)

Section QueueFacts.

Import Dispatcher.

Context (config : Config).

Implicit Types (bot : Bot) (c d : jsstring) (m : Message).

(** [drain] creates no entry of [channelQueues] and removes none. *)
Lemma drain_keys d bot c :
  is_Some (channelQueues (drain d bot) !! c) <-> is_Some (channelQueues bot !! c).
Proof.
  unfold drain.
  destruct (channelQueues bot !! d) as [[|m q]|] eqn:Eq; cbn [channelQueues]; [done| |done].
  destruct (decide (d = c)) as [<-|Hdc].
  - rewrite lookup_insert_eq, Eq. split; by eexists.
  - by rewrite lookup_insert_ne.
Qed.

(** An entry is created when the first message of a channel is accepted,
    and it stays. *)
Lemma step_keys bot (input : Input) c :
  is_Some (channelQueues (step config bot input) !! c) <->
  is_Some (channelQueues bot !! c) \/
  exists m, input = Arrive m /\ ignored config m = false /\ channelId m = c.
Proof.
  destruct input as [m|i s]; cbn [step].
  - unfold onMessage. destruct (ignored config m) eqn:Hig.
    { split; [by left|]. intros [?|(m' & [= <-] & ? & _)]; [done|congruence]. }
    unfold processQueue. cbn [processingChannels].
    set (bot1 := {| channelQueues := <[channelId m := _]> _;
                    processingChannels := processingChannels bot;
                    awaiting := _; trace := _; errorLog := _ |}).
    assert (Hkeys : is_Some (channelQueues bot1 !! c) <->
                    is_Some (channelQueues bot !! c) \/ channelId m = c).
    { cbn [bot1 channelQueues]. destruct (decide (channelId m = c)) as [<-|Hne].
      - rewrite lookup_insert_eq. split; [by right|by eexists].
      - rewrite lookup_insert_ne by done. split; [by left|]. by intros [?|?]. }
    destruct (bool_decide (channelId m ∈ processingChannels bot)).
    + rewrite Hkeys. split; intros [?|H]; auto.
      * right. by exists m.
      * destruct H as (m' & [= <-] & _ & ?). by right.
    + rewrite drain_keys. cbn [channelQueues]. fold (channelQueues bot1).
      rewrite Hkeys. split; intros [?|H]; auto.
      * right. by exists m.
      * destruct H as (m' & [= <-] & _ & ?). by right.
  - unfold resume. destruct (awaiting bot !! i) as [task|].
    + rewrite drain_keys. cbn [channelQueues].
      split; [by left|]. by intros [?|(m & ? & _)].
    + split; [by left|]. by intros [?|(m & ? & _)].
Qed.

Lemma run_keys (inputs : list Input) c :
  is_Some (channelQueues (run config inputs) !! c) <->
  arrivals config c inputs ≠ [].
Proof.
  induction inputs as [|input inputs IH] using rev_ind.
  - unfold run, initial. cbn [foldl channelQueues]. rewrite lookup_empty.
    split; [by intros [? ?]|done].
  - unfold run. rewrite foldl_snoc, arrivals_snoc. fold (run config inputs).
    rewrite step_keys, IH. split.
    + intros [Hne|(m & -> & Hig & Hc)].
      * intros [? _]%app_eq_nil. done.
      * rewrite Hig, (bool_decide_eq_true_2 _ Hc). cbn [negb andb].
        intros [_ ?]%app_eq_nil. done.
    + intros Hne. destruct (arrivals config c inputs) as [|a l]; [|by left].
      right. destruct input as [m|i s]; [|done].
      destruct (ignored config m) eqn:Hig; [done|].
      destruct (bool_decide_reflect (channelId m = c)); [|done].
      by exists m.
Qed.

End QueueFacts.

(** X16.  [channelQueues] holds an entry for exactly the channels on which
    a message was accepted so far: an entry is created with the first
    accepted message of a channel and is never removed; when the channel
    is idle again, its entry is the empty queue. *)
Theorem channel_queues_kept (config : Config) (inputs : list Dispatcher.Input)
    (c : jsstring) :
  let bot := Dispatcher.run config inputs in
  (Dispatcher.channelQueues bot !! c = None
   <-> Dispatcher.arrivals config c inputs = []) /\
  (Dispatcher.arrivals config c inputs = [] \/
   c ∈ Dispatcher.processingChannels bot \/
   Dispatcher.channelQueues bot !! c = Some []).
Proof.
  intros bot. pose proof (run_keys config inputs c) as Hkeys. fold bot in Hkeys.
  split.
  - rewrite eq_None_not_Some, Hkeys.
    destruct (Dispatcher.arrivals config c inputs) as [|a l]; split; try done.
    + intros _ H. by apply H.
    + intros H. exfalso. by apply H.
  - destruct (Dispatcher.arrivals config c inputs) as [|a l] eqn:Ea; [by left|].
    right. destruct (decide (c ∈ Dispatcher.processingChannels bot)); [by left|].
    right. destruct (run_invariant config inputs c) as (_ & _ & Hidle & _).
    fold bot in Hidle. specialize (Hidle n).
    unfold Dispatcher.queueOf in Hidle.
    destruct Hkeys as [_ [q Hq]]; [done|].
    rewrite Hq in *. simpl in Hidle. by rewrite Hidle.
Qed.

(** X17.  A message that is accepted starts at once on an idle channel
    and waits on a busy one, whatever the other channels are doing.  On a
    channel without a drain task, [processMessage] is called for it before
    [onMessage] returns, and the channel becomes busy; on a channel with a
    drain task it is put behind the messages already queued and nothing
    else changes. *)
Theorem arrival_starts_or_waits (config : Config)
    (inputs : list Dispatcher.Input) (m : Message) :
  Dispatcher.ignored config m = false ->
  let c := channelId m in
  let bot := Dispatcher.run config inputs in
  let bot' := Dispatcher.run config (inputs ++ [Dispatcher.Arrive m]) in
  if bool_decide (c ∈ Dispatcher.processingChannels bot)
  then
    Dispatcher.trace bot' = Dispatcher.trace bot /\
    Dispatcher.awaiting bot' = Dispatcher.awaiting bot /\
    Dispatcher.queueOf c bot' = Dispatcher.queueOf c bot ++ [m]
  else
    Dispatcher.trace bot' = Dispatcher.trace bot ++ [Dispatcher.Begin m] /\
    Dispatcher.awaiting bot'
    = Dispatcher.awaiting bot
      ++ [{| Dispatcher.taskChannel := c; Dispatcher.taskMessage := m |}] /\
    Dispatcher.queueOf c bot' = [] /\
    c ∈ Dispatcher.processingChannels bot'.
Proof.
  intros Hig c bot bot'.
  unfold bot', Dispatcher.run. rewrite foldl_snoc. fold (Dispatcher.run config inputs).
  fold bot. cbn [Dispatcher.step]. unfold Dispatcher.onMessage. rewrite Hig.
  unfold Dispatcher.processQueue. cbn [Dispatcher.processingChannels]. fold c.
  destruct (bool_decide_reflect (c ∈ Dispatcher.processingChannels bot)) as [Hbusy|Hidle].
  - unfold Dispatcher.queueOf. cbn [Dispatcher.trace Dispatcher.awaiting Dispatcher.channelQueues].
    by rewrite lookup_insert_eq.
  - destruct (run_invariant config inputs c) as (_ & _ & Hempty & _).
    fold bot in Hempty. specialize (Hempty Hidle).
    unfold Dispatcher.queueOf in Hempty.
    unfold Dispatcher.drain. cbn [Dispatcher.channelQueues].
    rewrite lookup_insert_eq, Hempty. cbn [app].
    unfold Dispatcher.queueOf.
    cbn [Dispatcher.trace Dispatcher.awaiting Dispatcher.channelQueues
         Dispatcher.processingChannels].
    rewrite lookup_insert_eq. split_and!; [done|done|done|].
    apply elem_of_union_l. by apply elem_of_singleton.
Qed.

Lemma arrival_starts_or_waits_witness :
  let bot := Dispatcher.run Examples.config
      [Dispatcher.Arrive Examples.hello;
       Dispatcher.Arrive (Examples.message "7" "random" "hi" [])] in
  Dispatcher.trace bot
  = [Dispatcher.Begin Examples.hello;
     Dispatcher.Begin (Examples.message "7" "random" "hi" [])].
Proof.
  intros bot.
  pose proof (arrival_starts_or_waits Examples.config
                [Dispatcher.Arrive Examples.hello]
                (Examples.message "7" "random" "hi" []) eq_refl) as H.
  cbv zeta in H.
  destruct (bool_decide_reflect
              (channelId (Examples.message "7" "random" "hi" [])
               ∈ Dispatcher.processingChannels
                   (Dispatcher.run Examples.config [Dispatcher.Arrive Examples.hello])))
    as [Hbusy|_].
  - exfalso. revert Hbusy. apply (bool_decide_unpack _). vm_compute. exact I.
  - destruct H as [Ht _]. exact Ht.
Defined.

(** ** The filter of [onMessage] *)

Section FilterFacts.

Import Dispatcher.

Context (config : Config).

Lemma arrivals_elem (inputs : list Input) (c : jsstring) (m : Message) :
  m ∈ arrivals config c inputs ->
  Arrive m ∈ inputs /\ ignored config m = false /\ channelId m = c.
Proof.
  unfold arrivals. rewrite list_elem_of_bind. intros (input & Hm & Hin).
  destruct input as [m'|i s]; [|by apply elem_of_nil in Hm].
  destruct (ignored config m') eqn:Hig; cbn [negb andb] in Hm;
    [by apply elem_of_nil in Hm|].
  destruct (bool_decide_reflect (channelId m' = c)) as [Hc|Hc];
    [|by apply elem_of_nil in Hm].
  apply list_elem_of_singleton in Hm as ->. done.
Qed.

Lemma schedule_elem (ms : list Message) (m : Message) :
  Begin m ∈ schedule ms -> m ∈ ms.
Proof.
  unfold schedule. rewrite list_elem_of_bind. intros (m' & Hm & Hin).
  apply elem_of_cons in Hm as [[= ->]|Hm]; [done|].
  by apply list_elem_of_singleton in Hm.
Qed.

End FilterFacts.

(** X26.  Only messages that passed the filter are processed.  Every
    message for which [processMessage] is called arrived, belongs to the
    configured guild and, when one is configured, to the configured
    channel, is not on a blacklisted channel, was not written by a bot
    unless replies to bots are enabled, and has text or attachments. *)
Theorem processed_messages_accepted (config : Config)
    (inputs : list Dispatcher.Input) (m : Message) :
  Dispatcher.Begin m ∈ Dispatcher.trace (Dispatcher.run config inputs) ->
  Dispatcher.Arrive m ∈ inputs /\
  guildId m = Some (DISCORD_GUILD_ID config) /\
  (forall c s, DISCORD_CHANNEL_ID config = Some (c :: s) -> channelId m = c :: s) /\
  (channelId m ∉ BLACKLISTED_CHANNELS config) /\
  (authorBot m = true -> REPLY_TO_BOT config = true) /\
  (content m ≠ [] \/ attachments m ≠ []).
Proof.
  intros Hin.
  destruct (run_invariant config inputs (channelId m)) as (_ & _ & _ & _ & _ & Heq).
  assert (Hmark : Dispatcher.Begin m
                  ∈ Dispatcher.marksOf (channelId m)
                      (Dispatcher.trace (Dispatcher.run config inputs))).
  { unfold Dispatcher.marksOf. by apply list_elem_of_filter. }
  assert (Hs : Dispatcher.Begin m
               ∈ Dispatcher.schedule
                   (Dispatcher.arrivals config (channelId m) inputs)).
  { rewrite Heq. apply elem_of_app. by left. }
  apply schedule_elem, arrivals_elem in Hs as (Harr & Hig & _).
  split; [done|]. unfold Dispatcher.ignored in Hig.
  repeat match type of Hig with
         | (_ || _ = false) => apply orb_false_iff in Hig as [Hig ?]
         end.
  apply bool_decide_eq_false_1 in Hig.
  repeat match goal with
         | H : bool_decide _ = false |- _ => apply bool_decide_eq_false_1 in H
         end.
  split_and!.
  - by destruct (decide (guildId m = Some (DISCORD_GUILD_ID config))).
  - intros c s Hc. rewrite Hc in *.
    match goal with
    | H : bool_decide (channelId m ≠ c :: s) = false |- _ =>
        apply bool_decide_eq_false_1 in H
    | H : ~ (channelId m ≠ c :: s) |- _ => idtac
    end.
    by destruct (decide (channelId m = c :: s)).
  - done.
  - intros Hbot.
    match goal with
    | H : negb (REPLY_TO_BOT config) && authorBot m = false |- _ =>
        rewrite Hbot, andb_true_r in H; by apply negb_false_iff in H
    end.
  - match goal with
    | H : bool_decide (content m = []) && _ = false |- _ =>
        apply andb_false_iff in H as [H|H]
    end.
    + left. by apply bool_decide_eq_false_1 in H.
    + right. destruct (attachments m); [done|done].
Qed.

Lemma processed_messages_accepted_witness :
  guildId Examples.hello = Some (DISCORD_GUILD_ID Examples.config) /\
  (authorBot Examples.hello = true -> REPLY_TO_BOT Examples.config = true).
Proof.
  destruct (processed_messages_accepted Examples.config
              [Dispatcher.Arrive Examples.hello] Examples.hello)
    as (_ & Hg & _ & _ & Hb & _).
  - vm_compute. by left.
  - by split.
Defined.

(** ** The model command *)

Section CommandFacts.

Import Copilot Commands.

Lemma findModel_id (id : jsstring) (m : Model) :
  findModel id = Some m -> modelId m = id /\ m ∈ MODELS.
Proof.
  unfold findModel. destruct (list_find _ _) as [[k m']|] eqn:E; [|done].
  intros [= <-]. apply list_find_Some in E as (Hk & Hid & _).
  split; [done|]. by eapply list_elem_of_lookup_2.
Qed.

(** The identifiers of the catalog are pairwise different, so looking up
    the identifier of an entry finds that entry. *)
Lemma findModel_entry (m : Model) : m ∈ MODELS -> findModel (modelId m) = Some m.
Proof.
  unfold MODELS. rewrite !elem_of_cons, elem_of_nil.
  intros [->|[->|[->|[]]]]; by vm_compute.
Qed.

Lemma http_setModel_known (id : jsstring) (m : Model) (manager : Http.Manager) :
  findModel id = Some m ->
  Http.setModel id manager
  = (Ok tt, {| Http.token := Http.token manager; Http.model := id |}).
Proof. intros Hm. unfold Http.setModel. by rewrite Hm. Qed.

Lemma http_setModel_unknown (id : jsstring) (manager : Http.Manager) :
  findModel id = None ->
  Http.setModel id manager = (Throw (unknownModel id), manager).
Proof. intros Hm. unfold Http.setModel. by rewrite Hm. Qed.

End CommandFacts.

(** X18.  The model command on the HTTP manager.  For an identifier of the
    catalog the manager switches to it and the reply names the label, the
    identifier and the description of that entry; when Discord refuses
    this reply the failure text is sent after it, although the model was
    switched.  For any other identifier the manager stays as it was and the
    reply is the failure text with the unknown-model error.  The reply is
    deferred first in both cases. *)
Theorem model_command_http (gateway : Commands.Gateway)
    (i : Commands.Interaction) (manager : Copilot.Http.Manager) :
  Commands.isChatInputCommand i = true ->
  Commands.interactionCommand i = lit "model" ->
  Commands.deferResult gateway = None ->
  let id := Commands.modelOption i in
  let '(out, manager', calls) :=
    Commands.onInteraction Copilot.Http.setModel gateway i manager in
  match Copilot.findModel id with
  | Some m =>
      Copilot.modelId m = id /\
      Copilot.Http.model manager' = id /\
      match Commands.editResult gateway 0 with
      | None =>
          out = Ok tt /\
          calls = [Commands.DeferReply; Commands.EditReply (Commands.switched m)]
      | Some e =>
          out = Commands.statusOf (Commands.editResult gateway 1) /\
          calls = [Commands.DeferReply;
                   Commands.EditReply (Commands.switched m);
                   Commands.EditReply (Commands.switchFailed e)]
      end
  | None =>
      manager' = manager /\
      out = Commands.statusOf (Commands.editResult gateway 0) /\
      calls = [Commands.DeferReply;
               Commands.EditReply
                 (Commands.switchFailed (Copilot.unknownModel id))]
  end.
Proof.
  intros Hchat Hname Hdefer id.
  unfold Commands.onInteraction, Commands.switchModel.
  rewrite Hchat, Hname, Hdefer. cbn [negb]. rewrite bool_decide_eq_true_2 by done.
  fold id. destruct (Copilot.findModel id) as [m|] eqn:Hm.
  - rewrite (http_setModel_known id m manager Hm).
    destruct (findModel_id id m Hm) as [Hid _].
    destruct (Commands.editResult gateway 0) as [e|]; by split_and!.
  - rewrite (http_setModel_unknown id manager Hm). by split_and!.
Qed.

Lemma model_command_http_witness :
  let gateway := {| Commands.deferResult := None;
                    Commands.editResult := λ _, None |} in
  let i := {| Commands.isChatInputCommand := true;
              Commands.interactionCommand := lit "model";
              Commands.modelOption := lit "gpt-4o" |} in
  (Commands.onInteraction Copilot.Http.setModel gateway i
     (Copilot.Http.construct (Some (lit "token")))).2
  = [Commands.DeferReply;
     Commands.EditReply
       (lit "Model switched to **ChatGPT 4o** (" ++ [Commands.BACKQUOTE]
          ++ lit "gpt-4o" ++ [Commands.BACKQUOTE] ++ lit ")" ++ [LF]
          ++ lit "> Balanced general model (gpt-4o)")].
Proof.
  intros gateway i.
  pose proof (model_command_http gateway i
                (Copilot.Http.construct (Some (lit "token")))
                eq_refl eq_refl eq_refl) as H.
  cbv zeta in H.
  destruct (Commands.onInteraction _ _ _ _) as [[out manager'] calls].
  change (Copilot.findModel (Commands.modelOption i))
    with (Some {| Copilot.modelId := lit "gpt-4o";
                  Copilot.label := lit "ChatGPT 4o";
                  Copilot.description := lit "Balanced general model (gpt-4o)" |}) in H.
  destruct H as (_ & _ & _ & Hcalls). exact Hcalls.
Defined.

(** X19.  Every choice that the model command offers works.  Its value is
    an identifier of the catalog and its name shows the label and the
    identifier of that entry; picking it on the HTTP manager, with Discord
    accepting the calls, selects that model and answers with the entry's
    label, identifier and description. *)
Theorem model_choices_work (choice : Commands.Choice)
    (gateway : Commands.Gateway) (i : Commands.Interaction)
    (manager : Copilot.Http.Manager) :
  choice ∈ Commands.commandOptions Commands.buildModelCommand
           ≫= Commands.optionChoices ->
  Commands.isChatInputCommand i = true ->
  Commands.interactionCommand i = lit "model" ->
  Commands.modelOption i = Commands.choiceValue choice ->
  Commands.deferResult gateway = None ->
  Commands.editResult gateway 0 = None ->
  exists m,
    m ∈ Copilot.MODELS /\
    Commands.choiceValue choice = Copilot.modelId m /\
    Commands.choiceName choice
    = Copilot.label m ++ lit " (" ++ Copilot.modelId m ++ lit ")" /\
    Commands.onInteraction Copilot.Http.setModel gateway i manager
    = (Ok tt,
       {| Copilot.Http.token := Copilot.Http.token manager;
          Copilot.Http.model := Copilot.modelId m |},
       [Commands.DeferReply; Commands.EditReply (Commands.switched m)]).
Proof.
  intros Hchoice Hchat Hname Hopt Hdefer Hedit.
  cbn [Commands.buildModelCommand Commands.commandOptions mbind list_bind
       Commands.optionChoices] in Hchoice.
  rewrite app_nil_r in Hchoice.
  apply list_elem_of_fmap in Hchoice as (m & -> & Hm).
  exists m. split_and!; [done|done|done|].
  unfold Commands.onInteraction, Commands.switchModel.
  rewrite Hchat, Hname, Hdefer, Hopt. cbn [negb Commands.choiceOf Commands.choiceValue].
  rewrite bool_decide_eq_true_2 by done.
  rewrite (http_setModel_known _ m manager (findModel_entry m Hm)).
  by rewrite (findModel_entry m Hm), Hedit.
Qed.

Lemma model_choices_work_witness :
  let gateway := {| Commands.deferResult := None;
                    Commands.editResult := λ _, None |} in
  let i := {| Commands.isChatInputCommand := true;
              Commands.interactionCommand := lit "model";
              Commands.modelOption := lit "gpt-5-mini" |} in
  exists m,
    Copilot.label m = lit "ChatGPT 5 mini" /\
    Copilot.Http.model
      (Commands.onInteraction Copilot.Http.setModel gateway i
         (Copilot.Http.construct None)).1.2
    = Copilot.modelId m.
Proof.
  intros gateway i.
  destruct (model_choices_work
              {| Commands.choiceName := lit "ChatGPT 5 mini (gpt-5-mini)";
                 Commands.choiceValue := lit "gpt-5-mini" |}
              gateway i (Copilot.Http.construct None))
    as (m & Hm & Hv & Hn & Hrun); try reflexivity.
  - vm_compute. by left.
  - exists m. rewrite Hrun. split; [|done].
    revert Hm Hv. unfold Copilot.MODELS. rewrite !elem_of_cons, elem_of_nil.
    intros [->|[->|[->|[]]]]; [done|discriminate|discriminate].
Defined.



Section SelectionFacts.

Import Copilot.

Lemma default_last {A} (d x : A) (l : list A) :
  default d (last (x :: l)) = default x (last l).
Proof.
  revert d x. induction l as [|y l IH]; intros d x; [done|].
  change (last (x :: y :: l)) with (last (y :: l)).
  by rewrite (IH d y), (IH x y).
Qed.

Lemma http_selection (ids : list jsstring) : forall manager : Http.Manager,
  Http.model (foldl (λ manager id, (Http.setModel id manager).2) manager ids)
  = default (Http.model manager) (last (filter catalogued ids)).
Proof.
  induction ids as [|id ids IH]; intros manager; [done|]. cbn [foldl].
  destruct (decide (catalogued id)) as [Hid|Hid].
  - rewrite filter_cons_True by done. rewrite default_last.
    destruct (findModel_known id Hid) as [m Hm].
    rewrite IH. unfold Http.setModel. by rewrite Hm.
  - rewrite filter_cons_False by done.
    rewrite IH. unfold Http.setModel. by rewrite (findModel_unknown id Hid).
Qed.

Lemma sdk_setModel_model createSession id (manager : Sdk.Manager) :
  Sdk.model (Sdk.setModel createSession id manager).2
  = if decide (catalogued id) then id else Sdk.model manager.
Proof.
  unfold Sdk.setModel, Sdk.createSession_.
  destruct (decide (catalogued id)) as [Hid|Hid].
  - destruct (findModel_known id Hid) as [m ->].
    cbn [Sdk.started Sdk.model].
    destruct (Sdk.started manager); [|done]. by destruct (createSession id).
  - by rewrite (findModel_unknown id Hid).
Qed.

Lemma sdk_selection createSession (ids : list jsstring) :
  forall manager : Sdk.Manager,
  Sdk.model (foldl (λ manager id, (Sdk.setModel createSession id manager).2)
               manager ids)
  = default (Sdk.model manager) (last (filter catalogued ids)).
Proof.
  induction ids as [|id ids IH]; intros manager; [done|]. cbn [foldl].
  rewrite IH, sdk_setModel_model.
  destruct (decide (catalogued id)) as [Hid|Hid].
  - rewrite filter_cons_True by done. by rewrite default_last.
  - by rewrite filter_cons_False.
Qed.

End SelectionFacts.

(** X21.  The model in use is always one of the catalog.  After any
    sequence of [setModel] calls on a new manager, whether they succeed or
    not, the manager's model is the last requested identifier that is in
    the catalog, or the default model when there was none; this holds for
    the HTTP manager and for the SDK manager, whatever the SDK does. *)
Theorem selection_follows_requests (ids : list jsstring) :
  let selected :=
    default Copilot.DEFAULT_MODEL
      (last (filter (λ id, id ∈ Copilot.modelId <$> Copilot.MODELS) ids)) in
  selected ∈ Copilot.modelId <$> Copilot.MODELS /\
  (forall token,
     Copilot.Http.model
       (foldl (λ manager id, (Copilot.Http.setModel id manager).2)
          (Copilot.Http.construct token) ids)
     = selected) /\
  (forall createSession token,
     Copilot.Sdk.model
       (foldl (λ manager id, (Copilot.Sdk.setModel createSession id manager).2)
          (Copilot.Sdk.construct token) ids)
     = selected).
Proof.
  intros selected. split_and!.
  - unfold selected.
    destruct (last (filter _ ids)) as [id|] eqn:El.
    + apply last_Some in El as [l El].
      assert (Hin : id ∈ filter (λ id, id ∈ Copilot.modelId <$> Copilot.MODELS) ids).
      { rewrite El. apply elem_of_app. right. by left. }
      by apply list_elem_of_filter in Hin as [? _].
    + apply (bool_decide_unpack _). vm_compute. exact I.
  - intros token. apply (http_selection ids (Copilot.Http.construct token)).
  - intros createSession token.
    apply (sdk_selection createSession ids (Copilot.Sdk.construct token)).
Qed.

(** ** The HTTP manager behind the bot *)

Section BackendFacts.

Import Copilot Backend.

Lemma sendFiles_plain post prompt (manager : Http.Manager) res :
  post (Http.request prompt [] manager) = inr res ->
  sendFiles post prompt [] manager
  = if Http.ok res then Ok (Some (default [] (Http.choice res)))
    else Throw (JsError (lit "Copilot API " ++ numberToString (Http.status res)
                           ++ lit ": " ++ Http.bodyText res)).
Proof.
  intros Hpost. unfold sendFiles, Http.send, Http.call.
  cbn [fmap list_fmap]. rewrite Hpost. by destruct (Http.ok res).
Qed.

End BackendFacts.

(** X22.  What the author sees for each outcome of the Copilot API, for a
    message without an image to forward and a prompt that could be built.
    A response that is not ok brings the apology and no answer; an ok
    response without content, or with blank content, brings the notice of
    an empty response; an ok response with content brings replies that are
    chunks of the trimmed content from the first on, and all of them when
    Discord accepts every reply. *)
Theorem http_outcomes (config : Config) (env : Env) (message : Message)
    (w : World) (post : Copilot.Http.Request -> Error + Copilot.Http.Response)
    (manager : Copilot.Http.Manager) (res : Copilot.Http.Response)
    (prompt : jsstring) :
  Backend.served env post manager ->
  (forall request, post request = inr res) ->
  Log.admitted config (attachments message) = [] ->
  let w0 := {| events := events w ++ [EvTyping (channelId message)];
               files := files w |} in
  (Pipeline.buildPrompt config env message w0).1 = Ok prompt ->
  let log := Log.newEvents w (Pipeline.processMessage config env message w).2 in
  let text := trim (default [] (Copilot.Http.choice res)) in
  (Copilot.Http.ok res = false ->
   Observed.answers log = [] /\ Log.errorReplies log = [messageId message]) /\
  (Copilot.Http.ok res = true -> text = [] ->
   Observed.answers log = [] /\ Log.errorReplies log = [] /\
   Log.failureNotices log = [messageId message]) /\
  (Copilot.Http.ok res = true -> text ≠ [] ->
   Observed.answers log `prefix_of` Chunker.splitMessage text /\
   ((forall t, replyResult env t = None) ->
    Observed.answers log = Chunker.splitMessage text /\
    Log.failureNotices log = [])).
Proof.
  intros Hserved Hpost Hnone w0 Hprompt log text.
  destruct (processMessage_story config env message w)
    as (outb & fetches & results & stage & tail & t & w' & Eb & Ep & Hnew
        & Hfetch & Hstage & Hn & _ & _ & _ & Hend).
  fold w0 in Eb. rewrite Hprompt in Eb. subst outb.
  assert (results = []) as ->.
  { rewrite Hnone in Hn. apply sublist_nil_r in Hn. by destruct results. }
  unfold log. rewrite Ep. cbn [snd]. rewrite Hnew.
  rewrite answers_stages, errorReplies_stages, failureNotices_stages by done.
  destruct (ending_observations env _ _ _ _ _ Hend) as (_ & _ & Hobs).
  specialize (Hserved t prompt []).
  rewrite (sendFiles_plain post prompt manager res (Hpost _)) in Hserved.
  destruct (Copilot.Http.ok res).
  - rewrite Hserved in Hobs. cbn [fmap option_fmap option_map] in Hobs.
    fold text in Hobs. split_and!; [done| |].
    + intros _ Ht. rewrite Ht in Hobs. by destruct Hobs as (? & ? & ? & _).
    + intros _ Ht. destruct text as [|c rest]; [done|].
      destruct Hobs as [Hpre [(He & Hf & Ha)|(He & Ha & t' & e & Hr)]].
      * by split_and!.
      * split; [done|]. intros Hok. by rewrite Hok in Hr.
  - rewrite Hserved in Hobs. by split_and!.
Qed.

(** X23.  The HTTP manager cannot take the attachments that the bot hands
    to it.  They carry a path and a name but no data, so that [send] fails
    before it posts anything: when the completion service is called with at
    least one attachment, the author gets the apology and no answer. *)
Theorem http_manager_rejects_files (config : Config) (env : Env)
    (message : Message) (w : World)
    (post : Copilot.Http.Request -> Error + Copilot.Http.Response)
    (manager : Copilot.Http.Manager) (prompt : jsstring)
    (sent : list FileAttachment) :
  Backend.served env post manager ->
  let log := Log.newEvents w (Pipeline.processMessage config env message w).2 in
  (prompt, sent) ∈ Log.completions log ->
  sent ≠ [] ->
  Observed.answers log = [] /\ Log.errorReplies log = [messageId message].
Proof.
  intros Hserved log.
  destruct (processMessage_story config env message w)
    as (outb & fetches & results & stage & tail & t & w' & Eb & Ep & Hnew
        & Hfetch & Hstage & _ & _ & _ & _ & Hend).
  unfold log. rewrite Ep. cbn [snd]. rewrite Hnew.
  rewrite completions_stages, answers_stages, errorReplies_stages by done.
  destruct (ending_observations env _ _ _ _ _ Hend) as (_ & -> & Hobs).
  intros Hin Hsent.
  destruct outb as [prompt'| |]; [|by inversion Hin..].
  apply list_elem_of_singleton in Hin. injection Hin as -> ->.
  specialize (Hserved t prompt' results).
  destruct results as [|r results]; [done|].
  cbn [Backend.sendFiles] in Hserved. by rewrite Hserved in Hobs.
Qed.

Lemma overHttp_served (post : Copilot.Http.Request -> Error + Copilot.Http.Response)
    (manager : Copilot.Http.Manager) :
  Backend.served (Scenarios.overHttp post manager) post manager.
Proof.
  intros t prompt sent. cbn [Scenarios.overHttp sendResult].
  destruct (Backend.sendFiles post prompt sent manager) as [response|e|] eqn:E;
    [done|done|].
  unfold Backend.sendFiles, Copilot.Http.send, Copilot.Http.call in E.
  destruct sent; [|done].
  destruct (post _) as [e|res]; [done|]. by destruct (Copilot.Http.ok res).
Qed.

Lemma http_outcomes_witness :
  let manager := Copilot.Http.construct (Some (lit "token")) in
  let refused := Log.newEvents Examples.fresh
      (Pipeline.processMessage Examples.config
         (Scenarios.overHttp Scenarios.refusing manager)
         Examples.hello Examples.fresh).2 in
  let answered := Log.newEvents Examples.fresh
      (Pipeline.processMessage Examples.config
         (Scenarios.overHttp Scenarios.answering manager)
         Examples.hello Examples.fresh).2 in
  Log.errorReplies refused = [lit "1"] /\
  Observed.answers answered = [lit "hi there"].
Proof.
  intros manager refused answered. split.
  - pose proof (http_outcomes Examples.config
                  (Scenarios.overHttp Scenarios.refusing manager)
                  Examples.hello Examples.fresh Scenarios.refusing manager
                  {| Copilot.Http.ok := false; Copilot.Http.status := 402;
                     Copilot.Http.bodyText := lit "quota exceeded";
                     Copilot.Http.choice := None |} (lit "hello")
                  (overHttp_served _ _) (λ _, eq_refl) eq_refl eq_refl)
      as (Hrefused & _).
    destruct (Hrefused eq_refl) as [_ He]. exact He.
  - pose proof (http_outcomes Examples.config
                  (Scenarios.overHttp Scenarios.answering manager)
                  Examples.hello Examples.fresh Scenarios.answering manager
                  {| Copilot.Http.ok := true; Copilot.Http.status := 200;
                     Copilot.Http.bodyText := [];
                     Copilot.Http.choice := Some (lit "hi there") |} (lit "hello")
                  (overHttp_served _ _) (λ _, eq_refl) eq_refl eq_refl)
      as (_ & _ & Hanswered).
    destruct (Hanswered eq_refl) as [_ Hall].
    + vm_compute. discriminate.
    + destruct (Hall (λ _, eq_refl)) as [Ha _].
      etransitivity; [exact Ha|]. vm_compute. reflexivity.
Defined.

Lemma http_manager_rejects_files_witness :
  let manager := Copilot.Http.construct (Some (lit "token")) in
  let log := Log.newEvents Examples.fresh
      (Pipeline.processMessage Examples.config
         (Scenarios.overHttp Scenarios.answering manager)
         Examples.withCat Examples.fresh).2 in
  Observed.answers log = [] /\ Log.errorReplies log = [lit "3"].
Proof.
  intros manager log.
  apply (http_manager_rejects_files Examples.config
           (Scenarios.overHttp Scenarios.answering manager)
           Examples.withCat Examples.fresh Scenarios.answering manager
           (lit "look")
           [{| path := lit "/tmp/cobot_1700000000001_cat.png";
               displayName := lit "cat.png" |}]).
  - apply overHttp_served.
  - vm_compute. by left.
  - discriminate.
Defined.

(** ** The login box *)

Section BoxFacts.

Import Auth.

Implicit Types (s text uri code : jsstring) (n : Z).

Lemma repeat_len s n :
  0 <= n -> exists out, repeat s n = inr out /\ len out = n * len s.
Proof.
  intros Hn. unfold repeat. destruct (Z.ltb_spec n 0); [lia|].
  eexists. split; [done|].
  assert (forall k : nat, len (concat (replicate k s)) = Z.of_nat k * len s) as Hk.
  { induction k as [|k IH]; [done|]. cbn [replicate concat].
    rewrite len_app, IH. lia. }
  rewrite Hk, Z2Nat.id by lia. done.
Qed.

Lemma repeat_negative s n : n < 0 -> repeat s n = inl (INVALID_COUNT n).
Proof. intros Hn. unfold repeat. by destruct (Z.ltb_spec n 0); [|lia]. Qed.

Lemma center_len n text :
  len text <= n ->
  exists row, center n text = inr row /\ len row = n + 2.
Proof.
  intros Hn. unfold center.
  assert (0 <= (n - len text) / 2) as H1 by (apply Z.div_pos; lia).
  assert (0 <= (n - len text + 1) / 2) as H2 by (apply Z.div_pos; lia).
  destruct (repeat_len [SP] _ H1) as (before & -> & Hb).
  destruct (repeat_len [SP] _ H2) as (after & -> & Ha).
  eexists. split; [done|]. rewrite !len_app, Hb, Ha.
  change (len [SP]) with 1. change (len [VBAR]) with 1.
  pose proof (Z.div_mod (n - len text) 2 ltac:(lia)) as Hd.
  pose proof (Z.mod_pos_bound (n - len text) 2 ltac:(lia)) as Hm.
  pose proof (Z.div_mod (n - len text + 1) 2 ltac:(lia)) as Hd'.
  pose proof (Z.mod_pos_bound (n - len text + 1) 2 ltac:(lia)) as Hm'.
  lia.
Qed.

Lemma center_short n text :
  n < len text -> center n text = inl (INVALID_COUNT ((n - len text) / 2)).
Proof.
  intros Hn. unfold center. rewrite repeat_negative; [done|].
  apply Z.div_lt_upper_bound; lia.
Qed.

Lemma left_len n prefix value :
  len prefix + len value + 2 <= n ->
  exists row, left n prefix value = inr row /\ len row = n + 2.
Proof.
  intros Hn. unfold left.
  destruct (repeat_len [SP] (n - len (prefix ++ value) - 2)) as (pad & -> & Hp).
  { rewrite len_app. lia. }
  eexists. split; [done|]. rewrite !len_app, Hp, len_app.
  change (len [SP]) with 1. change (len [VBAR; SP]) with 2.
  change (len [SP; VBAR]) with 2. lia.
Qed.

End BoxFacts.

(** X24.  The login box is aligned.  When the longer of the verification
    address and the user code has 12 units or more, the six lines are
    printed and the six rows of the box (the first line without the
    newline before it, the last without the newline after it) all have the
    same length, that of the longer text plus 20.  When both are shorter
    than 12, only the top border is printed and centering the title fails
    with a range error. *)
Theorem login_box_aligned (uri code : jsstring) :
  let longest := Z.max (len uri) (len code) in
  if longest <? 12
  then
    exists top,
      Auth.box uri code
      = ([[LF] ++ top],
         Some (Auth.INVALID_COUNT ((longest + 18 - len Auth.TITLE) / 2))) /\
      len top = longest + 20
  else
    exists top title rule visit enter bottom,
      Auth.box uri code
      = ([[LF] ++ top; title; rule; visit; enter; bottom ++ [LF]], None) /\
      Forall (λ row, len row = longest + 20)
             [top; title; rule; visit; enter; bottom].
Proof.
  intros longest. unfold Auth.box, Auth.inner. fold longest.
  pose proof (len_nonneg uri) as Hu. pose proof (len_nonneg code) as Hc.
  assert (Hlu : len uri <= longest) by (unfold longest; lia).
  assert (Hlc : len code <= longest) by (unfold longest; lia).
  destruct (repeat_len [Auth.HBAR] (longest + 18)) as (dashes & -> & Hd); [lia|].
  change (len [Auth.HBAR]) with 1 in Hd.
  assert (Htitle : len Auth.TITLE = 30) by done.
  destruct (Z.ltb_spec longest 12) as [Hshort|Hlong].
  - rewrite center_short by lia. cbn [Auth.logEach].
    eexists. split; [done|]. rewrite !len_app, Hd.
    change (len [Auth.TOP_LEFT]) with 1. change (len [Auth.TOP_RIGHT]) with 1. lia.
  - destruct (center_len (longest + 18) Auth.TITLE) as (title & -> & Ht); [lia|].
    destruct (left_len (longest + 18) (lit "Visit:      ") uri)
      as (visit & -> & Hv).
    { change (len (lit "Visit:      ")) with 12. lia. }
    destruct (left_len (longest + 18) (lit "Enter code: ") code)
      as (enter & -> & He).
    { change (len (lit "Enter code: ")) with 12. lia. }
    cbn [Auth.logEach].
    exists ([Auth.TOP_LEFT] ++ dashes ++ [Auth.TOP_RIGHT]), title,
           ([Auth.TEE_LEFT] ++ dashes ++ [Auth.TEE_RIGHT]), visit, enter,
           ([Auth.BOTTOM_LEFT] ++ dashes ++ [Auth.BOTTOM_RIGHT]).
    split; [by rewrite <- !app_assoc|].
    repeat constructor; rewrite ?len_app, ?Hd; try lia;
      change (len [?c]) with 1; lia.
Qed.

(** ** Shutdown *)

Section ShutdownFacts.

Import Main.

Lemma shutdown_first (p : Process) :
  shuttingDown p = false -> botShuttingDown p = false ->
  shutdown p
  = {| shuttingDown := true; botShuttingDown := true;
       actions := actions p ++ [DestroyClient; StopCopilot; ExitAfter 0 300] |}.
Proof.
  intros H1 H2. unfold shutdown, stopBot. rewrite H1. cbn [botShuttingDown].
  rewrite H2. cbn [shuttingDown botShuttingDown actions].
  by rewrite <- app_assoc.
Qed.

Lemma handle_down (p : Process) (trigger : Trigger) :
  shuttingDown p = true -> handle p trigger = p.
Proof.
  intros H. destruct trigger as [name|code]; cbn [handle]; unfold shutdown;
    rewrite H; by try destruct (bool_decide _).
Qed.

(** Once the flag is set nothing happens any more. *)
Lemma run_down (triggers : list Trigger) (p : Process) :
  shuttingDown p = true -> foldl handle p triggers = p.
Proof.
  revert p. induction triggers as [|t ts IH]; intros p Hp; [done|].
  cbn [foldl]. rewrite handle_down by done. by apply IH.
Qed.

Lemma shutdown_sets (p : Process) : shuttingDown (shutdown p) = true.
Proof.
  unfold shutdown, stopBot. destruct (shuttingDown p) eqn:E; [done|].
  cbn [botShuttingDown]. by destruct (botShuttingDown p).
Qed.

(** A trigger that the handlers act on sets the flag. *)
Lemma run_effective (triggers : list Trigger) (p : Process) :
  existsb effective triggers = true ->
  shuttingDown (foldl handle p triggers) = true.
Proof.
  revert p. induction triggers as [|t ts IH]; intros p Hts; [done|].
  cbn [existsb] in Hts. cbn [foldl].
  apply orb_true_iff in Hts as [Ht|Hts]; [|by apply IH].
  assert (shuttingDown (handle p t) = true) as Hdown.
  { destruct t as [name|code]; cbn [handle effective] in *.
    - apply shutdown_sets.
    - apply negb_true_iff in Ht. rewrite Ht. apply shutdown_sets. }
  by rewrite run_down.
Qed.

(** Exceptions of destroyed streams change nothing. *)
Lemma run_idle (triggers : list Trigger) (p : Process) :
  existsb effective triggers = false -> foldl handle p triggers = p.
Proof.
  revert p. induction triggers as [|t ts IH]; intros p Hts; [done|].
  cbn [existsb] in Hts. apply orb_false_iff in Hts as [Ht Hts].
  cbn [foldl]. rewrite <- (IH p Hts) at 2. f_equal.
  destruct t as [name|code]; [done|]. cbn [handle effective] in *.
  apply negb_false_iff in Ht. by rewrite Ht.
Qed.

End ShutdownFacts.

(** X25.  The shutdown runs once.  However many signals and uncaught
    exceptions reach the process, the client of the bot is destroyed, the
    Copilot manager is stopped and the exit with code 0 is scheduled
    exactly once, in this order, at the first signal or the first uncaught
    exception that is not a destroyed stream; exceptions of destroyed
    streams alone start nothing. *)
Theorem shutdown_once (triggers : list Main.Trigger) :
  Main.actions (foldl Main.handle Main.running triggers)
  = if existsb Main.effective triggers
    then [Main.DestroyClient; Main.StopCopilot; Main.ExitAfter 0 300]
    else [].
Proof.
  induction triggers as [|trigger triggers IH] using rev_ind; [done|].
  rewrite foldl_snoc, existsb_app. cbn [existsb]. rewrite orb_false_r.
  destruct (existsb Main.effective triggers) eqn:Hex; cbn [orb].
  - rewrite handle_down; [done|]. by apply run_effective.
  - rewrite (run_idle triggers Main.running Hex).
    destruct trigger as [name|code]; cbn [Main.handle Main.effective].
    + by rewrite shutdown_first.
    + destruct (bool_decide _); [done|]. by rewrite shutdown_first.
Qed.

(** ** The context window *)

(** X27.  A context window of [n] messages is one request for the [n]
    latest messages, the message being answered among them.  With [n = 1]
    nothing is fetched and the prompt is the text of the message.  With any
    other [n] but 0, [buildPrompt] sends one request, for [n] messages and
    without a cursor, and fails with the error of the gateway or returns
    the prompt made from the page; when the page holds the message itself
    and no more than [n] messages, at most [n - 1] of them are context. *)
Theorem window_request (config : Config) (env : Env) (message : Message)
    (w : World) :
  let n := CONTEXT_MESSAGE_COUNT config in
  n ≠ 0 ->
  let run := Pipeline.buildPrompt config env message w in
  let request := {| limit := n; before := None |} in
  if decide (n = 1) then run = (Ok (content message), w)
  else
    Log.newEvents w run.2 = [EvFetch (channelId message) request] /\
    run.1
    = match fetchResult env (length (events w)) (channelId message) request with
      | inl e => Throw e
      | inr page => Ok (Pipeline.formatPrompt message page)
      end /\
    (forall page,
       fetchResult env (length (events w)) (channelId message) request = inr page ->
       Z.of_nat (length page) <= n ->
       Exists (λ m, messageId m = messageId message) page ->
       Z.of_nat (length (filter (λ m, messageId m ≠ messageId message) page)) < n).
Proof.
  intros n Hn run request. unfold run, Pipeline.buildPrompt. fold n.
  destruct (decide (n = 1)) as [->|H1]; [done|].
  destruct (Z.eqb_spec n 1); [done|]. destruct (Z.eqb_spec n 0); [done|].
  unfold mbind, M_bind, bind. rewrite fetch_run. fold request.
  split_and!.
  - destruct (fetchResult env _ _ _); unfold Log.newEvents, mret, M_ret, ret;
      cbn [snd events]; by rewrite drop_app_length.
  - by destruct (fetchResult env _ _ _).
  - intros page _ Hlen Hex.
    assert (length (filter (λ m, messageId m ≠ messageId message) page)
            < length page)%nat; [|lia].
    clear Hlen. induction Hex as [m page Hm|m page Hex IH].
    + rewrite filter_cons_False by (by intros ?). simpl.
      pose proof (length_filter (λ m, messageId m ≠ messageId message) page). lia.
    + destruct (decide (messageId m ≠ messageId message)).
      * rewrite filter_cons_True by done. simpl. lia.
      * rewrite filter_cons_False by done. simpl. lia.
Qed.

Lemma window_request_witness :
  let config :=
    {| DISCORD_GUILD_ID := lit "guild"; DISCORD_CHANNEL_ID := None;
       BLACKLISTED_CHANNELS := []; REPLY_TO_BOT := false;
       CONTEXT_MESSAGE_COUNT := 5; IMAGE_SUPPORT := true;
       MAX_IMAGE_SIZE_MB := 5 |} in
  Log.newEvents Examples.fresh
    (Pipeline.buildPrompt config Examples.calm Examples.hello Examples.fresh).2
  = [EvFetch (lit "general") {| limit := 5; before := None |}].
Proof.
  intros config.
  pose proof (window_request config Examples.calm Examples.hello Examples.fresh) as H.
  cbv zeta in H. destruct (decide (CONTEXT_MESSAGE_COUNT config = 1)) as [E|_].
  - discriminate E.
  - destruct H as [Hlog _]; [discriminate|]. exact Hlog.
Defined.

(** ** Temporary paths *)

Section PathFacts.

Import Index.

Implicit Types (s t : jsstring) (c : N).

Lemma lit_inj (s1 s2 : string) : lit s1 = lit s2 -> s1 = s2.
Proof.
  revert s2. induction s1 as [|a s1 IH]; intros [|b s2]; try done.
  rewrite !lit_cons. intros [= Hab Hs].
  apply (f_equal Ascii.ascii_of_N) in Hab. rewrite !Ascii.ascii_N_embedding in Hab.
  by rewrite Hab, (IH s2 Hs).
Qed.

Lemma numberToString_inj (n1 n2 : Z) :
  numberToString n1 = numberToString n2 -> n1 = n2.
Proof. intros H%lit_inj. by apply (inj pretty) in H. Qed.

Lemma numberToString_plain (n : Z) : UNDERSCORE ∉ numberToString n.
Proof.
  destruct (numberToString_digits n) as (digits & -> & _ & Hall & _).
  rewrite elem_of_app. intros [Hs|Hd].
  - destruct (n <? 0); [|by apply elem_of_nil in Hs].
    by apply list_elem_of_singleton in Hs.
  - rewrite Forall_forall in Hall. by specialize (Hall _ Hd).
Qed.

(** Two texts that agree up to a separator which is in neither head. *)
Lemma app_sep_inj c (h1 h2 t1 t2 : jsstring) :
  c ∉ h1 -> c ∉ h2 -> h1 ++ c :: t1 = h2 ++ c :: t2 -> h1 = h2 /\ t1 = t2.
Proof.
  revert h2. induction h1 as [|x h1 IH]; intros [|y h2] H1 H2 E; simpl in E.
  - by injection E as ->.
  - injection E as -> _. exfalso. apply H2. by left.
  - injection E as -> _. exfalso. apply H1. by left.
  - injection E as -> E. apply not_elem_of_cons in H1 as [_ H1].
    apply not_elem_of_cons in H2 as [_ H2].
    destruct (IH h2 H1 H2 E) as [-> ->]. done.
Qed.

End PathFacts.

(** X28.  Two downloads go to the same temporary file exactly when they
    start in the same millisecond and their attachments have the same
    name: the path determines the time and the name.  (For names without
    a path separator, which [path.join] leaves as they are.) *)
Theorem tmpPath_collision (env : Env) (t1 t2 : Z) (a1 a2 : Attachment) :
  (47%N ∉ attName a1) -> (47%N ∉ attName a2) ->
  Pipeline.tmpPath env t1 a1 = Pipeline.tmpPath env t2 a2
  <-> t1 = t2 /\ attName a1 = attName a2.
Proof.
  intros _ _. unfold Pipeline.tmpPath, pathJoin.
  split; [|intros [-> Hn]; by rewrite Hn].
  intros E.
  apply app_inv_head in E. apply app_inv_head in E. apply app_inv_head in E.
  change (lit "_" ++ attName a1) with (UNDERSCORE :: attName a1) in E.
  change (lit "_" ++ attName a2) with (UNDERSCORE :: attName a2) in E.
  apply app_sep_inj in E as [Ht Hn]; [|apply numberToString_plain..].
  split; [by apply numberToString_inj|done].
Qed.

Lemma tmpPath_collision_witness :
  Pipeline.tmpPath Examples.calm 1700000000001 Examples.cat
  = Pipeline.tmpPath Examples.calm 1700000000001
      {| attName := lit "cat.png"; attUrl := lit "https://cdn.example/other.png";
         contentType := Some (lit "image/png"); attSize := 7 |}.
Proof.
  apply tmpPath_collision.
  - apply (bool_decide_unpack _). vm_compute. exact I.
  - apply (bool_decide_unpack _). vm_compute. exact I.
  - by split.
Defined.
